(** * Generalized Cech complex construction (gcech/cech.py)

    A shallow embedding of [get_intersections], [CechComplexBase],
    [CechComplexLE] (the baseline construction) and [CechComplex] (the
    construction with witness caching), followed by the properties of the
    construction.

    Modelling conventions.
    - Python numbers are read as real numbers ([R]): the arithmetic is the
      exact one; [math.sqrt] of a negative number and a division by zero
      raise, as in Python.  The results on the geometry of the discs, and
      those marked _In exact arithmetic_ that are derived from them, hold of
      the exact arithmetic and need not hold of the rounded arithmetic of
      the program.  The properties that carry a number are stated of the
      lists that the code builds and of the outcome of the tests that it
      makes.
    - A Python [set] or [frozenset] of ball indices is a strictly increasing
      list of [nat]; iterating over it visits the indices in increasing
      order.  A [dict] keyed by frozensets is an association list.
    - Exceptions are values of [exn]; a computation that may raise returns a
      [res].  The [while True] loop of [simk] takes a fuel argument and
      returns [None] when the fuel runs out. *)

From Stdlib Require Import Reals Lra Lia Psatz List Arith ZArith Bool.
From Stdlib Require Import Permutation Sorted.
Import ListNotations.

Open Scope R_scope.

(** ** Exceptions and the error monad *)

Inductive exn : Type :=
| IndexError
| KeyError
| ZeroDivisionError
| ValueError
| TypeError.

Inductive res (A : Type) : Type :=
| Ok (a : A)
| Raise (e : exn).

Arguments Ok {A} a.
Arguments Raise {A} e.

Definition bind {A B : Type} (m : res A) (f : A -> res B) : res B :=
  match m with
  | Ok a => f a
  | Raise e => Raise e
  end.

Notation "x <- m ;; k" := (bind m (fun x => k))
  (at level 61, m at next level, right associativity).
Notation "' p <- m ;; k" := (bind m (fun x => match x with p => k end))
  (at level 61, p pattern, m at next level, right associativity).

(** A [for] loop threading an accumulator; an exception leaves the loop. *)
Fixpoint foldM {A St : Type} (f : St -> A -> res St) (l : list A) (s : St)
  : res St :=
  match l with
  | [] => Ok s
  | a :: l' => s' <- f s a ;; foldM f l' s'
  end.

(** A [for] loop that returns from the enclosing function at the first
    element for which the body finds a result. *)
Fixpoint firstM {A B : Type} (f : A -> res (option B)) (l : list A)
  : res (option B) :=
  match l with
  | [] => Ok None
  | a :: l' =>
      r <- f a ;;
      match r with
      | Some b => Ok (Some b)
      | None => firstM f l'
      end
  end.

(** A [for] loop that sets a flag to [False] and breaks at the first element
    failing the test. *)
Fixpoint allM {A : Type} (f : A -> res bool) (l : list A) : res bool :=
  match l with
  | [] => Ok true
  | a :: l' => b <- f a ;; if b then allM f l' else Ok false
  end.

(** [l[i]] *)
Definition index {A : Type} (l : list A) (i : nat) : res A :=
  match nth_error l i with
  | Some a => Ok a
  | None => Raise IndexError
  end.

(** ** Numbers *)

Definition Rleb (x y : R) : bool := if Rle_dec x y then true else false.
Definition Rltb (x y : R) : bool := if Rlt_dec x y then true else false.
Definition Rgtb (x y : R) : bool := Rltb y x.
Definition Reqb (x y : R) : bool := if Req_dec_T x y then true else false.

(** [math.sqrt] *)
Definition py_sqrt (x : R) : res R :=
  if Rlt_dec x 0 then Raise ValueError else Ok (sqrt x).

(** [a / b] *)
Definition py_div (a b : R) : res R :=
  if Req_dec_T b 0 then Raise ZeroDivisionError else Ok (a / b).

Definition point : Type := (R * R)%type.

(** ** Sets of ball indices *)

Fixpoint set_add (x : nat) (s : list nat) : list nat :=
  match s with
  | [] => [x]
  | y :: s' =>
      if (x <? y)%nat then x :: s
      else if (x =? y)%nat then s
      else y :: set_add x s'
  end.

Definition mem (x : nat) (s : list nat) : bool := existsb (Nat.eqb x) s.

Definition set_inter (a b : list nat) : list nat :=
  filter (fun x => mem x b) a.

Definition set_diff (a b : list nat) : list nat :=
  filter (fun x => negb (mem x b)) a.

(** [frozenset(l)] and [set(l)] *)
Definition frozenset (l : list nat) : list nat := fold_right set_add [] l.

(** [set.intersection] applied to the unpacked list [ls]: the unbound
    method needs a first argument. *)
Definition set_intersection (ls : list (list nat)) : res (list nat) :=
  match ls with
  | [] => Raise TypeError
  | s :: ls' => Ok (fold_left set_inter ls' s)
  end.

(** [itertools.combinations(l, k)] *)
Fixpoint combinations (k : nat) (l : list nat) : list (list nat) :=
  match k with
  | O => [[]]
  | S k' =>
      match l with
      | [] => []
      | x :: l' => map (cons x) (combinations k' l') ++ combinations k l'
      end
  end.

(** [itertools.combinations(l, 2)], as pairs *)
Fixpoint pairs (l : list nat) : list (nat * nat) :=
  match l with
  | [] => []
  | x :: l' => map (pair x) l' ++ pairs l'
  end.

(** ** Dictionaries keyed by frozensets *)

Definition key_eqb (a b : list nat) : bool :=
  if list_eq_dec Nat.eq_dec a b then true else false.

Fixpoint dict_get {V : Type} (d : list (list nat * V)) (k : list nat)
  : option V :=
  match d with
  | [] => None
  | (k', v) :: d' => if key_eqb k k' then Some v else dict_get d' k
  end.

Definition dict_mem {V : Type} (d : list (list nat * V)) (k : list nat)
  : bool :=
  match dict_get d k with Some _ => true | None => false end.

Fixpoint dict_set {V : Type} (d : list (list nat * V)) (k : list nat) (v : V)
  : list (list nat * V) :=
  match d with
  | [] => [(k, v)]
  | (k', v') :: d' =>
      if key_eqb k k' then (k, v) :: d' else (k', v') :: dict_set d' k v
  end.

(** [d[k]] *)
Definition dict_index {V : Type} (d : list (list nat * V)) (k : list nat)
  : res V :=
  match dict_get d k with
  | Some v => Ok v
  | None => Raise KeyError
  end.

(** [l[i] = v], for [i] in range *)
Fixpoint list_set {A : Type} (l : list A) (i : nat) (v : A) : list A :=
  match l, i with
  | [], _ => []
  | _ :: l', O => v :: l'
  | a :: l', S i' => a :: list_set l' i' v
  end.

(** ** [get_intersections] *)

Definition get_intersections (x0 y0 r0 x1 y1 r1 : R) : res (list point) :=
  d <- py_sqrt ((x1 - x0) ^ 2 + (y1 - y0) ^ 2) ;;
  if Rgtb d (r0 + r1) then Ok []
  else if Rltb d (Rabs (r0 - r1)) then Ok []
  else if Reqb d 0 && Reqb r0 r1 then Ok []
  else
    a <- py_div (r0 ^ 2 - r1 ^ 2 + d ^ 2) (2 * d) ;;
    h <- py_sqrt (r0 ^ 2 - a ^ 2) ;;
    ax <- py_div (a * (x1 - x0)) d ;;
    let x2 := x0 + ax in
    ay <- py_div (a * (y1 - y0)) d ;;
    let y2 := y0 + ay in
    hy <- py_div (h * (y1 - y0)) d ;;
    let x3 := x2 + hy in
    hx <- py_div (h * (x1 - x0)) d ;;
    let y3 := y2 - hx in
    hy' <- py_div (h * (y1 - y0)) d ;;
    let x4 := x2 - hy' in
    hx' <- py_div (h * (x1 - x0)) d ;;
    let y4 := y2 + hx' in
    Ok [(x3, y3); (x4, y4)].

(** ** [CechComplexBase] *)

Definition simplex : Type := list nat.
Definition level : Type := list simplex.

Section Base.

(** [self.positions], [self.radius], [self.maxK] *)
Variable positions : list point.
Variable radius : list R.
Variable maxK : option Z.

(** [self.N] *)
Definition N : nat := length positions.

Definition sim0 : level := map (fun i => [i]) (seq 0 N).

Definition dist (i j : nat) : res R :=
  '(x1, y1) <- index positions i ;;
  '(x2, y2) <- index positions j ;;
  py_sqrt ((x1 - x2) ^ 2 + (y1 - y2) ^ 2).

Definition isCellInsideCell (i j : nat) : res bool :=
  d <- dist i j ;;
  ri <- index radius i ;;
  rj <- index radius j ;;
  Ok (Rleb d (Rabs (ri - rj))).

Definition isPointInsideCell (p : point) (cellid : nat) : res bool :=
  '(x1, y1) <- index positions cellid ;;
  let '(x2, y2) := p in
  r <- index radius cellid ;;
  Ok (Rleb ((x1 - x2) ^ 2 + (y1 - y2) ^ 2) (r ^ 2)).

(** [intersects(i, j)], called with [d=None] *)
Definition intersects (i j : nat) : res bool :=
  d <- dist i j ;;
  _ <- index positions i ;;
  _ <- index positions j ;;
  ri <- index radius i ;;
  rj <- index radius j ;;
  if Rgtb d (ri + rj) then Ok false else Ok true.

Definition intersection (i j : nat) : res (list point) :=
  '(x1, y1) <- index positions i ;;
  '(x2, y2) <- index positions j ;;
  ri <- index radius i ;;
  rj <- index radius j ;;
  get_intersections x1 y1 ri x2 y2 rj.

(** [self.neighbor[i].add(j)] *)
Definition neighbor_add (nb : list (list nat)) (i j : nat)
  : res (list (list nat)) :=
  s <- index nb i ;;
  Ok (list_set nb i (set_add j s)).

(** [sim1]: the accumulator is [(self.neighbor, S1)]. *)
Definition sim1_step (i : nat) (acc : list (list nat) * level) (j : nat)
  : res (list (list nat) * level) :=
  let '(nb, S1) := acc in
  b <- intersects i j ;;
  if b then
    nb1 <- neighbor_add nb i j ;;
    nb2 <- neighbor_add nb1 j i ;;
    Ok (nb2, S1 ++ [[i; j]])
  else Ok (nb, S1).

Definition sim1 : res (list (list nat) * level) :=
  foldM (fun acc i => foldM (sim1_step i) (seq (i + 1) (N - (i + 1))) acc)
    (seq 0 N) (repeat [] N, []).

(** The first loop of [verify]: the first vertex of least radius. *)
Definition smallest_of (cells : simplex) : res nat :=
  c0 <- index cells 0 ;;
  foldM (fun smallest c =>
           rc <- index radius c ;;
           rs <- index radius smallest ;;
           Ok (if Rltb rc rs then c else smallest))
    cells c0.

(** The second loop of [verify]. *)
Definition inside_of (cells : simplex) (smallest : nat) : res bool :=
  foldM (fun inside c =>
           if (c =? smallest)%nat then Ok inside
           else
             b <- isCellInsideCell c smallest ;;
             Ok (if b then inside else false))
    cells true.

(** The innermost loop of both verifiers: is [p] in every cell of [cells]
    but those for which [skip] holds? *)
Definition inside_others {A : Type} (skip : A -> bool) (cellid : A -> nat)
    (p : point) (cells : list A) : res bool :=
  allM (fun c => if skip c then Ok true else isPointInsideCell p (cellid c))
    cells.

(** [self.maxK and k > self.maxK] *)
Definition over_maxK (k : nat) : bool :=
  match maxK with
  | None => false
  | Some m => negb (m =? 0)%Z && (Z.of_nat k >? m)%Z
  end.

End Base.

(** ** [CechComplexLE]: the baseline construction *)

Module LE.
Section LE.

Variable positions : list point.
Variable radius : list R.
Variable maxK : option Z.

(** [getCandidates(k)] *)
Definition getCandidates (neighbor : list (list nat)) (k : nat)
  : res (list simplex) :=
  foldM (fun acc i =>
           nb <- index neighbor i ;;
           Ok (acc ++ map (cons i) (combinations k nb)))
    (seq 0 (N positions)) [].

(** The loop over [inter]: the first point lying in all the other cells. *)
Definition check_point (cells : simplex) (pij : point * nat * nat)
  : res (option point) :=
  let '(p, i, j) := pij in
  b <- inside_others positions radius
         (fun cellid => (cellid =? i)%nat || (cellid =? j)%nat)
         (fun cellid => cellid) p cells ;;
  Ok (if b then Some p else None).

(** The list [inter]: the intersection points of every pair of cells, each
    with its pair. *)
Definition all_intersections (cells : simplex)
  : res (list (point * nat * nat)) :=
  foldM (fun inter '(i, j) =>
           x <- intersection positions radius i j ;;
           Ok (inter ++ map (fun p => (p, i, j)) x))
    (pairs cells) [].

(** The [else] branch of [verify]. *)
Definition fallback (cells : simplex) : res bool :=
  inter <- all_intersections cells ;;
  r <- firstM (check_point cells) inter ;;
  Ok (match r with Some _ => true | None => false end).

Definition verify (cells : simplex) : res bool :=
  smallest <- smallest_of radius cells ;;
  inside <- inside_of positions radius cells smallest ;;
  if inside then Ok true else fallback cells.

(** [_simk()] *)
Definition simk_level (neighbor : list (list nat)) (k : nat) : res level :=
  cands <- getCandidates neighbor k ;;
  foldM (fun Sk cand =>
           b <- verify cand ;;
           Ok (if b then Sk ++ [cand] else Sk))
    cands [].

(** The [while True] loop of [simk]. *)
Fixpoint simk_loop (fuel : nat) (neighbor : list (list nat)) (k : nat)
    (S : list level) : option (res (list level)) :=
  match fuel with
  | O => None
  | Datatypes.S fuel' =>
      if over_maxK maxK k then Some (Ok S)
      else
        match simk_level neighbor k with
        | Raise e => Some (Raise e)
        | Ok Sk =>
            if (length Sk =? 0)%nat then Some (Ok S)
            else simk_loop fuel' neighbor (k + 1) (S ++ [Sk])
        end
  end.

Definition cech (fuel : nat) : option (res (list level)) :=
  match sim1 positions radius with
  | Raise e => Some (Raise e)
  | Ok (neighbor, S1) =>
      simk_loop fuel neighbor 2 [sim0 positions; S1]
  end.

End LE.
End LE.

(** ** [CechComplex]: the construction with witness caching *)

Module Opt.

(** The mutable attributes and locals of a run: [self.neighbor], [self.S],
    [verified] and [self.intersections]. *)
Record state : Type := mkState {
  neighbor : list (list nat);
  levels : list level;
  verified : list (list nat * bool);
  intersections : list (list nat * point)
}.

Section Opt.

Variable positions : list point.
Variable radius : list R.
Variable maxK : option Z.

(** The candidate vertices for a simplex [s]. *)
Definition extensions (nb : list (list nat)) (s : simplex)
  : res (list nat) :=
  nbs <- foldM (fun acc i => n <- index nb i ;; Ok (acc ++ [n])) s [] ;;
  c <- set_intersection nbs ;;
  Ok (set_diff c (frozenset s)).

(** The last loop of [verify]; [i] is the position of the last cell. *)
Definition fallback_pair (cells : simplex) (i j : nat)
  : res (option point) :=
  ci <- index cells i ;;
  cj <- index cells j ;;
  x <- intersection positions radius ci cj ;;
  firstM (fun p =>
            b <- inside_others positions radius
                   (fun kc => (fst kc =? i)%nat || (fst kc =? j)%nat)
                   snd p (combine (seq 0 (length cells)) cells) ;;
            Ok (if b then Some p else None))
    x.

Definition fallback (cells : simplex) : res (option point) :=
  let i := (length cells - 1)%nat in
  firstM (fallback_pair cells i) (seq 0 i).

(** The shortcuts of [verify] that reuse a witness: for three cells, the
    intersection points of the first two, tested against the new one; for
    more, the witness recorded for [pre_set]. *)
Definition reuse_shortcut (inters : list (list nat * point))
    (cells : simplex) (new_cand : nat) : res (option point) :=
  let pre_set := removelast cells in
  if (length pre_set =? 2)%nat then
    c0 <- index cells 0 ;;
    c1 <- index cells 1 ;;
    x <- intersection positions radius c0 c1 ;;
    firstM (fun p =>
              b <- isPointInsideCell positions radius p new_cand ;;
              Ok (if b then Some p else None))
      x
  else if (2 <? length pre_set)%nat then
    w <- dict_index inters (frozenset pre_set) ;;
    b <- isPointInsideCell positions radius w new_cand ;;
    Ok (if b then Some w else None)
  else Ok None.

(** [verify(cells)]: [Some p] stands for [(True, p)], [None] for
    [(False, [])]. *)
Definition verify (inters : list (list nat * point)) (cells : simplex)
  : res (option point) :=
  smallest <- smallest_of radius cells ;;
  inside <- inside_of positions radius cells smallest ;;
  if inside then
    p <- index positions smallest ;;
    Ok (Some p)
  else
    new_cand <- index cells (length cells - 1) ;;
    shortcut <- reuse_shortcut inters cells new_cand ;;
    match shortcut with
    | Some p => Ok (Some p)
    | None => fallback cells
    end.

(** The body of the loop of [_simk] for one candidate; the accumulator is
    [(Sk, verified, self.intersections)]. *)
Definition simk_cand
    (acc : level * list (list nat * bool) * list (list nat * point))
    (cand : simplex)
  : res (level * list (list nat * bool) * list (list nat * point)) :=
  let '(Sk, ver, inters) := acc in
  let ns_sig := frozenset cand in
  if dict_mem ver ns_sig then Ok acc
  else
    r <- verify inters cand ;;
    match r with
    | Some inter =>
        Ok (Sk ++ [cand], dict_set ver ns_sig true,
            dict_set inters ns_sig inter)
    | None => Ok (Sk, dict_set ver ns_sig false, inters)
    end.

(** [_simk()], with the generator [getCandidates(k)] run in step with the
    loop that consumes it. *)
Definition simk_level (st : state) (k : nat)
  : res (level * list (list nat * bool) * list (list nat * point)) :=
  prev <- index (levels st) (k - 1) ;;
  foldM (fun acc s =>
           cand <- extensions (neighbor st) s ;;
           foldM (fun acc c => simk_cand acc (s ++ [c])) cand acc)
    prev ([], verified st, intersections st).

(** The [while True] loop of [simk]. *)
Fixpoint simk_loop (fuel : nat) (k : nat) (st : state)
  : option (res state) :=
  match fuel with
  | O => None
  | Datatypes.S fuel' =>
      if over_maxK maxK k then Some (Ok st)
      else
        match simk_level st k with
        | Raise e => Some (Raise e)
        | Ok (Sk, ver, inters) =>
            if negb (length Sk =? 0)%nat then
              simk_loop fuel' (k + 1)
                (mkState (neighbor st) (levels st ++ [Sk]) ver inters)
            else Some (Ok (mkState (neighbor st) (levels st) ver inters))
        end
  end.

(** A run of [cech], returning the final state of the object. *)
Definition run (fuel : nat) : option (res state) :=
  match sim1 positions radius with
  | Raise e => Some (Raise e)
  | Ok (nb, S1) =>
      simk_loop fuel 2 (mkState nb [sim0 positions; S1] [] [])
  end.

(** [cech(positions, radius, maxK)] returns [self.S]. *)
Definition cech (fuel : nat) : option (res (list level)) :=
  match run fuel with
  | None => None
  | Some (Raise e) => Some (Raise e)
  | Some (Ok st) => Some (Ok (levels st))
  end.

End Opt.
End Opt.

(** * Properties *)

(** ** The error monad and the boolean comparisons *)

Lemma Rleb_true_iff (x y : R) : Rleb x y = true <-> x <= y.
Proof. unfold Rleb. destruct (Rle_dec x y); split; intros; try lra; congruence. Qed.

Lemma Rleb_false_iff (x y : R) : Rleb x y = false <-> y < x.
Proof. unfold Rleb. destruct (Rle_dec x y); split; intros; try lra; congruence. Qed.

Lemma Rltb_true_iff (x y : R) : Rltb x y = true <-> x < y.
Proof. unfold Rltb. destruct (Rlt_dec x y); split; intros; try lra; congruence. Qed.

Lemma Rltb_false_iff (x y : R) : Rltb x y = false <-> y <= x.
Proof. unfold Rltb. destruct (Rlt_dec x y); split; intros; try lra; congruence. Qed.

Lemma Rgtb_true_iff (x y : R) : Rgtb x y = true <-> y < x.
Proof. apply Rltb_true_iff. Qed.

Lemma Rgtb_false_iff (x y : R) : Rgtb x y = false <-> x <= y.
Proof. apply Rltb_false_iff. Qed.

Lemma Reqb_true_iff (x y : R) : Reqb x y = true <-> x = y.
Proof. unfold Reqb. destruct (Req_dec_T x y); split; intros; congruence. Qed.

Lemma Reqb_false_iff (x y : R) : Reqb x y = false <-> x <> y.
Proof. unfold Reqb. destruct (Req_dec_T x y); split; intros; congruence. Qed.

Lemma py_sqrt_ok (x : R) : 0 <= x -> py_sqrt x = Ok (sqrt x).
Proof. intros H. unfold py_sqrt. destruct (Rlt_dec x 0); [lra | reflexivity]. Qed.

Lemma py_div_ok (a b : R) : b <> 0 -> py_div a b = Ok (a / b).
Proof. intros H. unfold py_div. destruct (Req_dec_T b 0); [contradiction | reflexivity]. Qed.

Lemma sum_sq_nonneg (a b : R) : 0 <= a ^ 2 + b ^ 2.
Proof. nra. Qed.

Lemma sqrt_sum_sq_0 (a b : R) : sqrt (a ^ 2 + b ^ 2) = 0 -> a = 0 /\ b = 0.
Proof.
  intros H. apply sqrt_eq_0 in H; [| apply sum_sq_nonneg]. split; nra.
Qed.

Lemma sqrt_unique (x y : R) : 0 <= y -> y * y = x -> sqrt x = y.
Proof. intros Hy <-. apply sqrt_square, Hy. Qed.

(** ** [get_intersections] *)

(** The quantity under the second square root is not negative once the
    three guards have been passed. *)
Lemma chord_sq_nonneg (r0 r1 d : R) :
  0 < d -> d <= r0 + r1 -> Rabs (r0 - r1) <= d ->
  0 <= r0 ^ 2 - ((r0 ^ 2 - r1 ^ 2 + d ^ 2) / (2 * d)) ^ 2.
Proof.
  intros Hd Hs Ha.
  assert (H1 : r0 - r1 <= d) by (pose proof (Rle_abs (r0 - r1)); lra).
  assert (H2 : r1 - r0 <= d).
  { pose proof (Rle_abs (- (r0 - r1))) as H. rewrite Rabs_Ropp in H. lra. }
  replace (r0 ^ 2 - ((r0 ^ 2 - r1 ^ 2 + d ^ 2) / (2 * d)) ^ 2)
    with (((r0 + r1 - d) * (r0 + r1 + d)) * ((d - r0 + r1) * (d + r0 - r1))
          / (4 * d ^ 2)) by (field; lra).
  apply Rmult_le_pos.
  - apply Rmult_le_pos; apply Rmult_le_pos; lra.
  - left. apply Rinv_0_lt_compat. nra.
Qed.

(** The result of [get_intersections], branch by branch. *)
Lemma get_intersections_cases (x0 y0 r0 x1 y1 r1 : R) :
  let d := sqrt ((x1 - x0) ^ 2 + (y1 - y0) ^ 2) in
  let a := (r0 ^ 2 - r1 ^ 2 + d ^ 2) / (2 * d) in
  let h := sqrt (r0 ^ 2 - a ^ 2) in
  let x2 := x0 + a * (x1 - x0) / d in
  let y2 := y0 + a * (y1 - y0) / d in
  (( r0 + r1 < d \/ d < Rabs (r0 - r1) \/ (d = 0 /\ r0 = r1)) /\
   get_intersections x0 y0 r0 x1 y1 r1 = Ok [])
  \/
  (0 < d /\ d <= r0 + r1 /\ Rabs (r0 - r1) <= d /\
   get_intersections x0 y0 r0 x1 y1 r1 =
     Ok [(x2 + h * (y1 - y0) / d, y2 - h * (x1 - x0) / d);
         (x2 - h * (y1 - y0) / d, y2 + h * (x1 - x0) / d)]).
Proof.
  intros d a h x2 y2. unfold get_intersections.
  rewrite py_sqrt_ok by apply sum_sq_nonneg. cbn [bind]. fold d.
  assert (Hd0 : 0 <= d) by apply sqrt_pos.
  destruct (Rgtb d (r0 + r1)) eqn:E1.
  { left. apply Rgtb_true_iff in E1. auto. }
  apply Rgtb_false_iff in E1.
  destruct (Rltb d (Rabs (r0 - r1))) eqn:E2.
  { left. apply Rltb_true_iff in E2. auto. }
  apply Rltb_false_iff in E2.
  destruct (Reqb d 0 && Reqb r0 r1) eqn:E3.
  { left. apply andb_true_iff in E3. destruct E3 as [Ea Eb].
    apply Reqb_true_iff in Ea, Eb. auto. }
  assert (Hd : 0 < d).
  { destruct (Req_dec_T d 0) as [Hz | Hz]; [| lra].
    exfalso. rewrite Hz in E2.
    assert (Hr : r0 = r1).
    { pose proof (Rabs_pos (r0 - r1)) as Hp.
      assert (Hq : Rabs (r0 - r1) = 0) by lra.
      destruct (Req_dec_T (r0 - r1) 0) as [Hy | Hy]; [lra |].
      apply Rabs_no_R0 in Hy. contradiction. }
    apply andb_false_iff in E3. destruct E3 as [E3 | E3];
      apply Reqb_false_iff in E3; congruence. }
  right. repeat (split; [assumption |]).
  rewrite py_div_ok by lra. cbn [bind]. fold a.
  rewrite py_sqrt_ok by (apply chord_sq_nonneg; assumption). cbn [bind]. fold h.
  repeat (rewrite py_div_ok by lra; cbn [bind]).
  reflexivity.
Qed.

Lemma get_intersections_total (x0 y0 r0 x1 y1 r1 : R) :
  exists l, get_intersections x0 y0 r0 x1 y1 r1 = Ok l.
Proof.
  destruct (get_intersections_cases x0 y0 r0 x1 y1 r1) as [[_ H] | (_ & _ & _ & H)];
    rewrite H; eauto.
Qed.

(** C7. Two circles with the same centre and different radii take the
    guarded branch "one circle within the other" and give no intersection
    point; so does every pair of circles that is too far apart, nested or
    coincident; and no call of [get_intersections] divides by zero. *)
Theorem get_intersections_never_divides_by_zero :
  forall x0 y0 r0 x1 y1 r1 : R,
    let d := sqrt ((x1 - x0) ^ 2 + (y1 - y0) ^ 2) in
    (d = 0 -> r0 <> r1 ->
       Rltb d (Rabs (r0 - r1)) = true /\
       get_intersections x0 y0 r0 x1 y1 r1 = Ok []) /\
    (d > r0 + r1 \/ d < Rabs (r0 - r1) \/ (d = 0 /\ r0 = r1) ->
       get_intersections x0 y0 r0 x1 y1 r1 = Ok []) /\
    (d = 0 -> get_intersections x0 y0 r0 x1 y1 r1 = Ok []) /\
    get_intersections x0 y0 r0 x1 y1 r1 <> Raise ZeroDivisionError.
Proof.
  intros x0 y0 r0 x1 y1 r1 d.
  pose proof (get_intersections_cases x0 y0 r0 x1 y1 r1) as H.
  cbv zeta in H. fold d in H.
  assert (Hguard : d > r0 + r1 \/ d < Rabs (r0 - r1) \/ (d = 0 /\ r0 = r1) ->
                   get_intersections x0 y0 r0 x1 y1 r1 = Ok []).
  { intros Hg. destruct H as [[_ H] | (H1 & H2 & H3 & _)]; [exact H |].
    exfalso. destruct Hg as [Hg | [Hg | [Hg _]]]; lra. }
  assert (Hzero : d = 0 -> get_intersections x0 y0 r0 x1 y1 r1 = Ok []).
  { intros Hz. destruct H as [[_ H] | (H1 & _)]; [exact H | lra]. }
  repeat split.
  - apply Rltb_true_iff. rewrite H0.
    apply Rabs_pos_lt. lra.
  - auto.
  - exact Hguard.
  - exact Hzero.
  - destruct (get_intersections_total x0 y0 r0 x1 y1 r1) as [l Hl].
    rewrite Hl. discriminate.
Qed.

Lemma get_intersections_never_divides_by_zero_witness :
  get_intersections 0 0 1 0 0 2 = Ok [].
Proof.
  assert (Hd : sqrt ((0 - 0) ^ 2 + (0 - 0) ^ 2) = 0).
  { apply sqrt_unique; lra. }
  assert (Hr : 1 <> 2) by lra.
  exact (proj2 (proj1 (get_intersections_never_divides_by_zero 0 0 1 0 0 2)
                  Hd Hr)).
Defined.


(** ** The geometric primitives of [CechComplexBase] *)

Lemma index_Ok_lt {A : Type} (l : list A) (i : nat) (a : A) :
  index l i = Ok a -> (i < length l)%nat.
Proof.
  unfold index. destruct (nth_error l i) eqn:E; [| discriminate].
  intros _. apply nth_error_Some. congruence.
Qed.


Lemma dist_Ok (positions : list point) (i j : nat) (xi yi xj yj : R) :
  index positions i = Ok (xi, yi) -> index positions j = Ok (xj, yj) ->
  dist positions i j = Ok (sqrt ((xi - xj) ^ 2 + (yi - yj) ^ 2)).
Proof.
  intros Hi Hj. unfold dist. rewrite Hi, Hj. cbn [bind].
  apply py_sqrt_ok, sum_sq_nonneg.
Qed.

Lemma isCellInsideCell_Ok (positions : list point) (radius : list R)
    (i j : nat) (xi yi xj yj ri rj : R) :
  index positions i = Ok (xi, yi) -> index positions j = Ok (xj, yj) ->
  index radius i = Ok ri -> index radius j = Ok rj ->
  isCellInsideCell positions radius i j =
    Ok (Rleb (sqrt ((xi - xj) ^ 2 + (yi - yj) ^ 2)) (Rabs (ri - rj))).
Proof.
  intros Hi Hj Hri Hrj. unfold isCellInsideCell.
  rewrite (dist_Ok _ _ _ _ _ _ _ Hi Hj), Hri, Hrj. reflexivity.
Qed.

Lemma isPointInsideCell_Ok (positions : list point) (radius : list R)
    (p : point) (c : nat) (x y r : R) :
  index positions c = Ok (x, y) -> index radius c = Ok r ->
  isPointInsideCell positions radius p c =
    Ok (Rleb ((x - fst p) ^ 2 + (y - snd p) ^ 2) (r ^ 2)).
Proof.
  intros Hc Hr. unfold isPointInsideCell. rewrite Hc. cbn [bind].
  destruct p as [x2 y2]. rewrite Hr. reflexivity.
Qed.

Lemma intersects_Ok (positions : list point) (radius : list R)
    (i j : nat) (xi yi xj yj ri rj : R) :
  index positions i = Ok (xi, yi) -> index positions j = Ok (xj, yj) ->
  index radius i = Ok ri -> index radius j = Ok rj ->
  intersects positions radius i j =
    Ok (Rleb (sqrt ((xi - xj) ^ 2 + (yi - yj) ^ 2)) (ri + rj)).
Proof.
  intros Hi Hj Hri Hrj. unfold intersects.
  rewrite (dist_Ok _ _ _ _ _ _ _ Hi Hj), Hi, Hj, Hri, Hrj. cbn [bind].
  unfold Rgtb, Rltb, Rleb.
  destruct (Rlt_dec _ _), (Rle_dec _ _); try reflexivity; lra.
Qed.

Lemma intersection_Ok (positions : list point) (radius : list R)
    (i j : nat) (xi yi xj yj ri rj : R) :
  index positions i = Ok (xi, yi) -> index positions j = Ok (xj, yj) ->
  index radius i = Ok ri -> index radius j = Ok rj ->
  intersection positions radius i j = get_intersections xi yi ri xj yj rj.
Proof.
  intros Hi Hj Hri Hrj. unfold intersection.
  rewrite Hi, Hj, Hri, Hrj. reflexivity.
Qed.

(** C6 (as amended). [isCellInsideCell(i, j)] compares the distance of the
    centres with the absolute value of the difference of the radii: it is
    true iff [distance(i, j) <= |radius_i - radius_j|], it gives the same
    answer for [(j, i)], and it is the test
    [distance(i, j) <= radius_j - radius_i] when [radius_i <= radius_j]. *)
Theorem isCellInsideCell_abs :
  forall (positions : list point) (radius : list R) (i j : nat)
         (xi yi xj yj ri rj : R),
    index positions i = Ok (xi, yi) -> index positions j = Ok (xj, yj) ->
    index radius i = Ok ri -> index radius j = Ok rj ->
    let d := sqrt ((xi - xj) ^ 2 + (yi - yj) ^ 2) in
    exists b : bool,
      isCellInsideCell positions radius i j = Ok b /\
      dist positions i j = Ok d /\
      (b = true <-> d <= Rabs (ri - rj)) /\
      (ri <= rj -> (b = true <-> d <= rj - ri)) /\
      isCellInsideCell positions radius j i = Ok b.
Proof.
  intros positions radius i j xi yi xj yj ri rj Hi Hj Hri Hrj d.
  exists (Rleb d (Rabs (ri - rj))).
  split; [apply isCellInsideCell_Ok; assumption |].
  split; [apply dist_Ok; assumption |].
  split; [apply Rleb_true_iff |].
  split.
  - intros Hle. rewrite Rleb_true_iff.
    rewrite Rabs_left1 by lra. split; intros; lra.
  - rewrite (isCellInsideCell_Ok _ _ _ _ _ _ _ _ _ _ Hj Hi Hrj Hri).
    f_equal. unfold d.
    replace ((xj - xi) ^ 2 + (yj - yi) ^ 2)
      with ((xi - xj) ^ 2 + (yi - yj) ^ 2) by ring.
    rewrite (Rabs_minus_sym rj ri). reflexivity.
Qed.

Lemma isCellInsideCell_abs_witness :
  exists b : bool,
    isCellInsideCell [(0, 0); (0, 0)] [3; 1] 0%nat 1%nat = Ok b /\
    (b = true <-> sqrt ((0 - 0) ^ 2 + (0 - 0) ^ 2) <= Rabs (3 - 1)).
Proof.
  destruct (isCellInsideCell_abs [(0, 0); (0, 0)] [3; 1] 0 1 0 0 0 0 3 1
              eq_refl eq_refl eq_refl eq_refl) as (b & H1 & _ & H2 & _).
  exists b. split; assumption.
Defined.

(** The test holds of a larger disc [i] and a smaller disc [j] inside it:
    the claim that [isCellInsideCell(i, j)] is false whenever
    [radius_j < radius_i], and that it is the test
    [distance(i, j) <= radius_j - radius_i], fails on two discs of centre
    [(0, 0)] and radii 3 and 1. *)
Lemma isCellInsideCell_larger_in_smaller :
  let positions := [(0, 0); (0, 0)] in
  let radius := [3; 1] in
  dist positions 0 1 = Ok 0 /\
  isCellInsideCell positions radius 0 1 = Ok true /\
  1 < 3 /\ ~ (0 <= 1 - 3).
Proof.
  cbv zeta.
  assert (Hd : sqrt ((0 - 0) ^ 2 + (0 - 0) ^ 2) = 0) by (apply sqrt_unique; lra).
  split; [| split; [| split; lra]].
  - rewrite (dist_Ok [(0, 0); (0, 0)] 0 1 0 0 0 0 eq_refl eq_refl).
    now rewrite Hd.
  - rewrite (isCellInsideCell_Ok [(0, 0); (0, 0)] [3; 1] 0 1 0 0 0 0 3 1
               eq_refl eq_refl eq_refl eq_refl).
    rewrite Hd. f_equal. apply Rleb_true_iff.
    rewrite Rabs_right; lra.
Qed.


(** ** Evaluation on concrete inputs *)

Ltac rbool :=
  repeat match goal with
    | |- context [Rabs ?a] =>
        first [ rewrite (Rabs_pos_eq a) by lra | rewrite (Rabs_left1 a) by lra ]
    | |- context [Rltb ?a ?b] =>
        first [ rewrite (proj2 (Rltb_true_iff a b)) by lra
              | rewrite (proj2 (Rltb_false_iff a b)) by lra ]
    | |- context [Rgtb ?a ?b] =>
        first [ rewrite (proj2 (Rgtb_true_iff a b)) by lra
              | rewrite (proj2 (Rgtb_false_iff a b)) by lra ]
    | |- context [Rleb ?a ?b] =>
        first [ rewrite (proj2 (Rleb_true_iff a b)) by lra
              | rewrite (proj2 (Rleb_false_iff a b)) by lra ]
    | |- context [Reqb ?a ?b] =>
        first [ rewrite (proj2 (Reqb_true_iff a b)) by lra
              | rewrite (proj2 (Reqb_false_iff a b)) by lra ]
    end.

Ltac rsqrt v :=
  match goal with
  | |- context [py_sqrt ?a] =>
      rewrite (py_sqrt_ok a) by lra;
      replace (sqrt a) with v by (symmetry; apply sqrt_unique; lra)
  end.

Ltac rdiv :=
  match goal with
  | |- context [py_div ?a ?b] => rewrite (py_div_ok a b) by lra
  end.

Ltac ev :=
  cbn -[Rabs pow sqrt Rplus Rminus Rmult Rdiv Rleb Rltb Rgtb Reqb
        py_sqrt py_div].

Ltac unf :=
  unfold sim1_step, intersects, isCellInsideCell, isPointInsideCell, dist,
    intersection, get_intersections.

(** Evaluates a run in which every square root taken is [v]. *)
Ltac reval v := repeat (progress (try unf; ev; rbool; try rsqrt v; try rdiv)).

(** Scenario B: three discs of centre [(0, 0)] and radii 1, 2 and 3. *)
Definition positions_B : list point := [(0, 0); (0, 0); (0, 0)].
Definition radius_B : list R := [1; 2; 3].

Lemma sim1_B :
  sim1 positions_B radius_B =
    Ok ([[1; 2]; [0; 2]; [0; 1]]%nat, [[0; 1]; [0; 2]; [1; 2]]%nat).
Proof. unfold sim1, N. reval 0. reflexivity. Qed.

Lemma smallest_of_B : smallest_of radius_B [0; 1; 2]%nat = Ok 0%nat.
Proof. unfold smallest_of. reval 0. reflexivity. Qed.

Lemma inside_of_B :
  inside_of positions_B radius_B [0; 1; 2]%nat 0 = Ok true.
Proof. unfold inside_of. reval 0. reflexivity. Qed.

Lemma verify_B :
  forall inters,
    Opt.verify positions_B radius_B inters [0; 1; 2]%nat = Ok (Some (0, 0)).
Proof.
  intros inters. unfold Opt.verify.
  rewrite smallest_of_B. cbn [bind]. rewrite inside_of_B. reflexivity.
Qed.

Lemma run_B (maxK : option Z) (fuel : nat) :
  over_maxK maxK 2 = false -> over_maxK maxK 3 = false ->
  Opt.run positions_B radius_B maxK (2 + fuel) =
    Some (Ok (Opt.mkState
                [[1; 2]; [0; 2]; [0; 1]]%nat
                [[[0]; [1]; [2]]; [[0; 1]; [0; 2]; [1; 2]]; [[0; 1; 2]]]%nat
                [([0; 1; 2]%nat, true)]
                [([0; 1; 2]%nat, (0, 0))])).
Proof.
  intros H2 H3. unfold Opt.run. rewrite sim1_B.
  cbn [Nat.add Opt.simk_loop]. rewrite H2.
  unfold Opt.simk_level. ev. unfold Opt.simk_cand. ev.
  rewrite verify_B. ev. rewrite H3. reflexivity.
Qed.

(** C9. On three discs of centre [(0, 0)] and radii 1, 2 and 3 the
    construction returns the three vertices, the three edges [{0,1}],
    [{0,2}], [{1,2}] and the single triangle [{0,1,2}]; the triangle is
    accepted by the containment shortcut (the disc 0 of least radius lies in
    the two others) and its recorded witness is the centre [(0, 0)] of
    disc 0. *)
Theorem scenario_B_nested_discs :
  forall fuel : nat,
    Opt.cech positions_B radius_B None (2 + fuel) =
      Some (Ok [[[0]; [1]; [2]]; [[0; 1]; [0; 2]; [1; 2]]; [[0; 1; 2]]]%nat) /\
    (exists st,
        Opt.run positions_B radius_B None (2 + fuel) = Some (Ok st) /\
        Opt.intersections st = [([0; 1; 2]%nat, (0, 0))]) /\
    smallest_of radius_B [0; 1; 2]%nat = Ok 0%nat /\
    inside_of positions_B radius_B [0; 1; 2]%nat 0 = Ok true /\
    index positions_B 0 = Ok (0, 0) /\
    Opt.verify positions_B radius_B [] [0; 1; 2]%nat = Ok (Some (0, 0)).
Proof.
  intros fuel.
  pose proof (run_B None fuel eq_refl eq_refl) as Hrun.
  split; [unfold Opt.cech; rewrite Hrun; reflexivity |].
  split; [eexists; split; [exact Hrun | reflexivity] |].
  split; [apply smallest_of_B |].
  split; [apply inside_of_B |].
  split; [reflexivity | apply verify_B].
Qed.

Lemma verify_LE_B (cells : simplex) :
  In cells [[0; 1; 2]; [1; 0; 2]; [2; 0; 1]]%nat ->
  LE.verify positions_B radius_B cells = Ok true.
Proof.
  intros [<- | [<- | [<- | []]]];
    unfold LE.verify, smallest_of, inside_of; reval 0; reflexivity.
Qed.

Lemma cech_LE_B (maxK : option Z) (fuel : nat) :
  over_maxK maxK 2 = false -> over_maxK maxK 3 = false ->
  LE.cech positions_B radius_B maxK (2 + fuel) =
    Some (Ok [[[0]; [1]; [2]]; [[0; 1]; [0; 2]; [1; 2]];
              [[0; 1; 2]; [1; 0; 2]; [2; 0; 1]]]%nat).
Proof.
  intros H2 H3. unfold LE.cech. rewrite sim1_B.
  cbn [Nat.add LE.simk_loop]. rewrite H2.
  unfold LE.simk_level, LE.getCandidates. ev.
  repeat (rewrite verify_LE_B by (cbn; tauto); ev).
  rewrite H3. reflexivity.
Qed.

(** ** The bound on the dimension *)

(** With [maxK = 0] the test [self.maxK and k > self.maxK] never holds: on
    scenario B both constructions return the levels of dimension 1 and 2,
    which a bound [d = 0] should exclude. *)
Lemma maxK_zero_is_no_bound :
  Opt.cech positions_B radius_B (Some 0%Z) 2 =
    Some (Ok [[[0]; [1]; [2]]; [[0; 1]; [0; 2]; [1; 2]]; [[0; 1; 2]]]%nat) /\
  LE.cech positions_B radius_B (Some 0%Z) 2 =
    Some (Ok [[[0]; [1]; [2]]; [[0; 1]; [0; 2]; [1; 2]];
              [[0; 1; 2]; [1; 0; 2]; [2; 0; 1]]]%nat).
Proof.
  split.
  - unfold Opt.cech. change 2%nat with (2 + 0)%nat.
    rewrite (run_B (Some 0%Z) 0 eq_refl eq_refl). reflexivity.
  - apply (cech_LE_B (Some 0%Z) 0 eq_refl eq_refl).
Qed.

(** What a bound [d] promises of the list of levels: the levels 0 and 1,
    then only levels that are not empty, none of dimension above [d]. *)
Definition levels_within (d : Z) (S : list level) : Prop :=
  (2 <= length S)%nat /\
  (Z.of_nat (length S) <= d + 1)%Z /\
  forall k, (2 <= k < length S)%nat -> nth k S [] <> [].

Lemma over_maxK_Some (d : Z) (k : nat) :
  (1 <= d)%Z -> over_maxK (Some d) k = true <-> (d < Z.of_nat k)%Z.
Proof.
  intros Hd. unfold over_maxK.
  destruct (Z.eqb_spec d 0); [lia |]. cbn [negb andb].
  rewrite Z.gtb_ltb. apply Z.ltb_lt.
Qed.

Lemma levels_within_snoc (d : Z) (S : list level) (Sk : level) :
  levels_within d S -> Sk <> [] -> (Z.of_nat (length S) <= d)%Z ->
  levels_within d (S ++ [Sk]).
Proof.
  intros (H2 & Hd & Hne) HSk Hle. unfold levels_within.
  rewrite length_app. cbn [length]. repeat split; try lia.
  intros k Hk. destruct (Nat.eq_dec k (length S)) as [-> | Hneq].
  - rewrite app_nth2 by lia. rewrite Nat.sub_diag. exact HSk.
  - rewrite app_nth1 by lia. apply Hne. lia.
Qed.

Lemma simk_loop_LE_within (positions : list point) (radius : list R)
    (d : Z) (neighbor : list (list nat)) :
  (1 <= d)%Z ->
  forall fuel k S,
    levels_within d S -> length S = k ->
    (d + 2 <= Z.of_nat fuel + Z.of_nat k)%Z ->
    exists r,
      LE.simk_loop positions radius (Some d) fuel neighbor k S = Some r /\
      forall S', r = Ok S' -> levels_within d S'.
Proof.
  intros Hd fuel. induction fuel as [| fuel IH]; intros k S HS Hlen Hfuel.
  - exfalso. destruct HS as (_ & H & _). lia.
  - cbn [LE.simk_loop].
    destruct (over_maxK (Some d) k) eqn:Eo.
    + eexists. split; [reflexivity |]. intros S' [= <-]. exact HS.
    + assert (Hk : (Z.of_nat k <= d)%Z).
      { destruct (Z.ltb_spec d (Z.of_nat k)) as [Hlt | Hge]; [| lia].
        apply (over_maxK_Some d k Hd) in Hlt. congruence. }
      destruct (LE.simk_level positions radius neighbor k) as [Sk | e].
      * destruct (Nat.eqb_spec (length Sk) 0) as [Hz | Hnz].
        -- eexists. split; [reflexivity |]. intros S' [= <-]. exact HS.
        -- apply IH.
           ++ apply levels_within_snoc; [exact HS | | lia].
              intros ->. apply Hnz. reflexivity.
           ++ rewrite length_app. cbn [length]. lia.
           ++ lia.
      * eexists. split; [reflexivity |]. intros S' [=].
Qed.

Lemma simk_loop_Opt_within (positions : list point) (radius : list R)
    (d : Z) :
  (1 <= d)%Z ->
  forall fuel k st,
    levels_within d (Opt.levels st) -> length (Opt.levels st) = k ->
    (d + 2 <= Z.of_nat fuel + Z.of_nat k)%Z ->
    exists r,
      Opt.simk_loop positions radius (Some d) fuel k st = Some r /\
      forall st', r = Ok st' -> levels_within d (Opt.levels st').
Proof.
  intros Hd fuel. induction fuel as [| fuel IH]; intros k st HS Hlen Hfuel.
  - exfalso. destruct HS as (_ & H & _). lia.
  - cbn [Opt.simk_loop].
    destruct (over_maxK (Some d) k) eqn:Eo.
    + eexists. split; [reflexivity |]. intros S' [= <-]. exact HS.
    + assert (Hk : (Z.of_nat k <= d)%Z).
      { destruct (Z.ltb_spec d (Z.of_nat k)) as [Hlt | Hge]; [| lia].
        apply (over_maxK_Some d k Hd) in Hlt. congruence. }
      destruct (Opt.simk_level positions radius st k) as [[[Sk ver] inters] | e].
      * destruct (Nat.eqb_spec (length Sk) 0) as [Hz | Hnz]; cbn [negb].
        -- eexists. split; [reflexivity |]. intros S' [= <-]. exact HS.
        -- apply IH; cbn [Opt.levels].
           ++ apply levels_within_snoc; [exact HS | | lia].
              intros ->. apply Hnz. reflexivity.
           ++ rewrite length_app. cbn [length]. lia.
           ++ lia.
      * eexists. split; [reflexivity |]. intros S' [=].
Qed.

(** C4 (as amended). With a bound [d >= 1], both constructions stop after
    at most [d] turns of the loop of [simk], and the complex they return has
    the levels 0 and 1, then only levels that are not empty, and no level of
    dimension above [d]. *)
Theorem maxK_bounds_the_levels :
  forall (positions : list point) (radius : list R) (d : Z) (fuel : nat),
    (1 <= d)%Z -> (d <= Z.of_nat fuel)%Z ->
    (exists r,
        Opt.cech positions radius (Some d) fuel = Some r /\
        forall S, r = Ok S -> levels_within d S) /\
    (exists r,
        LE.cech positions radius (Some d) fuel = Some r /\
        forall S, r = Ok S -> levels_within d S).
Proof.
  intros positions radius d fuel Hd Hfuel.
  assert (Hinit : forall S1 : level,
             levels_within d [sim0 positions; S1]).
  { intros S1. unfold levels_within. cbn [length]. repeat split; try lia. }
  split.
  - unfold Opt.cech, Opt.run.
    destruct (sim1 positions radius) as [[nb S1] | e].
    + destruct (simk_loop_Opt_within positions radius d Hd fuel 2
                  (Opt.mkState nb [sim0 positions; S1] [] []))
        as (r & Hr & Hok); [apply Hinit | reflexivity | lia |].
      rewrite Hr. destruct r as [st | e].
      * eexists. split; [reflexivity |]. intros S [= <-]. now apply Hok.
      * eexists. split; [reflexivity |]. intros S [=].
    + eexists. split; [reflexivity |]. intros S [=].
  - unfold LE.cech.
    destruct (sim1 positions radius) as [[nb S1] | e].
    + apply simk_loop_LE_within; [exact Hd | apply Hinit | reflexivity | lia].
    + eexists. split; [reflexivity |]. intros S [=].
Qed.

Lemma maxK_bounds_the_levels_witness :
  exists r,
    Opt.cech positions_B radius_B (Some 1%Z) 1 = Some r /\
    forall S, r = Ok S -> levels_within 1 S.
Proof.
  assert (H1 : (1 <= 1)%Z) by lia.
  assert (H2 : (1 <= Z.of_nat 1)%Z) by (cbn; lia).
  exact (proj1 (maxK_bounds_the_levels positions_B radius_B 1%Z 1%nat H1 H2)).
Defined.


(** ** Loops and exceptions *)

(** [only_raises P m]: if [m] raises, the exception satisfies [P]. *)
Definition only_raises {A : Type} (P : exn -> Prop) (m : res A) : Prop :=
  match m with
  | Ok _ => True
  | Raise e => P e
  end.

Lemma only_bind {A B : Type} (P : exn -> Prop) (m : res A) (f : A -> res B) :
  only_raises P m -> (forall a, m = Ok a -> only_raises P (f a)) ->
  only_raises P (bind m f).
Proof. destruct m as [a | e]; cbn; auto. Qed.

(** The invariant rule of [foldM]: an invariant of the accumulator kept by
    every turn holds of the result, and an exception comes from a turn. *)
Lemma foldM_inv {A St : Type} (I : St -> Prop) (P : exn -> Prop)
    (f : St -> A -> res St) (l : list A) (s : St) :
  I s ->
  (forall s a, In a l -> I s ->
               match f s a with Ok s' => I s' | Raise e => P e end) ->
  match foldM f l s with Ok s' => I s' | Raise e => P e end.
Proof.
  revert s. induction l as [| a l IH]; intros s Hs Hstep; cbn [foldM].
  - exact Hs.
  - pose proof (Hstep s a (or_introl eq_refl) Hs) as Ha.
    destruct (f s a) as [s' | e]; cbn [bind]; [| exact Ha].
    apply IH; [exact Ha |]. intros s0 a0 Hin. apply Hstep. now right.
Qed.

Lemma only_foldM {A St : Type} (P : exn -> Prop) (f : St -> A -> res St)
    (l : list A) (s : St) :
  (forall s a, In a l -> only_raises P (f s a)) ->
  only_raises P (foldM f l s).
Proof.
  intros H. pose proof (foldM_inv (fun _ => True) P f l s I) as Hf.
  unfold only_raises.
  destruct (foldM f l s); [exact I |]. apply Hf.
  intros s0 a Hin _. specialize (H s0 a Hin). unfold only_raises in H.
  destruct (f s0 a); auto.
Qed.

Lemma only_firstM {A B : Type} (P : exn -> Prop) (f : A -> res (option B))
    (l : list A) :
  (forall a, In a l -> only_raises P (f a)) -> only_raises P (firstM f l).
Proof.
  induction l as [| a l IH]; intros H; cbn [firstM]; [exact I |].
  apply only_bind; [apply H; now left |].
  intros [b |] _; [exact I |]. apply IH. intros a0 Hin. apply H. now right.
Qed.

Lemma only_allM {A : Type} (P : exn -> Prop) (f : A -> res bool)
    (l : list A) :
  (forall a, In a l -> only_raises P (f a)) -> only_raises P (allM f l).
Proof.
  induction l as [| a l IH]; intros H; cbn [allM]; [exact I |].
  apply only_bind; [apply H; now left |].
  intros [|] _; [| exact I]. apply IH. intros a0 Hin. apply H. now right.
Qed.

Lemma firstM_Some {A B : Type} (f : A -> res (option B)) (l : list A) (b : B) :
  firstM f l = Ok (Some b) ->
  exists l1 a l2,
    l = l1 ++ a :: l2 /\ f a = Ok (Some b) /\
    forall a', In a' l1 -> f a' = Ok None.
Proof.
  induction l as [| a l IH]; cbn [firstM]; [discriminate |].
  destruct (f a) as [[b' |] | e] eqn:E; cbn [bind]; try discriminate.
  - intros [= ->]. exists [], a, l. repeat split; [exact E | intros a' []].
  - intros H. destruct (IH H) as (l1 & a0 & l2 & -> & Ha0 & Hl1).
    exists (a :: l1), a0, l2. repeat split; [exact Ha0 |].
    intros a' [<- | Hin]; [exact E | now apply Hl1].
Qed.

Lemma firstM_None {A B : Type} (f : A -> res (option B)) (l : list A) :
  firstM f l = Ok None <-> forall a, In a l -> f a = Ok None.
Proof.
  induction l as [| a l IH]; cbn [firstM].
  - split; [intros _ a [] | reflexivity].
  - destruct (f a) as [[b' |] | e] eqn:E; cbn [bind].
    + split; [discriminate |]. intros H.
      specialize (H a (or_introl eq_refl)). congruence.
    + rewrite IH. split.
      * intros H a' [<- | Hin]; [exact E | now apply H].
      * intros H a' Hin. apply H. now right.
    + split; [discriminate |]. intros H.
      specialize (H a (or_introl eq_refl)). congruence.
Qed.

Lemma allM_true {A : Type} (f : A -> res bool) (l : list A) :
  allM f l = Ok true <-> forall a, In a l -> f a = Ok true.
Proof.
  induction l as [| a l IH]; cbn [allM].
  - split; [intros _ a [] | reflexivity].
  - destruct (f a) as [[|] | e] eqn:E; cbn [bind].
    + rewrite IH. split.
      * intros H a' [<- | Hin]; [exact E | now apply H].
      * intros H a' Hin. apply H. now right.
    + split; [discriminate |]. intros H.
      specialize (H a (or_introl eq_refl)). congruence.
    + split; [discriminate |]. intros H.
      specialize (H a (or_introl eq_refl)). congruence.
Qed.

Lemma allM_false {A : Type} (f : A -> res bool) (l : list A) :
  allM f l = Ok false ->
  exists l1 a l2,
    l = l1 ++ a :: l2 /\ f a = Ok false /\
    forall a', In a' l1 -> f a' = Ok true.
Proof.
  induction l as [| a l IH]; cbn [allM]; [discriminate |].
  destruct (f a) as [[|] | e] eqn:E; cbn [bind]; try discriminate.
  - intros H. destruct (IH H) as (l1 & a0 & l2 & -> & Ha0 & Hl1).
    exists (a :: l1), a0, l2. repeat split; [exact Ha0 |].
    intros a' [<- | Hin]; [exact E | now apply Hl1].
  - intros _. exists [], a, l. repeat split; [exact E | intros a' []].
Qed.

(** ** The memo table of [CechComplex] *)

(** A computation that does not raise [KeyError]. *)
Definition keyless {A : Type} (m : res A) : Prop :=
  only_raises (fun e => e <> KeyError) m.

Create HintDb keyless.

Lemma keyless_index {A : Type} (l : list A) (i : nat) : keyless (index l i).
Proof. unfold keyless, index. destruct (nth_error l i); cbn; [exact I | discriminate]. Qed.

Lemma keyless_py_sqrt (x : R) : keyless (py_sqrt x).
Proof. unfold keyless, py_sqrt. destruct (Rlt_dec x 0); cbn; [discriminate | exact I]. Qed.

Lemma keyless_get_intersections (x0 y0 r0 x1 y1 r1 : R) :
  keyless (get_intersections x0 y0 r0 x1 y1 r1).
Proof.
  destruct (get_intersections_total x0 y0 r0 x1 y1 r1) as [l ->]. exact I.
Qed.

Lemma keyless_set_intersection (ls : list (list nat)) :
  keyless (set_intersection ls).
Proof. destruct ls; cbn; [discriminate | exact I]. Qed.

#[local] Hint Resolve keyless_index keyless_py_sqrt keyless_get_intersections
  keyless_set_intersection : keyless.

Ltac keyless_step :=
  first
    [ exact I
    | discriminate
    | solve [auto with keyless]
    | match goal with
      | |- only_raises (fun e => e <> KeyError) ?m =>
          change (keyless m); solve [auto with keyless]
      end
    | apply only_bind; [| intros ? _]
    | apply only_foldM; intros
    | apply only_firstM; intros
    | apply only_allM; intros
    | match goal with
      | |- only_raises _ (match ?x with _ => _ end) => destruct x
      | |- keyless (match ?x with _ => _ end) => destruct x
      | |- keyless _ => unfold keyless
      end ].

Ltac keyless_tac := repeat keyless_step.

Lemma keyless_dist (positions : list point) (i j : nat) :
  keyless (dist positions i j).
Proof. unfold dist. keyless_tac. Qed.

#[local] Hint Resolve keyless_dist : keyless.

Lemma keyless_isCellInsideCell (positions : list point) (radius : list R)
    (i j : nat) : keyless (isCellInsideCell positions radius i j).
Proof. unfold isCellInsideCell. keyless_tac. Qed.

Lemma keyless_isPointInsideCell (positions : list point) (radius : list R)
    (p : point) (c : nat) : keyless (isPointInsideCell positions radius p c).
Proof. unfold isPointInsideCell. keyless_tac. Qed.

Lemma keyless_intersects (positions : list point) (radius : list R)
    (i j : nat) : keyless (intersects positions radius i j).
Proof. unfold intersects. keyless_tac. Qed.

Lemma keyless_intersection (positions : list point) (radius : list R)
    (i j : nat) : keyless (intersection positions radius i j).
Proof. unfold intersection. keyless_tac. Qed.

#[local] Hint Resolve keyless_isCellInsideCell keyless_isPointInsideCell
  keyless_intersects keyless_intersection : keyless.

Lemma keyless_sim1 (positions : list point) (radius : list R) :
  keyless (sim1 positions radius).
Proof. unfold sim1, sim1_step, neighbor_add. keyless_tac. Qed.

Lemma keyless_smallest_of (radius : list R) (cells : simplex) :
  keyless (smallest_of radius cells).
Proof. unfold smallest_of. keyless_tac. Qed.

Lemma keyless_inside_of (positions : list point) (radius : list R)
    (cells : simplex) (smallest : nat) :
  keyless (inside_of positions radius cells smallest).
Proof. unfold inside_of. keyless_tac. Qed.

Lemma keyless_inside_others (positions : list point) (radius : list R)
    {A : Type} (skip : A -> bool) (cellid : A -> nat) (p : point)
    (cells : list A) :
  keyless (inside_others positions radius skip cellid p cells).
Proof. unfold inside_others. keyless_tac. Qed.

#[local] Hint Resolve keyless_smallest_of keyless_inside_of
  keyless_inside_others : keyless.

Lemma keyless_fallback (positions : list point) (radius : list R)
    (cells : simplex) : keyless (Opt.fallback positions radius cells).
Proof. unfold Opt.fallback, Opt.fallback_pair. keyless_tac. Qed.

Lemma keyless_extensions (nb : list (list nat)) (s : simplex) :
  keyless (Opt.extensions nb s).
Proof. unfold Opt.extensions. keyless_tac. Qed.

#[local] Hint Resolve keyless_fallback keyless_extensions : keyless.

Lemma key_eqb_refl (k : list nat) : key_eqb k k = true.
Proof. unfold key_eqb. destruct (list_eq_dec Nat.eq_dec k k); congruence. Qed.

Lemma key_eqb_eq (k k' : list nat) : key_eqb k k' = true <-> k = k'.
Proof.
  unfold key_eqb. destruct (list_eq_dec Nat.eq_dec k k'); split; congruence.
Qed.

Lemma dict_get_set_same {V : Type} (d : list (list nat * V)) (k : list nat)
    (v : V) : dict_get (dict_set d k v) k = Some v.
Proof.
  induction d as [| [k' v'] d IH]; cbn [dict_set dict_get].
  - now rewrite key_eqb_refl.
  - destruct (key_eqb k k') eqn:E; cbn [dict_get].
    + now rewrite key_eqb_refl.
    + now rewrite E.
Qed.

Lemma dict_get_set_other {V : Type} (d : list (list nat * V))
    (k k0 : list nat) (v : V) :
  k0 <> k -> dict_get (dict_set d k v) k0 = dict_get d k0.
Proof.
  intros Hne. induction d as [| [k' v'] d IH]; cbn [dict_set dict_get].
  - destruct (key_eqb k0 k) eqn:E; [| reflexivity].
    apply key_eqb_eq in E. contradiction.
  - destruct (key_eqb k k') eqn:E; cbn [dict_get].
    + apply key_eqb_eq in E. subst k'.
      destruct (key_eqb k0 k) eqn:E'; [| reflexivity].
      apply key_eqb_eq in E'. contradiction.
    + now rewrite IH.
Qed.

Lemma dict_mem_set_same {V : Type} (d : list (list nat * V)) (k : list nat)
    (v : V) : dict_mem (dict_set d k v) k = true.
Proof. unfold dict_mem. now rewrite dict_get_set_same. Qed.

Lemma dict_mem_set_mono {V : Type} (d : list (list nat * V))
    (k k0 : list nat) (v : V) :
  dict_mem d k0 = true -> dict_mem (dict_set d k v) k0 = true.
Proof.
  intros H. destruct (list_eq_dec Nat.eq_dec k0 k) as [-> | Hne].
  - apply dict_mem_set_same.
  - unfold dict_mem in *. now rewrite dict_get_set_other.
Qed.

(** [verify] looks the memo table up only at [frozenset(pre_set)], and only
    when [pre_set] has more than two vertices. *)
Lemma keyless_verify (positions : list point) (radius : list R)
    (inters : list (list nat * point)) (cells : simplex) :
  ((2 < length (removelast cells))%nat ->
   dict_mem inters (frozenset (removelast cells)) = true) ->
  keyless (Opt.verify positions radius inters cells).
Proof.
  intros Hmemo. unfold Opt.verify.
  apply only_bind; [solve [keyless_tac] | intros smallest _].
  apply only_bind; [solve [keyless_tac] | intros inside _].
  destruct inside; [solve [keyless_tac] |].
  apply only_bind; [solve [keyless_tac] | intros new_cand _].
  apply only_bind.
  - unfold Opt.reuse_shortcut.
    destruct (length (removelast cells) =? 2)%nat; [solve [keyless_tac] |].
    destruct (2 <? length (removelast cells))%nat eqn:E; [| exact I].
    apply Nat.ltb_lt in E. specialize (Hmemo E).
    unfold dict_index, dict_mem in *.
    destruct (dict_get inters (frozenset (removelast cells)));
      [| discriminate].
    cbn [bind]. solve [keyless_tac].
  - intros [p |] _; [exact I | solve [keyless_tac]].
Qed.

(** Every simplex of [lv] with more than two vertices has a memo entry. *)
Definition memo_covers (inters : list (list nat * point)) (lv : level)
  : Prop :=
  forall s, In s lv -> (2 < length s)%nat ->
            dict_mem inters (frozenset s) = true.

(** What a turn of [_simk] keeps: the memo table only grows, and every
    simplex put in [Sk] has an entry. *)
Definition simk_acc_ok (inters0 : list (list nat * point))
    (acc : level * list (list nat * bool) * list (list nat * point))
  : Prop :=
  let '(Sk, _, inters) := acc in
  (forall k, dict_mem inters0 k = true -> dict_mem inters k = true) /\
  (forall s, In s Sk -> dict_mem inters (frozenset s) = true).

Lemma simk_cand_ok (positions : list point) (radius : list R)
    (inters0 : list (list nat * point))
    (acc : level * list (list nat * bool) * list (list nat * point))
    (s : simplex) (c : nat) :
  ((2 < length s)%nat -> dict_mem inters0 (frozenset s) = true) ->
  simk_acc_ok inters0 acc ->
  match Opt.simk_cand positions radius acc (s ++ [c]) with
  | Ok acc' => simk_acc_ok inters0 acc'
  | Raise e => e <> KeyError
  end.
Proof.
  intros Hs Hacc. destruct acc as [[Sk ver] inters].
  destruct Hacc as [Hmono HSk]. unfold Opt.simk_cand.
  destruct (dict_mem ver (frozenset (s ++ [c]))); [split; assumption |].
  pose proof (keyless_verify positions radius inters (s ++ [c])) as Hk.
  rewrite removelast_last in Hk.
  assert (Hkey : keyless (Opt.verify positions radius inters (s ++ [c]))).
  { apply Hk. intros Hlen. apply Hmono, Hs, Hlen. }
  unfold keyless, only_raises in Hkey.
  destruct (Opt.verify positions radius inters (s ++ [c])) as [[p |] | e];
    cbn [bind]; [| split; assumption | exact Hkey].
  split.
  - intros k Hk0. apply dict_mem_set_mono, Hmono, Hk0.
  - intros s' Hin. apply in_app_or in Hin. destruct Hin as [Hin | [<- | []]].
    + apply dict_mem_set_mono, HSk, Hin.
    + apply dict_mem_set_same.
Qed.

Lemma simk_level_ok (positions : list point) (radius : list R)
    (st : Opt.state) (k : nat) :
  (forall prev, index (Opt.levels st) (k - 1) = Ok prev ->
                memo_covers (Opt.intersections st) prev) ->
  match Opt.simk_level positions radius st k with
  | Ok acc => simk_acc_ok (Opt.intersections st) acc
  | Raise e => e <> KeyError
  end.
Proof.
  intros Hprev. unfold Opt.simk_level.
  pose proof (keyless_index (Opt.levels st) (k - 1)) as Hidx.
  destruct (index (Opt.levels st) (k - 1)) as [prev | e]; [| exact Hidx].
  cbn [bind]. specialize (Hprev prev eq_refl).
  apply (foldM_inv (simk_acc_ok (Opt.intersections st))
           (fun e => e <> KeyError)).
  - split; [auto | intros s []].
  - intros acc s Hin Hacc.
    pose proof (keyless_extensions (Opt.neighbor st) s) as Hext.
    destruct (Opt.extensions (Opt.neighbor st) s) as [cand | e];
      [| exact Hext].
    cbn [bind].
    apply (foldM_inv (simk_acc_ok (Opt.intersections st))
             (fun e => e <> KeyError)); [exact Hacc |].
    intros acc' c _ Hacc'. apply simk_cand_ok; [| exact Hacc'].
    intros Hlen. apply Hprev; assumption.
Qed.

(** The invariant of the loop of [simk]: the level 1 holds pairs, and every
    simplex of a level of dimension 2 or more has a memo entry. *)
Definition memo_inv (st : Opt.state) : Prop :=
  (forall s, In s (nth 1 (Opt.levels st) []) -> length s = 2%nat) /\
  (forall j s, (2 <= j)%nat -> In s (nth j (Opt.levels st) []) ->
               dict_mem (Opt.intersections st) (frozenset s) = true).

Lemma index_nth {A : Type} (l : list A) (i : nat) (a d : A) :
  index l i = Ok a -> nth i l d = a.
Proof.
  unfold index. destruct (nth_error l i) eqn:E; [| discriminate].
  intros [= <-]. now apply nth_error_nth.
Qed.

Lemma simk_loop_memo (positions : list point) (radius : list R)
    (maxK : option Z) :
  forall fuel k st,
    (2 <= k)%nat -> length (Opt.levels st) = k -> memo_inv st ->
    match Opt.simk_loop positions radius maxK fuel k st with
    | None => True
    | Some (Ok st') => memo_inv st'
    | Some (Raise e) => e <> KeyError
    end.
Proof.
  induction fuel as [| fuel IH]; intros k st Hk Hlen Hinv; [exact I |].
  cbn [Opt.simk_loop].
  destruct (over_maxK maxK k); [exact Hinv |].
  pose proof (simk_level_ok positions radius st k) as Hlv.
  destruct Hinv as [H1 H2].
  assert (Hcov : forall prev, index (Opt.levels st) (k - 1) = Ok prev ->
                              memo_covers (Opt.intersections st) prev).
  { intros prev Hprev s Hin Hlen3.
    apply (index_nth _ _ _ []) in Hprev. subst prev.
    destruct (Nat.eq_dec (k - 1) 1) as [E | E].
    - rewrite E in Hin. apply H1 in Hin. lia.
    - apply (H2 (k - 1)%nat); [lia | exact Hin]. }
  specialize (Hlv Hcov).
  destruct (Opt.simk_level positions radius st k) as [[[Sk ver] inters] | e];
    [| exact Hlv].
  destruct Hlv as [Hmono HSk].
  destruct (negb (length Sk =? 0)%nat).
  - apply IH; cbn [Opt.levels Opt.intersections].
    + lia.
    + rewrite length_app. cbn [length]. lia.
    + split; cbn [Opt.levels Opt.intersections].
      * intros s. rewrite app_nth1 by lia. apply H1.
      * intros j s Hj.
        destruct (Nat.lt_ge_cases j (length (Opt.levels st))) as [Hlt | Hge].
        -- rewrite app_nth1 by exact Hlt. intros Hin.
           apply Hmono, (H2 j); assumption.
        -- rewrite app_nth2 by exact Hge.
           destruct (j - length (Opt.levels st))%nat as [| [| n]];
             cbn [nth]; try (intros []). apply HSk.
  - split; cbn [Opt.levels Opt.intersections]; [exact H1 |].
    intros j s Hj Hin. apply Hmono, (H2 j); assumption.
Qed.

Lemma sim1_pairs (positions : list point) (radius : list R) :
  match sim1 positions radius with
  | Ok acc => forall s, In s (snd acc) -> length s = 2%nat
  | Raise _ => True
  end.
Proof.
  unfold sim1.
  apply (foldM_inv
           (fun acc : list (list nat) * level =>
              forall s, In s (snd acc) -> length s = 2%nat)
           (fun _ => True)).
  - intros s [].
  - intros acc i _ Hacc.
    apply (foldM_inv
             (fun acc : list (list nat) * level =>
                forall s, In s (snd acc) -> length s = 2%nat)
             (fun _ => True)); [exact Hacc |].
    intros [nb S1] j _ HS1. unfold sim1_step.
    destruct (intersects positions radius i j) as [[|] | e]; cbn [bind];
      [| exact HS1 | exact I].
    destruct (neighbor_add nb i j) as [nb1 | e]; cbn [bind];
      [| exact I].
    destruct (neighbor_add nb1 j i) as [nb2 | e]; cbn [bind];
      [| exact I].
    cbn [snd] in *. intros s Hin. apply in_app_or in Hin.
    destruct Hin as [Hin | [<- | []]]; [now apply HS1 | reflexivity].
Qed.

(** C10. No run of the construction with witness caching raises [KeyError]:
    whenever [verify] looks up [self.intersections[frozenset(pre_set)]], the
    entry is there, since every simplex of dimension 2 or more kept in a
    level was stored in the memo table when it was verified. *)
Theorem memo_lookup_never_fails :
  forall (positions : list point) (radius : list R) (maxK : option Z)
         (fuel : nat),
    Opt.run positions radius maxK fuel <> Some (Raise KeyError) /\
    Opt.cech positions radius maxK fuel <> Some (Raise KeyError) /\
    (forall st,
        Opt.run positions radius maxK fuel = Some (Ok st) ->
        forall j s, (2 <= j)%nat -> In s (nth j (Opt.levels st) []) ->
                    dict_mem (Opt.intersections st) (frozenset s) = true).
Proof.
  intros positions radius maxK fuel.
  assert (Hrun : match Opt.run positions radius maxK fuel with
                 | None => True
                 | Some (Ok st') => memo_inv st'
                 | Some (Raise e) => e <> KeyError
                 end).
  { unfold Opt.run.
    pose proof (keyless_sim1 positions radius) as Hk.
    pose proof (sim1_pairs positions radius) as Hp.
    destruct (sim1 positions radius) as [[nb S1] | e]; [| exact Hk].
    apply simk_loop_memo; [lia | reflexivity |].
    split; cbn [Opt.levels Opt.intersections nth].
    - exact Hp.
    - intros j s Hj. destruct j as [| [| [| j]]]; try lia; intros []. }
  split; [| split].
  - intros E. rewrite E in Hrun. now apply Hrun.
  - unfold Opt.cech. intros E.
    destruct (Opt.run positions radius maxK fuel) as [[st | e] |];
      try discriminate.
    injection E as ->. now apply Hrun.
  - intros st E. rewrite E in Hrun. apply Hrun.
Qed.


(** ** The exhaustive fallback of the two verifiers *)

Lemma bind_Ok {A B : Type} (m : res A) (f : A -> res B) (b : B) :
  bind m f = Ok b -> exists a, m = Ok a /\ f a = Ok b.
Proof. destruct m as [a | e]; cbn [bind]; [eauto | discriminate]. Qed.

Lemma in_combine_seq {A : Type} (l : list A) (k : nat) (c : A) :
  forall start,
    In (k, c) (combine (seq start (length l)) l) <->
    (start <= k)%nat /\ nth_error l (k - start) = Some c.
Proof.
  induction l as [| a l IH]; intros start; cbn [length seq combine In].
  - split; [intros [] | intros [_ H]]. now destruct (k - start)%nat.
  - rewrite IH. split.
    + intros [[= <- <-] | [Hle Hn]].
      * rewrite Nat.sub_diag. split; [lia | reflexivity].
      * split; [lia |].
        replace (k - start)%nat with (S (k - S start)) by lia. exact Hn.
    + intros [Hle Hn]. destruct (Nat.eq_dec k start) as [-> | Hne].
      * rewrite Nat.sub_diag in Hn. cbn in Hn. left. congruence.
      * right. split; [lia |].
        replace (k - start)%nat with (S (k - S start)) in Hn by lia.
        exact Hn.
Qed.

Lemma all_intersections_spec (positions : list point) (radius : list R)
    (cells : simplex) (inter : list (point * nat * nat)) :
  LE.all_intersections positions radius cells = Ok inter ->
  forall p i j,
    In (p, i, j) inter <->
    In (i, j) (pairs cells) /\
    exists x, intersection positions radius i j = Ok x /\ In p x.
Proof.
  unfold LE.all_intersections.
  assert (H : forall ps acc inter,
             foldM (fun inter '(i, j) =>
                      x <- intersection positions radius i j ;;
                      Ok (inter ++ map (fun p => (p, i, j)) x)) ps acc
             = Ok inter ->
             forall p i j,
               In (p, i, j) inter <->
               In (p, i, j) acc \/
               (In (i, j) ps /\
                exists x, intersection positions radius i j = Ok x /\ In p x)).
  { induction ps as [| [i0 j0] ps IH]; intros acc inter0; cbn [foldM].
    - intros [= <-] p i j. split; [auto | intros [H | [[] _]]; exact H].
    - intros Hf. apply bind_Ok in Hf. destruct Hf as (acc' & Hstep & Hf).
      apply bind_Ok in Hstep. destruct Hstep as (x0 & Hx0 & [= <-]).
      intros p i j. rewrite (IH _ _ Hf p i j), in_app_iff, in_map_iff.
      cbn [In]. split.
      + intros [[H | (p' & [= <- <- <-] & Hp')] | (Hin & x & Hx & Hp)]; eauto 8.
      + intros [H | ([[= <- <-] | Hin] & x & Hx & Hp)]; eauto 8.
        left. right. exists p. split; [reflexivity | congruence]. }
  intros Hf p i j. rewrite (H _ _ _ Hf p i j). cbn [In]. tauto.
Qed.

Lemma check_point_Some (positions : list point) (radius : list R)
    (cells : simplex) (p p' : point) (i j : nat) :
  LE.check_point positions radius cells (p, i, j) = Ok (Some p') ->
  p' = p /\
  forall c, In c cells -> c <> i -> c <> j ->
            isPointInsideCell positions radius p c = Ok true.
Proof.
  unfold LE.check_point, inside_others. intros H.
  apply bind_Ok in H. destruct H as ([|] & Hall & [= <-]).
  split; [reflexivity |]. intros c Hin Hi Hj.
  rewrite allM_true in Hall. specialize (Hall c Hin). cbn beta in Hall.
  destruct (Nat.eqb_spec c i); [contradiction |].
  destruct (Nat.eqb_spec c j); [contradiction |]. exact Hall.
Qed.

Lemma check_point_None (positions : list point) (radius : list R)
    (cells : simplex) (p : point) (i j : nat) :
  LE.check_point positions radius cells (p, i, j) = Ok None ->
  exists c, In c cells /\ c <> i /\ c <> j /\
            isPointInsideCell positions radius p c = Ok false.
Proof.
  unfold LE.check_point, inside_others. intros H.
  apply bind_Ok in H. destruct H as ([|] & Hall & [=]).
  apply allM_false in Hall. destruct Hall as (l1 & c & l2 & -> & Hc & _).
  cbn beta in Hc. exists c. split; [apply in_elt |].
  destruct (Nat.eqb_spec c i); [discriminate |].
  destruct (Nat.eqb_spec c j); [discriminate |]. auto.
Qed.

Lemma fallback_LE_spec (positions : list point) (radius : list R)
    (cells : simplex) (b : bool) :
  LE.fallback positions radius cells = Ok b ->
  (b = true <->
   exists i j x p,
     In (i, j) (pairs cells) /\
     intersection positions radius i j = Ok x /\ In p x /\
     forall c, In c cells -> c <> i -> c <> j ->
               isPointInsideCell positions radius p c = Ok true).
Proof.
  unfold LE.fallback. intros H.
  apply bind_Ok in H. destruct H as (inter & Hinter & H).
  apply bind_Ok in H. destruct H as (r & Hr & [= <-]).
  pose proof (all_intersections_spec _ _ _ _ Hinter) as Hspec.
  destruct r as [p' |]; split; try discriminate; try reflexivity.
  - intros _. apply firstM_Some in Hr.
    destruct Hr as (l1 & [[p i] j] & l2 & -> & Hc & _).
    apply check_point_Some in Hc. destruct Hc as [-> Hc].
    destruct (proj1 (Hspec p i j) (in_elt _ _ _)) as (Hin & x & Hx & Hp).
    exists i, j, x, p. auto.
  - intros (i & j & x & p & Hin & Hx & Hp & Hall). exfalso.
    rewrite firstM_None in Hr.
    assert (Hpin : In (p, i, j) inter) by (apply Hspec; eauto).
    apply Hr, check_point_None in Hpin.
    destruct Hpin as (c & Hc & Hi & Hj & Hfalse).
    rewrite (Hall c Hc Hi Hj) in Hfalse. discriminate.
Qed.

Lemma fallback_pair_Some (positions : list point) (radius : list R)
    (cells : simplex) (i j : nat) (p : point) :
  Opt.fallback_pair positions radius cells i j = Ok (Some p) ->
  exists ci cj x,
    index cells i = Ok ci /\ index cells j = Ok cj /\
    intersection positions radius ci cj = Ok x /\ In p x /\
    forall k c, nth_error cells k = Some c -> k <> i -> k <> j ->
                isPointInsideCell positions radius p c = Ok true.
Proof.
  unfold Opt.fallback_pair. intros H.
  apply bind_Ok in H. destruct H as (ci & Hci & H).
  apply bind_Ok in H. destruct H as (cj & Hcj & H).
  apply bind_Ok in H. destruct H as (x & Hx & H).
  apply firstM_Some in H. destruct H as (l1 & p0 & l2 & -> & Hp0 & _).
  apply bind_Ok in Hp0. destruct Hp0 as ([|] & Hall & [= ->]).
  exists ci, cj, (l1 ++ p :: l2).
  repeat (split; [assumption || apply in_elt |]).
  intros k c Hk Hi Hj. unfold inside_others in Hall.
  rewrite allM_true in Hall. specialize (Hall (k, c)).
  cbn [fst snd] in Hall.
  destruct (Nat.eqb_spec k i); [contradiction |].
  destruct (Nat.eqb_spec k j); [contradiction |].
  apply Hall, in_combine_seq. rewrite Nat.sub_0_r. split; [lia | exact Hk].
Qed.

Lemma fallback_pair_None (positions : list point) (radius : list R)
    (cells : simplex) (i j ci cj : nat) (x : list point) (p : point) :
  Opt.fallback_pair positions radius cells i j = Ok None ->
  index cells i = Ok ci -> index cells j = Ok cj ->
  intersection positions radius ci cj = Ok x -> In p x ->
  exists k c, nth_error cells k = Some c /\ k <> i /\ k <> j /\
              isPointInsideCell positions radius p c = Ok false.
Proof.
  unfold Opt.fallback_pair. intros H Hci Hcj Hx Hp.
  rewrite Hci, Hcj in H. cbn [bind] in H. rewrite Hx in H. cbn [bind] in H.
  rewrite firstM_None in H. specialize (H p Hp).
  apply bind_Ok in H. destruct H as ([|] & Hall & [=]).
  unfold inside_others in Hall. apply allM_false in Hall.
  destruct Hall as (l1 & [k c] & l2 & Hl & Hc & _). cbn [fst snd] in Hc.
  assert (Hin : In (k, c) (combine (seq 0 (length cells)) cells)).
  { rewrite Hl. apply in_elt. }
  apply in_combine_seq in Hin. rewrite Nat.sub_0_r in Hin.
  exists k, c. split; [apply Hin |].
  destruct (Nat.eqb_spec k i); [discriminate |].
  destruct (Nat.eqb_spec k j); [discriminate |]. auto.
Qed.

(** Four discs: two of radius 5 centred at [(-3, 0)] and [(3, 0)], and two
    of radii 10 and 20 centred at [(0, 0)]. *)
Definition positions_D : list point := [(-3, 0); (3, 0); (0, 0); (0, 0)].
Definition radius_D : list R := [5; 5; 10; 20].

Ltac rsqrt_D := first [rsqrt 0 | rsqrt 6 | rsqrt 4 | rsqrt 3].
Ltac reval_D :=
  repeat (progress (try unf; ev; rbool; try rsqrt_D; try rdiv)).

Lemma intersection_D_01 :
  intersection positions_D radius_D 0 1 = Ok [(0, -4); (0, 4)].
Proof. unfold intersection. reval_D. repeat f_equal; lra. Qed.

Lemma fallback_LE_D :
  LE.fallback positions_D radius_D [0; 1; 2; 3]%nat = Ok true.
Proof.
  unfold LE.fallback, LE.all_intersections. reval_D.
  unfold LE.check_point, inside_others. reval_D. reflexivity.
Qed.

(** X23.  When the shortcuts do not decide, [CechComplex.verify]
    returns what its last loop finds, and that loop examines the pairs made
    of the last cell and each earlier one: it accepts with a point [p] only
    if [p] is an intersection point of such a pair lying in the disc of
    every other cell, and it fails only if no intersection point of such a
    pair lies in all the other discs.  The fallback of [CechComplexLE.verify]
    examines every pair of cells: it accepts exactly when some pair yields a
    point lying in the disc of every other cell. *)
Theorem fallback_examines_pairs_with_the_last_cell :
  forall (positions : list point) (radius : list R) (cells : simplex),
    (forall inters smallest new_cand,
        smallest_of radius cells = Ok smallest ->
        inside_of positions radius cells smallest = Ok false ->
        index cells (length cells - 1) = Ok new_cand ->
        Opt.reuse_shortcut positions radius inters cells new_cand = Ok None ->
        Opt.verify positions radius inters cells =
          Opt.fallback positions radius cells) /\
    (forall r,
        Opt.fallback positions radius cells = Ok r ->
        let i := (length cells - 1)%nat in
        (forall p, r = Some p ->
           exists j ci cj x,
             (j < i)%nat /\ index cells i = Ok ci /\ index cells j = Ok cj /\
             intersection positions radius ci cj = Ok x /\ In p x /\
             forall k c, nth_error cells k = Some c -> k <> i -> k <> j ->
                         isPointInsideCell positions radius p c = Ok true) /\
        (r = None ->
         forall j ci cj x p,
           (j < i)%nat -> index cells i = Ok ci -> index cells j = Ok cj ->
           intersection positions radius ci cj = Ok x -> In p x ->
           exists k c, nth_error cells k = Some c /\ k <> i /\ k <> j /\
                       isPointInsideCell positions radius p c = Ok false)) /\
    (forall b,
        LE.fallback positions radius cells = Ok b ->
        (b = true <->
         exists i j x p,
           In (i, j) (pairs cells) /\
           intersection positions radius i j = Ok x /\ In p x /\
           forall c, In c cells -> c <> i -> c <> j ->
                     isPointInsideCell positions radius p c = Ok true)).
Proof.
  intros positions radius cells. split; [| split].
  - intros inters smallest new_cand Hsm Hin Hnc Hsc.
    unfold Opt.verify. rewrite Hsm. cbn [bind]. rewrite Hin. cbn [bind].
    rewrite Hnc. cbn [bind]. rewrite Hsc. reflexivity.
  - intros r Hr i. unfold Opt.fallback in Hr. fold i in Hr. split.
    + intros p ->. apply firstM_Some in Hr.
      destruct Hr as (l1 & j & l2 & Hl & Hj & _).
      apply fallback_pair_Some in Hj.
      destruct Hj as (ci & cj & x & Hci & Hcj & Hx & Hp & Hall).
      exists j, ci, cj, x. repeat (split; [assumption |]).
      split; [| auto].
      assert (Hjin : In j (seq 0 i)) by (rewrite Hl; apply in_elt).
      apply in_seq in Hjin. lia.
    + intros ->. intros j ci cj x p Hj Hci Hcj Hx Hp.
      rewrite firstM_None in Hr.
      apply (fallback_pair_None positions radius cells i j ci cj x p);
        try assumption.
      apply Hr, in_seq. lia.
  - intros b. apply fallback_LE_spec.
Qed.

Lemma fallback_D_201 :
  Opt.fallback positions_D radius_D [2; 0; 1]%nat = Ok (Some (0, 4)).
Proof.
  unfold Opt.fallback, Opt.fallback_pair. reval_D.
  unfold inside_others. reval_D. repeat f_equal; lra.
Qed.

Lemma fallback_examines_pairs_with_the_last_cell_witness :
  (exists j ci cj x,
      (j < 2)%nat /\ index [2; 0; 1]%nat 2 = Ok ci /\
      index [2; 0; 1]%nat j = Ok cj /\
      intersection positions_D radius_D ci cj = Ok x /\ In (0, 4) x /\
      forall k c, nth_error [2; 0; 1]%nat k = Some c -> k <> 2%nat -> k <> j ->
                  isPointInsideCell positions_D radius_D (0, 4) c = Ok true) /\
  (true = true <->
   exists i j x p,
     In (i, j) (pairs [0; 1; 2; 3]%nat) /\
     intersection positions_D radius_D i j = Ok x /\ In p x /\
     forall c, In c [0; 1; 2; 3]%nat -> c <> i -> c <> j ->
               isPointInsideCell positions_D radius_D p c = Ok true).
Proof.
  split.
  - exact (proj1 (proj1 (proj2 (fallback_examines_pairs_with_the_last_cell
                                  positions_D radius_D [2; 0; 1]%nat))
                    (Some (0, 4)) fallback_D_201) (0, 4) eq_refl).
  - exact (proj2 (proj2 (fallback_examines_pairs_with_the_last_cell
                           positions_D radius_D [0; 1; 2; 3]%nat))
             true fallback_LE_D).
Defined.


(** ** The primitives on indices in range

    From here on the cells are indices below [N], and [radius] has an entry
    for each of them; no test is made on the radii themselves. *)

Lemma index_nth_Ok {A : Type} (l : list A) (i : nat) (d : A) :
  (i < length l)%nat -> index l i = Ok (nth i l d).
Proof.
  intros H. unfold index.
  destruct (nth_error l i) eqn:E.
  - f_equal. symmetry. now apply nth_error_nth.
  - apply nth_error_None in E. lia.
Qed.

Lemma foldM_ext_in {A St : Type} (f g : St -> A -> res St) (l : list A)
    (s : St) :
  (forall s a, In a l -> f s a = g s a) -> foldM f l s = foldM g l s.
Proof.
  revert s. induction l as [| a l IH]; intros s H; cbn [foldM]; [reflexivity |].
  rewrite (H s a (or_introl eq_refl)).
  destruct (g s a) as [s' | e]; cbn [bind]; [| reflexivity].
  apply IH. intros s0 a0 Hin. apply H. now right.
Qed.

Lemma foldM_pure {A St : Type} (g : St -> A -> St) (l : list A) (s : St) :
  foldM (fun s a => Ok (g s a)) l s = Ok (fold_left g l s).
Proof.
  revert s. induction l as [| a l IH]; intros s; cbn [foldM fold_left bind];
    [reflexivity | apply IH].
Qed.

Lemma allM_ext_in {A : Type} (f g : A -> res bool) (l : list A) :
  (forall a, In a l -> f a = g a) -> allM f l = allM g l.
Proof.
  induction l as [| a l IH]; intros H; cbn [allM]; [reflexivity |].
  rewrite (H a (or_introl eq_refl)).
  destruct (g a) as [[|] | e]; cbn [bind]; try reflexivity.
  apply IH. intros a0 Hin. apply H. now right.
Qed.

Lemma allM_pure {A : Type} (g : A -> bool) (l : list A) :
  allM (fun a => Ok (g a)) l = Ok (forallb g l).
Proof.
  induction l as [| a l IH]; cbn [allM forallb bind]; [reflexivity |].
  destruct (g a); [exact IH | reflexivity].
Qed.

Lemma firstM_ext_in {A B : Type} (f g : A -> res (option B)) (l : list A) :
  (forall a, In a l -> f a = g a) -> firstM f l = firstM g l.
Proof.
  induction l as [| a l IH]; intros H; cbn [firstM]; [reflexivity |].
  rewrite (H a (or_introl eq_refl)).
  destruct (g a) as [[b |] | e]; cbn [bind]; try reflexivity.
  apply IH. intros a0 Hin. apply H. now right.
Qed.

(** The first element of [l] on which [g] gives a result. *)
Fixpoint first_some {A B : Type} (g : A -> option B) (l : list A)
  : option B :=
  match l with
  | [] => None
  | a :: l' => match g a with Some b => Some b | None => first_some g l' end
  end.

Lemma firstM_pure {A B : Type} (g : A -> option B) (l : list A) :
  firstM (fun a => Ok (g a)) l = Ok (first_some g l).
Proof.
  induction l as [| a l IH]; cbn [firstM first_some bind]; [reflexivity |].
  destruct (g a); [reflexivity | exact IH].
Qed.

Lemma first_some_Some {A B : Type} (g : A -> option B) (l : list A) (b : B) :
  first_some g l = Some b -> exists a, In a l /\ g a = Some b.
Proof.
  induction l as [| a l IH]; cbn [first_some]; [discriminate |].
  destruct (g a) eqn:E.
  - intros [= ->]. exists a. split; [now left | exact E].
  - intros H. destruct (IH H) as (a0 & Hin & Ha0). exists a0. split; auto.
    now right.
Qed.

Lemma first_some_None {A B : Type} (g : A -> option B) (l : list A) :
  first_some g l = None <-> forall a, In a l -> g a = None.
Proof.
  induction l as [| a l IH]; cbn [first_some].
  - split; [intros _ a [] | reflexivity].
  - destruct (g a) eqn:E.
    + split; [discriminate |]. intros H.
      specialize (H a (or_introl eq_refl)). congruence.
    + rewrite IH. split.
      * intros H a' [<- | Hin]; [exact E | now apply H].
      * intros H a' Hin. apply H. now right.
Qed.

Section Cells.

Variable positions : list point.
Variable radius : list R.
Hypothesis radius_long : (length positions <= length radius)%nat.

(** The centre and the radius of cell [i]. *)
Definition px (i : nat) : R := fst (nth i positions (0, 0)).
Definition py (i : nat) : R := snd (nth i positions (0, 0)).
Definition rad (i : nat) : R := nth i radius 0.

(** The distance of the centres of [i] and [j]. *)
Definition cdist (i j : nat) : R :=
  sqrt ((px i - px j) ^ 2 + (py i - py j) ^ 2).

(** The point [p] lies in the closed disc [c], as [isPointInsideCell]
    tests it. *)
Definition in_cell (p : point) (c : nat) : bool :=
  Rleb ((px c - fst p) ^ 2 + (py c - snd p) ^ 2) (rad c ^ 2).

(** The list returned by [intersection(i, j)]. *)
Definition ipoints (i j : nat) : list point :=
  match get_intersections (px i) (py i) (rad i) (px j) (py j) (rad j) with
  | Ok l => l
  | Raise _ => []
  end.

Lemma index_positions (i : nat) :
  (i < N positions)%nat -> index positions i = Ok (px i, py i).
Proof.
  intros H. rewrite (index_nth_Ok positions i (0, 0) H).
  unfold px, py. now destruct (nth i positions (0, 0)).
Qed.

Lemma index_radius (i : nat) :
  (i < N positions)%nat -> index radius i = Ok (rad i).
Proof. intros H. apply index_nth_Ok. unfold N in H. lia. Qed.


Lemma isCellInsideCell_eq (i j : nat) :
  (i < N positions)%nat -> (j < N positions)%nat ->
  isCellInsideCell positions radius i j =
    Ok (Rleb (cdist i j) (Rabs (rad i - rad j))).
Proof.
  intros Hi Hj.
  apply (isCellInsideCell_Ok positions radius i j _ _ _ _ _ _
           (index_positions i Hi) (index_positions j Hj)
           (index_radius i Hi) (index_radius j Hj)).
Qed.

Lemma isPointInsideCell_eq (p : point) (c : nat) :
  (c < N positions)%nat ->
  isPointInsideCell positions radius p c = Ok (in_cell p c).
Proof.
  intros Hc.
  apply (isPointInsideCell_Ok positions radius p c _ _ _
           (index_positions c Hc) (index_radius c Hc)).
Qed.

Lemma intersects_eq (i j : nat) :
  (i < N positions)%nat -> (j < N positions)%nat ->
  intersects positions radius i j = Ok (Rleb (cdist i j) (rad i + rad j)).
Proof.
  intros Hi Hj.
  apply (intersects_Ok positions radius i j _ _ _ _ _ _
           (index_positions i Hi) (index_positions j Hj)
           (index_radius i Hi) (index_radius j Hj)).
Qed.

Lemma intersection_eq (i j : nat) :
  (i < N positions)%nat -> (j < N positions)%nat ->
  intersection positions radius i j = Ok (ipoints i j).
Proof.
  intros Hi Hj.
  rewrite (intersection_Ok positions radius i j _ _ _ _ _ _
             (index_positions i Hi) (index_positions j Hj)
             (index_radius i Hi) (index_radius j Hj)).
  unfold ipoints.
  destruct (get_intersections_total (px i) (py i) (rad i)
              (px j) (py j) (rad j)) as [l ->].
  reflexivity.
Qed.

End Cells.


(** ** The neighbor graph built by [sim1] *)

Lemma set_add_In (x y : nat) (s : list nat) :
  In x (set_add y s) <-> x = y \/ In x s.
Proof.
  induction s as [| z s IH]; cbn [set_add In]; [intuition congruence |].
  destruct (Nat.ltb_spec y z); cbn [In]; [intuition congruence |].
  destruct (Nat.eqb_spec y z); cbn [In]; [subst; intuition congruence |].
  rewrite IH. intuition congruence.
Qed.

Lemma set_add_sorted (y : nat) (s : list nat) :
  StronglySorted lt s -> StronglySorted lt (set_add y s).
Proof.
  induction s as [| z s IH]; intros Hs; cbn [set_add].
  - repeat constructor.
  - inversion Hs as [| ? ? Hs' Hz]; subst.
    destruct (Nat.ltb_spec y z).
    + constructor; [exact Hs |]. constructor; [exact H |].
      rewrite Forall_forall in *. intros x Hx. specialize (Hz x Hx). lia.
    + destruct (Nat.eqb_spec y z); [exact Hs |].
      constructor; [now apply IH |].
      rewrite Forall_forall in *. intros x Hx. apply set_add_In in Hx.
      destruct Hx as [-> | Hx]; [lia | now apply Hz].
Qed.

Lemma list_set_length {A : Type} (l : list A) (i : nat) (v : A) :
  length (list_set l i v) = length l.
Proof.
  revert i. induction l as [| a l IH]; intros [| i]; cbn [list_set length];
    try reflexivity. now rewrite IH.
Qed.

Lemma list_set_nth {A : Type} (l : list A) (i a : nat) (v d : A) :
  (i < length l)%nat ->
  nth a (list_set l i v) d = if (a =? i)%nat then v else nth a l d.
Proof.
  revert i a. induction l as [| x l IH]; intros i a Hi; cbn [length] in Hi;
    [lia |].
  destruct i as [| i], a as [| a]; cbn [list_set nth Nat.eqb]; try reflexivity.
  apply IH. lia.
Qed.

Lemma cdist_sym (positions : list point) (i j : nat) :
  cdist positions i j = cdist positions j i.
Proof. unfold cdist. f_equal. ring. Qed.

Section Sim1.

Variable positions : list point.
Variable radius : list R.
Hypothesis radius_long : (length positions <= length radius)%nat.

(** The closed discs [a] and [b] are no further apart than the sum of their
    radii: the test of [intersects]. *)
Definition adj (a b : nat) : Prop :=
  cdist positions a b <= rad radius a + rad radius b.

Lemma adj_sym (a b : nat) : adj a b -> adj b a.
Proof. unfold adj. rewrite (cdist_sym positions a b). lra. Qed.

(** The state of [sim1] once the pairs in [done] have been treated. *)
Definition sim1_inv (done : nat -> nat -> Prop)
    (acc : list (list nat) * level) : Prop :=
  length (fst acc) = N positions /\
  (forall a, StronglySorted lt (nth a (fst acc) [])) /\
  (forall a b, In b (nth a (fst acc) []) <->
               (a < N positions)%nat /\ (b < N positions)%nat /\
               adj a b /\ (done a b \/ done b a)) /\
  (forall s, In s (snd acc) <->
             exists i j, s = [i; j] /\ done i j /\ adj i j).

Lemma sim1_step_inv (done : nat -> nat -> Prop) (i j : nat)
    (acc : list (list nat) * level) :
  (i < j < N positions)%nat -> sim1_inv done acc ->
  exists acc',
    sim1_step positions radius i acc j = Ok acc' /\
    sim1_inv (fun a b => done a b \/ (a = i /\ b = j)) acc'.
Proof.
  intros Hij (Hlen & Hsort & Hnb & HS1). destruct acc as [nb S1].
  cbn [fst snd] in *. unfold sim1_step.
  rewrite (intersects_eq positions radius radius_long i j) by lia.
  cbn [bind].
  destruct (Rleb (cdist positions i j) (rad radius i + rad radius j)) eqn:E.
  - apply Rleb_true_iff in E. fold (adj i j) in E.
    unfold neighbor_add.
    rewrite (index_nth_Ok nb i []) by lia. cbn [bind].
    rewrite (index_nth_Ok _ j []) by (rewrite list_set_length; lia).
    cbn [bind]. eexists. split; [reflexivity |].
    assert (Hnth : forall a,
               nth a (list_set (list_set nb i (set_add j (nth i nb [])))
                        j (set_add i (nth j
                                        (list_set nb i
                                           (set_add j (nth i nb []))) [])))
                 []
               = if (a =? j)%nat then set_add i (nth j nb [])
                 else if (a =? i)%nat then set_add j (nth i nb [])
                      else nth a nb []).
    { intros a. rewrite list_set_nth by (rewrite list_set_length; lia).
      rewrite !list_set_nth by lia.
      destruct (Nat.eqb_spec a j) as [-> | Haj]; [| reflexivity].
      destruct (Nat.eqb_spec j i); [lia | reflexivity]. }
    assert (Eji : adj j i) by now apply adj_sym.
    unfold sim1_inv. cbn [fst snd].
    split; [now rewrite !list_set_length |].
    split; [| split].
    + intros a. rewrite Hnth.
      destruct (a =? j)%nat; [apply set_add_sorted, Hsort |].
      destruct (a =? i)%nat; [apply set_add_sorted, Hsort | apply Hsort].
    + intros a b. rewrite Hnth.
      destruct (Nat.eqb_spec a j) as [-> | Haj];
        [| destruct (Nat.eqb_spec a i) as [-> | Hai]];
        rewrite ?set_add_In, Hnb;
        intuition (subst; auto; try lia).
    + intros s. rewrite in_app_iff, HS1. cbn [In]. split.
      * intros [(i0 & j0 & -> & Hd & Hadj) | [<- | []]].
        -- exists i0, j0. auto.
        -- exists i, j. auto.
      * intros (i0 & j0 & -> & [Hd | [-> ->]] & Hadj).
        -- left. exists i0, j0. auto.
        -- right. now left.
  - apply Rleb_false_iff in E.
    assert (Eij : ~ adj i j) by (unfold adj; lra).
    assert (Eji : ~ adj j i) by (intros H; apply adj_sym in H; contradiction).
    eexists. split; [reflexivity |].
    unfold sim1_inv. cbn [fst snd].
    split; [assumption |]. split; [assumption |]. split.
    + intros a b. rewrite Hnb. intuition (subst; auto; try contradiction).
    + intros s. rewrite HS1. split.
      * intros (i0 & j0 & -> & Hd & Hadj). exists i0, j0. auto.
      * intros (i0 & j0 & -> & [Hd | [-> ->]] & Hadj);
          [exists i0, j0; auto | contradiction].
Qed.

Lemma sim1_inv_ext (done done' : nat -> nat -> Prop)
    (acc : list (list nat) * level) :
  (forall a b, done a b <-> done' a b) -> sim1_inv done acc ->
  sim1_inv done' acc.
Proof.
  intros Hext (Hlen & Hsort & Hnb & HS1). unfold sim1_inv.
  split; [assumption |]. split; [assumption |]. split.
  - intros a b. rewrite Hnb, (Hext a b), (Hext b a). tauto.
  - intros s. rewrite HS1. split; intros (i & j & Hs & Hd & Hadj);
      exists i, j; (split; [assumption |]); (split; [| assumption]);
      now apply Hext.
Qed.

Lemma sim1_inner_inv (i : nat) :
  forall js done acc,
    (forall j, In j js -> (i < j < N positions)%nat) -> sim1_inv done acc ->
    exists acc',
      foldM (sim1_step positions radius i) js acc = Ok acc' /\
      sim1_inv (fun a b => done a b \/ (a = i /\ In b js)) acc'.
Proof.
  induction js as [| j js IH]; intros done acc Hjs Hinv; cbn [foldM].
  - exists acc. split; [reflexivity |].
    apply (sim1_inv_ext done); [| exact Hinv]. cbn [In]. tauto.
  - destruct (sim1_step_inv done i j acc (Hjs j (or_introl eq_refl)) Hinv)
      as (acc1 & -> & Hinv1).
    cbn [bind].
    destruct (IH _ acc1 (fun j' H => Hjs j' (or_intror H)) Hinv1)
      as (acc' & -> & Hinv').
    exists acc'. split; [reflexivity |].
    revert Hinv'. apply sim1_inv_ext. intros a b. cbn [In].
    intuition congruence.
Qed.

Lemma sim1_outer_inv :
  forall rows done acc,
    (forall i, In i rows -> (i < N positions)%nat) -> sim1_inv done acc ->
    exists acc',
      foldM (fun acc i =>
               foldM (sim1_step positions radius i)
                 (seq (i + 1) (N positions - (i + 1))) acc) rows acc = Ok acc' /\
      sim1_inv (fun a b => done a b \/ (In a rows /\ (a < b < N positions)%nat))
        acc'.
Proof.
  induction rows as [| i rows IH]; intros done acc His Hinv; cbn [foldM].
  - exists acc. split; [reflexivity |].
    apply (sim1_inv_ext done); [| exact Hinv]. cbn [In]. tauto.
  - destruct (sim1_inner_inv i (seq (i + 1) (N positions - (i + 1))) done acc)
      as (acc1 & -> & Hinv1); [| exact Hinv |].
    { intros j Hj. apply in_seq in Hj. lia. }
    cbn [bind].
    destruct (IH _ acc1 (fun i' H => His i' (or_intror H)) Hinv1)
      as (acc' & -> & Hinv').
    exists acc'. split; [reflexivity |].
    revert Hinv'. apply sim1_inv_ext. intros a b. cbn [In].
    rewrite in_seq. split.
    + intros [[H | [-> H]] | [H1 H2]]; auto.
      right. split; [now left | lia].
    + intros [H | [[<- | H1] H2]]; auto.
      left. right. split; [reflexivity | lia].
Qed.

(** [sim1] returns, for every cell, the increasing list of the cells that
    meet it, and the list of the pairs [[i, j]], [i < j], of cells that
    meet. *)
Lemma sim1_spec :
  exists nb S1,
    sim1 positions radius = Ok (nb, S1) /\
    length nb = N positions /\
    (forall a, StronglySorted lt (nth a nb [])) /\
    (forall a b, In b (nth a nb []) <->
                 (a < N positions)%nat /\ (b < N positions)%nat /\
                 a <> b /\ adj a b) /\
    (forall s, In s S1 <->
               exists i j, s = [i; j] /\ (i < j < N positions)%nat /\
                           adj i j).
Proof.
  destruct (sim1_outer_inv (seq 0 (N positions)) (fun _ _ => False)
              (repeat [] (N positions), [])) as ([nb S1] & Hrun & Hinv).
  - intros i Hi. apply in_seq in Hi. lia.
  - unfold sim1_inv. cbn [fst snd].
    assert (Hnth : forall a, nth a (repeat (@nil nat) (N positions)) [] = []).
    { intros a. destruct (Nat.lt_ge_cases a (N positions)).
      - now apply nth_repeat_lt.
      - apply nth_overflow. rewrite repeat_length. lia. }
    split; [apply repeat_length |]. split; [| split].
    + intros a. rewrite Hnth. constructor.
    + intros a b. rewrite Hnth. cbn [In]. tauto.
    + intros s. cbn [In]. split; [intros [] | intros (? & ? & _ & [] & _)].
  - exists nb, S1. split; [exact Hrun |].
    destruct Hinv as (Hlen & Hsort & Hnb & HS1). cbn [fst snd] in *.
    split; [assumption |]. split; [assumption |]. split.
    + intros a b. rewrite Hnb, !in_seq. split.
      * intros (Ha & Hb & Hadj & [[[] | [_ H]] | [[] | [_ H]]]);
          repeat split; auto; lia.
      * intros (Ha & Hb & Hne & Hadj). repeat split; auto.
        destruct (Nat.lt_ge_cases a b).
        -- left. right. split; lia.
        -- right. right. split; lia.
    + intros s. rewrite HS1. split; intros (i & j & Hs & H1 & H2);
        exists i, j; (split; [assumption |]).
      * destruct H1 as [[] | [_ H1]]. auto.
      * destruct H1 as [H1 H3]. split; [| assumption].
        right. rewrite in_seq. split; lia.
Qed.

End Sim1.


(** ** The verifiers never raise on cells in range *)

(** A computation that returns. *)
Definition total {A : Type} (m : res A) : Prop :=
  only_raises (fun _ => False) m.

Lemma total_Ok {A : Type} (m : res A) : total m -> exists a, m = Ok a.
Proof. destruct m as [a | e]; cbn; [eauto | intros []]. Qed.

Lemma Ok_total {A : Type} (m : res A) (a : A) : m = Ok a -> total m.
Proof. intros ->. exact I. Qed.

Lemma index_In {A : Type} (l : list A) (i : nat) (a : A) :
  index l i = Ok a -> In a l.
Proof.
  unfold index. destruct (nth_error l i) eqn:E; [| discriminate].
  intros [= <-]. eapply nth_error_In, E.
Qed.

Lemma in_pairs (l : list nat) (i j : nat) :
  In (i, j) (pairs l) -> In i l /\ In j l.
Proof.
  induction l as [| x l IH]; cbn [pairs]; [intros [] |].
  rewrite in_app_iff, in_map_iff. cbn [In].
  intros [(y & [= <- <-] & Hy) | H]; [auto |].
  destruct (IH H). auto.
Qed.

Section Verify.

Variable positions : list point.
Variable radius : list R.
Hypothesis radius_long : (length positions <= length radius)%nat.

(** The cells of a candidate are indices of balls. *)
Definition in_range (cells : simplex) : Prop :=
  forall c, In c cells -> (c < N positions)%nat.

Lemma smallest_of_spec (cells : simplex) :
  cells <> [] -> in_range cells ->
  exists smallest,
    smallest_of radius cells = Ok smallest /\ In smallest cells /\
    forall c, In c cells -> rad radius smallest <= rad radius c.
Proof.
  intros Hne Hr. unfold smallest_of.
  destruct cells as [| c0 cells]; [contradiction |].
  change (index (c0 :: cells) 0) with (Ok c0). cbn [bind].
  assert (H : forall l s0,
             (s0 < N positions)%nat -> in_range l ->
             exists s,
               foldM (fun smallest c =>
                        rc <- index radius c ;;
                        rs <- index radius smallest ;;
                        Ok (if Rltb rc rs then c else smallest)) l s0 = Ok s /\
               (s = s0 \/ In s l) /\
               rad radius s <= rad radius s0 /\
               forall c, In c l -> rad radius s <= rad radius c).
  { induction l as [| c l IH]; intros s0 Hs0 Hl; cbn [foldM].
    - exists s0. split; [reflexivity |]. split; [now left |].
      split; [lra | intros c []].
    - rewrite (index_radius positions radius radius_long c)
        by (apply Hl; now left).
      cbn [bind].
      rewrite (index_radius positions radius radius_long s0 Hs0).
      cbn [bind].
      destruct (Rltb (rad radius c) (rad radius s0)) eqn:E.
      + apply Rltb_true_iff in E.
        destruct (IH c) as (s & -> & Hs & Hle & Hall).
        { apply Hl. now left. }
        { intros x Hx. apply Hl. now right. }
        exists s. split; [reflexivity |].
        split; [right; destruct Hs as [-> | Hs]; [now left | now right] |].
        split; [lra |].
        intros x [<- | Hx]; [exact Hle | now apply Hall].
      + apply Rltb_false_iff in E.
        destruct (IH s0 Hs0) as (s & -> & Hs & Hle & Hall).
        { intros x Hx. apply Hl. now right. }
        exists s. split; [reflexivity |].
        split; [destruct Hs as [-> | Hs]; [now left | right; now right] |].
        split; [lra |].
        intros x [<- | Hx]; [lra | now apply Hall]. }
  destruct (H (c0 :: cells) c0) as (s & -> & Hs & _ & Hall).
  - apply Hr. now left.
  - exact Hr.
  - exists s. split; [reflexivity |]. split; [| exact Hall].
    destruct Hs as [-> | Hs]; [now left | exact Hs].
Qed.

Lemma inside_of_spec (cells : simplex) (smallest : nat) :
  in_range cells -> (smallest < N positions)%nat ->
  exists b,
    inside_of positions radius cells smallest = Ok b /\
    (b = true <->
     forall c, In c cells -> c <> smallest ->
               cdist positions c smallest
               <= Rabs (rad radius c - rad radius smallest)).
Proof.
  intros Hr Hs. unfold inside_of.
  assert (H : forall l b0,
             in_range l ->
             exists b,
               foldM (fun inside c =>
                        if (c =? smallest)%nat then Ok inside
                        else
                          b <- isCellInsideCell positions radius c smallest ;;
                          Ok (if b then inside else false)) l b0 = Ok b /\
               (b = true <->
                b0 = true /\
                forall c, In c l -> c <> smallest ->
                          cdist positions c smallest
                          <= Rabs (rad radius c - rad radius smallest))).
  { induction l as [| c l IH]; intros b0 Hl; cbn [foldM].
    - exists b0. split; [reflexivity |]. split; [| tauto].
      intros ->. split; [reflexivity | intros c []].
    - assert (Hl' : in_range l) by (intros x Hx; apply Hl; now right).
      destruct (Nat.eqb_spec c smallest) as [-> | Hne]; cbn [bind].
      + destruct (IH b0 Hl') as (b & -> & Hb). exists b.
        split; [reflexivity |]. rewrite Hb. split.
        * intros [H1 H2]. split; [exact H1 |].
          intros x [<- | Hx] Hx'; [contradiction | now apply H2].
        * intros [H1 H2]. split; [exact H1 |].
          intros x Hx. apply H2. now right.
      + rewrite (isCellInsideCell_eq positions radius radius_long c smallest)
          by (first [assumption | apply Hl; now left]).
        cbn [bind].
        destruct (Rleb (cdist positions c smallest)
                    (Rabs (rad radius c - rad radius smallest))) eqn:E.
        * apply Rleb_true_iff in E.
          destruct (IH b0 Hl') as (b & -> & Hb). exists b.
          split; [reflexivity |]. rewrite Hb. split.
          -- intros [H1 H2]. split; [exact H1 |].
             intros x [<- | Hx] Hx'; [exact E | now apply H2].
          -- intros [H1 H2]. split; [exact H1 |].
             intros x Hx. apply H2. now right.
        * apply Rleb_false_iff in E.
          destruct (IH false Hl') as (b & -> & Hb). exists b.
          split; [reflexivity |]. rewrite Hb. split.
          -- intros [H1 _]. discriminate.
          -- intros [_ H2]. exfalso.
             specialize (H2 c (or_introl eq_refl) Hne). lra. }
  destruct (H cells true Hr) as (b & -> & Hb). exists b.
  split; [reflexivity |]. rewrite Hb. tauto.
Qed.

Lemma total_inside_others {A : Type} (skip : A -> bool) (cellid : A -> nat)
    (p : point) (cells : list A) :
  (forall c, In c cells -> (cellid c < N positions)%nat) ->
  total (inside_others positions radius skip cellid p cells).
Proof.
  intros Hr. unfold inside_others. apply only_allM. intros c Hc.
  destruct (skip c); [exact I |].
  rewrite (isPointInsideCell_eq positions radius radius_long p _ (Hr c Hc)).
  exact I.
Qed.

Lemma total_fallback_LE (cells : simplex) :
  in_range cells -> total (LE.fallback positions radius cells).
Proof.
  intros Hr. unfold LE.fallback, LE.all_intersections.
  apply only_bind.
  - apply only_foldM. intros inter [i j] Hin.
    apply in_pairs in Hin. destruct Hin as [Hi Hj].
    rewrite (intersection_eq positions radius radius_long i j)
      by (apply Hr; assumption).
    exact I.
  - intros inter _. apply only_bind; [| intros r _; exact I].
    apply only_firstM. intros [[p i] j] _. unfold LE.check_point.
    apply only_bind; [| intros b _; exact I].
    apply total_inside_others. exact Hr.
Qed.

Lemma total_fallback_Opt (cells : simplex) :
  in_range cells -> total (Opt.fallback positions radius cells).
Proof.
  intros Hr. unfold Opt.fallback. apply only_firstM. intros j Hj.
  apply in_seq in Hj. unfold Opt.fallback_pair.
  rewrite (index_nth_Ok cells (length cells - 1) 0%nat) by lia.
  rewrite (index_nth_Ok cells j 0%nat) by lia. cbn [bind].
  rewrite (intersection_eq positions radius radius_long)
    by (apply Hr, nth_In; lia).
  cbn [bind]. apply only_firstM. intros p _.
  apply only_bind; [| intros b _; exact I].
  apply total_inside_others. intros [k c] Hin. cbn [snd].
  apply Hr. eapply in_combine_r, Hin.
Qed.

(** The verifier of [CechComplexLE] returns on every candidate whose cells
    are in range. *)
Lemma total_verify_LE (cells : simplex) :
  cells <> [] -> in_range cells -> total (LE.verify positions radius cells).
Proof.
  intros Hne Hr. unfold LE.verify.
  destruct (smallest_of_spec cells Hne Hr) as (sm & -> & Hsm & _).
  cbn [bind].
  destruct (inside_of_spec cells sm Hr (Hr sm Hsm)) as (b & -> & _).
  cbn [bind]. destruct b; [exact I | now apply total_fallback_LE].
Qed.

(** So does the verifier of [CechComplex], provided the memo table has an
    entry for [pre_set] when [pre_set] has more than two cells. *)
Lemma total_verify_Opt (inters : list (list nat * point)) (cells : simplex) :
  cells <> [] -> in_range cells ->
  ((2 < length (removelast cells))%nat ->
   dict_mem inters (frozenset (removelast cells)) = true) ->
  total (Opt.verify positions radius inters cells).
Proof.
  intros Hne Hr Hmemo. unfold Opt.verify.
  destruct (smallest_of_spec cells Hne Hr) as (sm & -> & Hsm & _).
  cbn [bind].
  destruct (inside_of_spec cells sm Hr (Hr sm Hsm)) as (b & -> & _).
  cbn [bind]. destruct b.
  { rewrite (index_positions positions sm (Hr sm Hsm)). exact I. }
  assert (Hlen : (0 < length cells)%nat).
  { destruct cells; [contradiction | cbn; lia]. }
  rewrite (index_nth_Ok cells (length cells - 1) 0%nat) by lia.
  cbn [bind].
  assert (Hnew : (nth (length cells - 1) cells 0 < N positions)%nat).
  { apply Hr, nth_In. lia. }
  apply only_bind.
  - unfold Opt.reuse_shortcut.
    destruct (Nat.eqb_spec (length (removelast cells)) 2) as [E | E].
    + assert (Hl3 : length cells = 3%nat).
      { rewrite (app_removelast_last 0%nat Hne), length_app, E. cbn. lia. }
      rewrite (index_nth_Ok cells 0 0%nat) by lia.
      rewrite (index_nth_Ok cells 1 0%nat) by lia. cbn [bind].
      rewrite (intersection_eq positions radius radius_long)
        by (apply Hr, nth_In; lia).
      cbn [bind]. apply only_firstM. intros p _.
      rewrite (isPointInsideCell_eq positions radius radius_long p _ Hnew).
      exact I.
    + destruct (Nat.ltb_spec 2 (length (removelast cells))) as [E' | E'];
        [| exact I].
      specialize (Hmemo E'). unfold dict_index, dict_mem in *.
      destruct (dict_get inters (frozenset (removelast cells)));
        [| discriminate].
      cbn [bind].
      rewrite (isPointInsideCell_eq positions radius radius_long _ _ Hnew).
      exact I.
  - intros [p |] _; [exact I | now apply total_fallback_Opt].
Qed.

End Verify.


(** ** Sets, frozensets and combinations *)

Lemma mem_In (x : nat) (s : list nat) : mem x s = true <-> In x s.
Proof.
  unfold mem. rewrite existsb_exists. split.
  - intros (y & Hy & E). apply Nat.eqb_eq in E. now subst.
  - intros H. exists x. split; [exact H | apply Nat.eqb_refl].
Qed.

Lemma set_inter_In (x : nat) (a b : list nat) :
  In x (set_inter a b) <-> In x a /\ In x b.
Proof. unfold set_inter. now rewrite filter_In, mem_In. Qed.

Lemma set_diff_In (x : nat) (a b : list nat) :
  In x (set_diff a b) <-> In x a /\ ~ In x b.
Proof.
  unfold set_diff. rewrite filter_In, negb_true_iff.
  pose proof (mem_In x b) as H.
  destruct (mem x b); intuition (auto; congruence).
Qed.

Lemma fold_set_inter_In (x : nat) (ls : list (list nat)) (s : list nat) :
  In x (fold_left set_inter ls s) <->
  In x s /\ forall l, In l ls -> In x l.
Proof.
  revert s. induction ls as [| l ls IH]; intros s; cbn [fold_left].
  - split; [intros H; split; [exact H | intros l []] | tauto].
  - rewrite IH, set_inter_In. cbn [In]. split.
    + intros [[H1 H2] H3]. split; [exact H1 |].
      intros l' [<- | Hl']; [exact H2 | now apply H3].
    + intros [H1 H2]. split; [split; [exact H1 | apply H2; now left] |].
      intros l' Hl'. apply H2. now right.
Qed.

Lemma frozenset_In (x : nat) (l : list nat) :
  In x (frozenset l) <-> In x l.
Proof.
  unfold frozenset. induction l as [| y l IH]; cbn [fold_right In];
    [tauto |].
  rewrite set_add_In, IH. intuition congruence.
Qed.

Lemma frozenset_sorted (l : list nat) : StronglySorted lt (frozenset l).
Proof.
  unfold frozenset. induction l as [| y l IH]; cbn [fold_right];
    [constructor | now apply set_add_sorted].
Qed.

Lemma sorted_NoDup (l : list nat) : StronglySorted lt l -> NoDup l.
Proof.
  induction 1 as [| x l Hs IH Hx]; constructor; [| exact IH].
  intros Hin. rewrite Forall_forall in Hx. specialize (Hx x Hin). lia.
Qed.

(** Two increasing lists with the same elements are equal. *)
Lemma sorted_ext (l1 l2 : list nat) :
  StronglySorted lt l1 -> StronglySorted lt l2 ->
  (forall x, In x l1 <-> In x l2) -> l1 = l2.
Proof.
  intros H1. revert l2. induction H1 as [| x l1 Hs1 IH Hx]; intros l2 H2 Hext.
  - destruct l2 as [| y l2]; [reflexivity |].
    exfalso. apply (Hext y). now left.
  - destruct H2 as [| y l2 Hs2 Hy].
    { exfalso. apply (Hext x). now left. }
    rewrite Forall_forall in Hx, Hy.
    assert (Hxy : x = y).
    { destruct (proj1 (Hext x) (or_introl eq_refl)) as [E | Hin];
        [congruence |].
      destruct (proj2 (Hext y) (or_introl eq_refl)) as [E | Hin'];
        [congruence |].
      specialize (Hx y Hin'). specialize (Hy x Hin). lia. }
    subst y. f_equal. apply IH; [exact Hs2 |].
    intros z. split; intros Hz.
    + destruct (proj1 (Hext z) (or_intror Hz)) as [E | Hin]; [| exact Hin].
      subst z. specialize (Hx x Hz). lia.
    + destruct (proj2 (Hext z) (or_intror Hz)) as [E | Hin]; [| exact Hin].
      subst z. specialize (Hy x Hz). lia.
Qed.

Lemma frozenset_sorted_id (l : list nat) :
  StronglySorted lt l -> frozenset l = l.
Proof.
  intros H. apply sorted_ext; [apply frozenset_sorted | exact H |].
  intros x. apply frozenset_In.
Qed.

Lemma frozenset_ext (l1 l2 : list nat) :
  (forall x, In x l1 <-> In x l2) -> frozenset l1 = frozenset l2.
Proof.
  intros H. apply sorted_ext; try apply frozenset_sorted.
  intros x. rewrite !frozenset_In. apply H.
Qed.

Lemma frozenset_length (l : list nat) :
  NoDup l -> length (frozenset l) = length l.
Proof.
  intros H. apply Nat.le_antisymm.
  - apply NoDup_incl_length.
    + apply sorted_NoDup, frozenset_sorted.
    + intros x. apply frozenset_In.
  - apply NoDup_incl_length; [exact H |].
    intros x. apply frozenset_In.
Qed.

(** [combinations k l] lists the sublists of [l] of length [k]. *)
Inductive subseq : list nat -> list nat -> Prop :=
| subseq_nil : forall l, subseq [] l
| subseq_skip : forall c x l, subseq c l -> subseq c (x :: l)
| subseq_take : forall c x l, subseq c l -> subseq (x :: c) (x :: l).

Lemma combinations_spec (k : nat) (l c : list nat) :
  In c (combinations k l) <-> subseq c l /\ length c = k.
Proof.
  revert k c. induction l as [| x l IH]; intros k c.
  - destruct k as [| k]; cbn [combinations In].
    + split.
      * intros [<- | []]. split; [constructor | reflexivity].
      * intros [_ H]. left. destruct c; [reflexivity | discriminate].
    + split; [intros [] |]. intros [H1 H2]. inversion H1; subst.
      discriminate.
  - destruct k as [| k]; cbn [combinations].
    + cbn [In]. split.
      * intros [<- | []]. split; [constructor | reflexivity].
      * intros [_ H]. left. destruct c; [reflexivity | discriminate].
    + rewrite in_app_iff, in_map_iff. split.
      * intros [(c' & <- & Hc') | Hc].
        -- apply IH in Hc'. destruct Hc' as [H1 H2].
           split; [now constructor | cbn; lia].
        -- apply IH in Hc. destruct Hc as [H1 H2].
           split; [now constructor | exact H2].
      * intros [H1 H2]. inversion H1; subst.
        -- discriminate.
        -- right. apply IH. auto.
        -- left. eexists. split; [reflexivity |]. apply IH.
           cbn in H2. split; [assumption | lia].
Qed.

Lemma subseq_In (c l : list nat) (x : nat) : subseq c l -> In x c -> In x l.
Proof.
  induction 1 as [l | c y l _ IH | c y l _ IH]; cbn [In]; [intros [] | |].
  - intros H. right. now apply IH.
  - intros [-> | H]; [now left | right; now apply IH].
Qed.

Lemma subseq_sorted (c l : list nat) :
  subseq c l -> StronglySorted lt l -> StronglySorted lt c.
Proof.
  induction 1 as [l | c y l _ IH | c y l Hs IH]; intros Hl.
  - constructor.
  - inversion Hl; subst. now apply IH.
  - inversion Hl as [| ? ? Hl' Hy]; subst.
    constructor; [now apply IH |].
    rewrite Forall_forall in *. intros x Hx. apply Hy.
    eapply subseq_In; eassumption.
Qed.

(** An increasing list whose elements are all in the increasing list [l] is
    a sublist of [l]. *)
Lemma sorted_incl_subseq (c l : list nat) :
  StronglySorted lt c -> StronglySorted lt l ->
  (forall x, In x c -> In x l) -> subseq c l.
Proof.
  intros Hc Hl. revert c Hc. induction Hl as [| y l Hl IH Hy]; intros c Hc Hin.
  - destruct c as [| x c]; [constructor |].
    exfalso. apply (Hin x). now left.
  - destruct Hc as [| x c Hc Hx]; [constructor |].
    rewrite Forall_forall in Hx, Hy.
    destruct (Nat.eq_dec x y) as [-> | Hne].
    + apply subseq_take. apply IH; [exact Hc |].
      intros z Hz. destruct (Hin z (or_intror Hz)) as [E | H]; [| exact H].
      subst z. specialize (Hx y Hz). lia.
    + apply subseq_skip. apply IH; [now constructor; [| apply Forall_forall] |].
      intros z Hz. destruct (Hin z Hz) as [E | H]; [| exact H].
      subst z. exfalso. destruct Hz as [E | Hz]; [congruence |].
      destruct (Hin x (or_introl eq_refl)) as [E | Hxl]; [congruence |].
      specialize (Hx y Hz). specialize (Hy x Hxl). lia.
Qed.

(** A list without repetition of indices below [n] has at most [n]
    elements. *)
Lemma NoDup_below_length (l : list nat) (n : nat) :
  NoDup l -> (forall x, In x l -> (x < n)%nat) -> (length l <= n)%nat.
Proof.
  intros Hnd Hlt. rewrite <- (length_seq n 0).
  apply NoDup_incl_length; [exact Hnd |].
  intros x Hx. apply in_seq. specialize (Hlt x Hx). lia.
Qed.


(** ** The candidates of a level *)

(** The invariant rule of [foldM] for a loop that returns: the invariant
    may mention the elements already visited. *)
Lemma foldM_hist {A St : Type} (I : list A -> St -> Prop)
    (f : St -> A -> res St) (l : list A) (s : St) :
  I [] s ->
  (forall visited a s, I visited s -> In a l ->
                       exists s', f s a = Ok s' /\ I (visited ++ [a]) s') ->
  exists s', foldM f l s = Ok s' /\ I l s'.
Proof.
  intros H0 Hstep.
  assert (H : forall l2 l1 s, l = l1 ++ l2 -> I l1 s ->
                              exists s', foldM f l2 s = Ok s' /\ I l s').
  { induction l2 as [| a l2 IH]; intros l1 s1 El Hs; cbn [foldM].
    - rewrite app_nil_r in El. subst l1. eauto.
    - destruct (Hstep l1 a s1 Hs) as (s' & -> & Hs').
      { rewrite El. apply in_elt. }
      cbn [bind]. apply (IH (l1 ++ [a])); [| exact Hs'].
      rewrite <- app_assoc. exact El. }
  apply (H l [] s); [reflexivity | exact H0].
Qed.

(** Two nested loops are one loop over the pairs they visit. *)
Lemma foldM_nested {A B St : Type} (g : A -> St -> B -> res St)
    (h : A -> list B) (l : list A) (s : St) :
  foldM (fun acc a => foldM (g a) (h a) acc) l s =
  foldM (fun acc ab => g (fst ab) acc (snd ab))
    (flat_map (fun a => map (pair a) (h a)) l) s.
Proof.
  assert (Happ : forall (f : St -> A * B -> res St) l1 l2 s,
             foldM f (l1 ++ l2) s = s' <- foldM f l1 s ;; foldM f l2 s').
  { intros f l1. induction l1 as [| x l1 IH]; intros l2 s0; cbn [app foldM bind];
      [reflexivity |].
    destruct (f s0 x); cbn [bind]; [apply IH | reflexivity]. }
  revert s. induction l as [| a l IH]; intros s; cbn [foldM flat_map];
    [reflexivity |].
  rewrite Happ.
  assert (Hin : forall lb s0,
             foldM (g a) lb s0 =
             foldM (fun acc ab => g (fst ab) acc (snd ab))
               (map (pair a) lb) s0).
  { induction lb as [| b lb IHb]; intros s0; cbn [foldM map fst snd];
      [reflexivity |].
    destruct (g a s0 b); cbn [bind]; [apply IHb | reflexivity]. }
  rewrite <- Hin. destruct (foldM (g a) (h a) s); cbn [bind];
    [apply IH | reflexivity].
Qed.

Section Candidates.

Variable positions : list point.
Variable radius : list R.
Hypothesis radius_long : (length positions <= length radius)%nat.

(** The neighbor lists, as [sim1] builds them. *)
Variable nb : list (list nat).
Hypothesis nb_length : length nb = N positions.
Hypothesis nb_sorted : forall a, StronglySorted lt (nth a nb []).
Hypothesis nb_spec :
  forall a b, In b (nth a nb []) <->
              (a < N positions)%nat /\ (b < N positions)%nat /\
              a <> b /\ adj positions radius a b.

(** A simplex of dimension [k]: [k + 1] distinct cells in range. *)
Definition simplex_ok (k : nat) (s : simplex) : Prop :=
  length s = (k + 1)%nat /\ NoDup s /\ in_range positions s.

Lemma simplex_ok_dim (k : nat) (s : simplex) :
  simplex_ok k s -> (k < N positions)%nat.
Proof.
  intros (Hlen & Hnd & Hr).
  pose proof (NoDup_below_length s (N positions) Hnd Hr). lia.
Qed.

(** The candidates of [CechComplexLE.getCandidates(k)]. *)
Definition cands_LE (k : nat) : list simplex :=
  flat_map (fun i => map (cons i) (combinations k (nth i nb [])))
    (seq 0 (N positions)).

Lemma getCandidates_LE_eq (k : nat) :
  LE.getCandidates positions nb k = Ok (cands_LE k).
Proof.
  unfold LE.getCandidates, cands_LE.
  assert (H : forall l acc,
             (forall i, In i l -> (i < N positions)%nat) ->
             foldM (fun acc i =>
                      n <- index nb i ;;
                      Ok (acc ++ map (cons i) (combinations k n))) l acc
             = Ok (acc ++ flat_map
                            (fun i => map (cons i)
                                        (combinations k (nth i nb []))) l)).
  { induction l as [| i l IH]; intros acc Hl; cbn [foldM flat_map].
    - now rewrite app_nil_r.
    - rewrite (index_nth_Ok nb i [])
        by (rewrite nb_length; apply Hl; now left).
      cbn [bind]. rewrite IH by (intros j Hj; apply Hl; now right).
      now rewrite app_assoc. }
  apply (H _ []). intros i Hi. apply in_seq in Hi. lia.
Qed.

Lemma cands_LE_spec (k : nat) (cand : simplex) :
  In cand (cands_LE k) <->
  exists i c, cand = i :: c /\ (i < N positions)%nat /\
              subseq c (nth i nb []) /\ length c = k.
Proof.
  unfold cands_LE. rewrite in_flat_map. split.
  - intros (i & Hi & Hc). apply in_map_iff in Hc.
    destruct Hc as (c & <- & Hc). apply combinations_spec in Hc.
    apply in_seq in Hi. exists i, c. repeat split; try tauto; lia.
  - intros (i & c & -> & Hi & Hs & Hl). exists i. split.
    + apply in_seq. lia.
    + apply in_map, combinations_spec. auto.
Qed.

Lemma cands_LE_ok (k : nat) (cand : simplex) :
  In cand (cands_LE k) -> simplex_ok k cand.
Proof.
  intros H. apply cands_LE_spec in H.
  destruct H as (i & c & -> & Hi & Hs & Hl).
  assert (Hc : forall x, In x c -> In x (nth i nb [])).
  { intros x. now apply subseq_In. }
  split; [cbn; lia |]. split.
  - constructor.
    + intros Hin. apply Hc, nb_spec in Hin. tauto.
    + apply sorted_NoDup. eapply subseq_sorted; [exact Hs | apply nb_sorted].
  - intros x [<- | Hx]; [exact Hi |]. apply Hc, nb_spec in Hx. tauto.
Qed.

(** The candidate vertices computed for [s] by
    [CechComplex.getCandidates]. *)
Definition ext (s : simplex) : list nat :=
  set_diff (fold_left set_inter (map (fun i => nth i nb []) (tl s))
              (nth (hd 0%nat s) nb []))
    (frozenset s).

Lemma extensions_eq (s : simplex) :
  s <> [] -> in_range positions s -> Opt.extensions nb s = Ok (ext s).
Proof.
  intros Hne Hr. unfold Opt.extensions, ext.
  assert (H : forall l acc,
             in_range positions l ->
             foldM (fun acc i => n <- index nb i ;; Ok (acc ++ [n])) l acc
             = Ok (acc ++ map (fun i => nth i nb []) l)).
  { induction l as [| i l IH]; intros acc Hl; cbn [foldM map].
    - now rewrite app_nil_r.
    - rewrite (index_nth_Ok nb i [])
        by (rewrite nb_length; apply Hl; now left).
      cbn [bind]. rewrite IH by (intros j Hj; apply Hl; now right).
      now rewrite <- app_assoc. }
  rewrite (H s [] Hr). cbn [bind app].
  destruct s as [| i s]; [contradiction |]. reflexivity.
Qed.

Lemma ext_spec (s : simplex) (c : nat) :
  s <> [] ->
  (In c (ext s) <-> ~ In c s /\ forall i, In i s -> In c (nth i nb [])).
Proof.
  intros Hne. unfold ext.
  rewrite set_diff_In, fold_set_inter_In, frozenset_In.
  destruct s as [| i0 s]; [contradiction |]. cbn [hd tl]. split.
  - intros [[H1 H2] H3]. split; [exact H3 |].
    intros i [<- | Hi]; [exact H1 |].
    apply H2, in_map_iff. eauto.
  - intros [H1 H2]. split; [split |]; [apply H2; now left | | exact H1].
    intros l Hl. apply in_map_iff in Hl. destruct Hl as (i & <- & Hi).
    apply H2. now right.
Qed.

(** The candidates of [CechComplex.getCandidates(k)], in the order in which
    [_simk] visits them. *)
Definition cands_Opt (prev : level) : list simplex :=
  flat_map (fun s => map (fun c => s ++ [c]) (ext s)) prev.

Lemma cands_Opt_spec (prev : level) (cand : simplex) :
  In cand (cands_Opt prev) <->
  exists s c, cand = s ++ [c] /\ In s prev /\ In c (ext s).
Proof.
  unfold cands_Opt. rewrite in_flat_map. split.
  - intros (s & Hs & Hc). apply in_map_iff in Hc.
    destruct Hc as (c & <- & Hc). eauto.
  - intros (s & c & -> & Hs & Hc). exists s. split; [exact Hs |].
    apply (in_map (fun c => s ++ [c])), Hc.
Qed.

Lemma cands_Opt_ok (k : nat) (prev : level) (cand : simplex) :
  (forall s, In s prev -> simplex_ok k s) ->
  In cand (cands_Opt prev) -> simplex_ok (k + 1) cand.
Proof.
  intros Hprev H. apply cands_Opt_spec in H.
  destruct H as (s & c & -> & Hs & Hc).
  destruct (Hprev s Hs) as (Hlen & Hnd & Hr).
  assert (Hne : s <> []) by (intros ->; cbn in Hlen; lia).
  apply (ext_spec s c Hne) in Hc. destruct Hc as [Hnot Hall].
  split; [rewrite length_app; cbn; lia |]. split.
  - apply NoDup_app; [exact Hnd | repeat constructor; intros [] | ].
    intros x Hx [<- | []]. contradiction.
  - intros x Hx. apply in_app_or in Hx. destruct Hx as [Hx | [<- | []]].
    + now apply Hr.
    + destruct s as [| i s]; [contradiction |].
      specialize (Hall i (or_introl eq_refl)). apply nb_spec in Hall. tauto.
Qed.

End Candidates.


(** ** The loop of [simk] *)

Lemma foldM_map {A B St : Type} (f : St -> B -> res St) (h : A -> B)
    (l : list A) (s : St) :
  foldM f (map h l) s = foldM (fun acc a => f acc (h a)) l s.
Proof.
  revert s. induction l as [| a l IH]; intros s; cbn [foldM map];
    [reflexivity |].
  destruct (f s (h a)); cbn [bind]; [apply IH | reflexivity].
Qed.

Section Loops.

Variable positions : list point.
Variable radius : list R.
Variable maxK : option Z.
Hypothesis radius_long : (length positions <= length radius)%nat.

Variable nb : list (list nat).
Hypothesis nb_length : length nb = N positions.
Hypothesis nb_sorted : forall a, StronglySorted lt (nth a nb []).
Hypothesis nb_spec :
  forall a b, In b (nth a nb []) <->
              (a < N positions)%nat /\ (b < N positions)%nat /\
              a <> b /\ adj positions radius a b.

(** The answer of [CechComplexLE.verify]. *)
Definition accepts_LE (cells : simplex) : bool :=
  match LE.verify positions radius cells with
  | Ok b => b
  | Raise _ => false
  end.

(** The level of dimension [k] of [CechComplexLE]. *)
Definition level_LE (k : nat) : level :=
  filter accepts_LE (cands_LE positions nb k).

Lemma simk_level_LE_eq (k : nat) :
  LE.simk_level positions radius nb k = Ok (level_LE k).
Proof.
  unfold LE.simk_level, level_LE.
  rewrite (getCandidates_LE_eq positions radius radius_long nb nb_length).
  cbn [bind].
  assert (H : forall l acc,
             (forall cand, In cand l ->
                           total (LE.verify positions radius cand)) ->
             foldM (fun Sk cand =>
                      b <- LE.verify positions radius cand ;;
                      Ok (if b then Sk ++ [cand] else Sk)) l acc
             = Ok (acc ++ filter accepts_LE l)).
  { induction l as [| cand l IH]; intros acc Hl; cbn [foldM filter].
    - now rewrite app_nil_r.
    - destruct (total_Ok _ (Hl cand (or_introl eq_refl))) as [b Hb].
      unfold accepts_LE at 1. rewrite Hb. cbn [bind].
      rewrite IH by (intros c Hc; apply Hl; now right).
      destruct b; [now rewrite <- app_assoc | reflexivity]. }
  apply (H _ []). intros cand Hc.
  apply (cands_LE_ok positions radius radius_long nb nb_length nb_sorted
           nb_spec) in Hc.
  destruct Hc as (Hlen & _ & Hr).
  apply (total_verify_LE positions radius radius_long); [| exact Hr].
  intros ->. cbn in Hlen. lia.
Qed.

Lemma level_LE_ok (k : nat) (s : simplex) :
  In s (level_LE k) -> simplex_ok positions k s.
Proof.
  unfold level_LE. rewrite filter_In. intros [H _].
  apply (cands_LE_ok positions radius radius_long nb nb_length nb_sorted
           nb_spec), H.
Qed.

(** The levels that the loop of [CechComplexLE.simk] appends to [S],
    starting from [k]: the levels [k], [k + 1], ... up to the first one that
    is over the bound or empty. *)
Lemma simk_loop_LE_spec :
  forall fuel k S,
    (k <= N positions + 2)%nat -> (N positions + 3 <= fuel + k)%nat ->
    exists m,
      LE.simk_loop positions radius maxK fuel nb k S
      = Some (Ok (S ++ map level_LE (seq k m))) /\
      (forall j, (k <= j < k + m)%nat ->
                 over_maxK maxK j = false /\ level_LE j <> []) /\
      (over_maxK maxK (k + m) = true \/ level_LE (k + m) = []).
Proof.
  induction fuel as [| fuel IH]; intros k S Hk Hfuel; [lia |].
  cbn [LE.simk_loop].
  destruct (over_maxK maxK k) eqn:Eo.
  { exists 0%nat. cbn [seq map]. rewrite app_nil_r, Nat.add_0_r.
    split; [reflexivity |]. split; [intros j Hj; lia | now left]. }
  rewrite simk_level_LE_eq.
  destruct (level_LE k) as [| s0 Sk] eqn:El.
  { exists 0%nat. cbn [seq map length Nat.eqb]. rewrite app_nil_r, Nat.add_0_r.
    split; [reflexivity |]. split; [intros j Hj; lia | now right]. }
  cbn [length Nat.eqb].
  assert (Hs0 : (k < N positions)%nat).
  { apply (simplex_ok_dim positions radius radius_long nb nb_length k s0),
      level_LE_ok.
    rewrite El. now left. }
  destruct (IH (k + 1)%nat (S ++ [(s0 :: Sk : level)]))
    as (m & Hrun & Hall & Hend); [lia | lia |].
  exists (Datatypes.S m). cbn [seq map].
  rewrite Hrun, <- app_assoc, El. cbn [app].
  replace (Datatypes.S k) with (k + 1)%nat by lia.
  split; [reflexivity |]. split.
  - intros j Hj. destruct (Nat.eq_dec j k) as [-> | Hne].
    + split; [exact Eo | rewrite El; discriminate].
    + apply Hall. lia.
  - replace (k + Datatypes.S m)%nat with (k + 1 + m)%nat by lia. exact Hend.
Qed.

(** The loop of [CechComplex.simk], for an invariant [Inv] of the state at
    the head of the loop and a property [Fin] of the state at its exit. *)
Lemma simk_loop_Opt_rule (Inv : nat -> Opt.state -> Prop)
    (Fin : nat -> Opt.state -> Prop) :
  (forall k st, Inv k st -> over_maxK maxK k = true -> Fin k st) ->
  (forall k st,
      Inv k st -> over_maxK maxK k = false ->
      exists Sk ver inters,
        Opt.simk_level positions radius st k = Ok (Sk, ver, inters) /\
        (Sk <> [] ->
         (k < N positions)%nat /\
         Inv (k + 1)%nat
           (Opt.mkState (Opt.neighbor st) (Opt.levels st ++ [Sk])
              ver inters)) /\
        (Sk = [] ->
         Fin k (Opt.mkState (Opt.neighbor st) (Opt.levels st) ver inters))) ->
  forall fuel k st,
    Inv k st -> (k <= N positions + 2)%nat ->
    (N positions + 3 <= fuel + k)%nat ->
    exists st' k',
      Opt.simk_loop positions radius maxK fuel k st = Some (Ok st') /\
      Fin k' st'.
Proof.
  intros Hover Hstep.
  induction fuel as [| fuel IH]; intros k st Hinv Hk Hfuel; [lia |].
  cbn [Opt.simk_loop].
  destruct (over_maxK maxK k) eqn:Eo.
  { exists st, k. split; [reflexivity | now apply Hover]. }
  destruct (Hstep k st Hinv Eo) as (Sk & ver & inters & -> & Hne & He).
  destruct Sk as [| s0 Sk]; cbn [length Nat.eqb negb].
  - eexists _, k. split; [reflexivity |]. now apply He.
  - destruct Hne as [HkN Hinv']; [discriminate |].
    apply (IH (k + 1)%nat); [exact Hinv' | lia | lia].
Qed.

End Loops.


(** ** Both constructions return on every input with enough radii *)

Lemma map_flat_map_comm {A B C : Type} (f : B -> C) (g : A -> list B)
    (l : list A) :
  map f (flat_map g l) = flat_map (fun a => map f (g a)) l.
Proof.
  induction l as [| a l IH]; cbn [flat_map map]; [reflexivity |].
  now rewrite map_app, IH.
Qed.

Section Structure.

Variable positions : list point.
Variable radius : list R.
Variable maxK : option Z.
Hypothesis radius_long : (length positions <= length radius)%nat.

Variable nb : list (list nat).
Hypothesis nb_length : length nb = N positions.
Hypothesis nb_sorted : forall a, StronglySorted lt (nth a nb []).
Hypothesis nb_spec :
  forall a b, In b (nth a nb []) <->
              (a < N positions)%nat /\ (b < N positions)%nat /\
              a <> b /\ adj positions radius a b.

(** [_simk] is one loop over the candidates. *)
Lemma simk_level_Opt_eq (st : Opt.state) (k : nat) (prev : level) :
  Opt.neighbor st = nb ->
  index (Opt.levels st) (k - 1) = Ok prev ->
  (forall s, In s prev -> s <> [] /\ in_range positions s) ->
  Opt.simk_level positions radius st k =
    foldM (Opt.simk_cand positions radius) (cands_Opt nb prev)
      ([], Opt.verified st, Opt.intersections st).
Proof.
  intros Hnb Hidx Hprev. unfold Opt.simk_level. rewrite Hidx, Hnb.
  cbn [bind].
  rewrite (foldM_ext_in _
             (fun acc s =>
                foldM (fun acc c =>
                         Opt.simk_cand positions radius acc (s ++ [c]))
                  (ext nb s) acc)).
  - rewrite (foldM_nested
               (fun s acc c => Opt.simk_cand positions radius acc (s ++ [c]))
               (ext nb)).
    assert (E : cands_Opt nb prev =
                map (fun ab : simplex * nat => fst ab ++ [snd ab])
                  (flat_map (fun s => map (pair s) (ext nb s)) prev)).
    { rewrite map_flat_map_comm. unfold cands_Opt. apply flat_map_ext.
      intros s. now rewrite map_map. }
    now rewrite E, foldM_map.
  - intros acc s Hs. destruct (Hprev s Hs) as [Hne Hr].
    rewrite (extensions_eq positions nb nb_length s Hne Hr). reflexivity.
Qed.

(** What a turn of [_simk] keeps, on candidates in range. *)
Definition level_acc_ok (k : nat) (inters0 : list (list nat * point))
    (acc : level * list (list nat * bool) * list (list nat * point))
  : Prop :=
  (forall s, In s (fst (fst acc)) -> simplex_ok positions k s) /\
  simk_acc_ok inters0 acc.

Lemma simk_level_Opt_total (st : Opt.state) (k : nat) (prev : level) :
  (1 <= k)%nat ->
  Opt.neighbor st = nb ->
  index (Opt.levels st) (k - 1) = Ok prev ->
  (forall s, In s prev -> simplex_ok positions (k - 1) s) ->
  memo_covers (Opt.intersections st) prev ->
  exists acc,
    Opt.simk_level positions radius st k = Ok acc /\
    level_acc_ok k (Opt.intersections st) acc.
Proof.
  intros Hk Hnb Hidx Hprev Hmemo.
  rewrite (simk_level_Opt_eq st k prev Hnb Hidx).
  2:{ intros s Hs. destruct (Hprev s Hs) as (Hlen & _ & Hr).
      split; [| exact Hr]. intros ->. cbn in Hlen. lia. }
  apply (foldM_hist (fun _ acc => level_acc_ok k (Opt.intersections st) acc)).
  - split; [intros s [] |]. split; [auto | intros s []].
  - intros _ cand [[Sk ver] inters] [HSk Hacc] Hcand.
    assert (Hok : simplex_ok positions k cand).
    { replace k with (k - 1 + 1)%nat by lia.
      apply (cands_Opt_ok positions radius radius_long nb nb_length nb_spec
               (k - 1) prev cand Hprev Hcand). }
    apply cands_Opt_spec in Hcand. destruct Hcand as (s & c & -> & Hs & Hc).
    pose proof (simk_cand_ok positions radius (Opt.intersections st)
                  (Sk, ver, inters) s c) as Hstep.
    assert (Htot : total (Opt.simk_cand positions radius (Sk, ver, inters)
                            (s ++ [c]))).
    { unfold Opt.simk_cand.
      destruct (dict_mem ver (frozenset (s ++ [c]))); [exact I |].
      apply only_bind.
      - destruct Hok as (Hlen & _ & Hr).
        apply (total_verify_Opt positions radius radius_long); [| exact Hr |].
        + intros E. rewrite E in Hlen. cbn in Hlen. lia.
        + rewrite removelast_last. intros H3.
          apply (proj1 Hacc), Hmemo; assumption.
      - intros [p |] _; exact I. }
    destruct (total_Ok _ Htot) as [acc' Eacc]. rewrite Eacc in Hstep.
    exists acc'. split; [exact Eacc |].
    assert (Hacc' : simk_acc_ok (Opt.intersections st) acc').
    { apply Hstep; [| exact Hacc]. intros H3. now apply Hmemo. }
    split; [| exact Hacc'].
    revert Eacc. unfold Opt.simk_cand.
    destruct (dict_mem ver (frozenset (s ++ [c]))).
    + intros [= <-]. exact HSk.
    + destruct (Opt.verify positions radius inters (s ++ [c])) as [[p |] | e];
        cbn [bind]; intros [= <-]; cbn [fst]; [| exact HSk].
      intros x Hx. apply in_app_or in Hx.
      destruct Hx as [Hx | [<- | []]]; [now apply HSk | exact Hok].
Qed.

(** The state at the head of the loop of [CechComplex.simk]. *)
Definition state_ok (k : nat) (st : Opt.state) : Prop :=
  Opt.neighbor st = nb /\ length (Opt.levels st) = k /\ (2 <= k)%nat /\
  (forall s, In s (nth (k - 1) (Opt.levels st) []) ->
             simplex_ok positions (k - 1) s) /\
  memo_covers (Opt.intersections st) (nth (k - 1) (Opt.levels st) []).

Lemma simk_loop_Opt_total (fuel : nat) (st : Opt.state) :
  state_ok 2 st -> (N positions < fuel)%nat ->
  exists st', Opt.simk_loop positions radius maxK fuel 2 st = Some (Ok st').
Proof.
  intros Hst Hfuel.
  assert (Hstep : forall k st0,
             state_ok k st0 -> over_maxK maxK k = false ->
             exists Sk ver inters,
               Opt.simk_level positions radius st0 k = Ok (Sk, ver, inters) /\
               (Sk <> [] ->
                (k < N positions)%nat /\
                state_ok (k + 1)%nat
                  (Opt.mkState (Opt.neighbor st0) (Opt.levels st0 ++ [Sk])
                     ver inters)) /\
               (Sk = [] -> True)).
  { intros k st0 (Hnb & Hlen & Hk & Hprev & Hmemo) _.
    destruct (simk_level_Opt_total st0 k (nth (k - 1) (Opt.levels st0) []))
      as ([[Sk ver] inters] & Hlv & HSk & Hmono & Hkeys);
      try assumption; [lia | apply index_nth_Ok; lia |].
    exists Sk, ver, inters. split; [exact Hlv |]. split; [| auto].
    intros Hne. cbn [fst] in HSk. split.
    - destruct Sk as [| s0 Sk]; [contradiction |].
      apply (simplex_ok_dim positions radius radius_long nb nb_length k s0).
      apply HSk. now left.
    - unfold state_ok. cbn [Opt.neighbor Opt.levels Opt.intersections].
      rewrite length_app. cbn [length].
      replace (k + 1 - 1)%nat with (length (Opt.levels st0)) by lia.
      rewrite nth_middle.
      split; [assumption |]. split; [lia |]. split; [lia |]. split.
      + intros s Hs. rewrite Hlen. now apply HSk.
      + intros s Hs _. now apply Hkeys. }
  destruct (simk_loop_Opt_rule positions radius maxK radius_long nb nb_length
              state_ok (fun _ _ => True) (fun _ _ _ _ => I) Hstep
              fuel 2%nat st Hst) as (st' & _ & Hrun & _); [lia | lia |].
  exists st'. exact Hrun.
Qed.

End Structure.

Lemma sim0_ok_1 (positions : list point) (radius : list R) (S1 : level)
    (s : simplex) :
  (forall s, In s S1 <->
             exists i j, s = [i; j] /\ (i < j < N positions)%nat /\
                         adj positions radius i j) ->
  In s S1 -> simplex_ok positions 1 s.
Proof.
  intros HS1 Hs. apply HS1 in Hs. destruct Hs as (i & j & -> & Hij & _).
  split; [reflexivity |]. split.
  - constructor; [intros [E | []]; lia |]. constructor; [intros [] | constructor].
  - intros x [<- | [<- | []]]; lia.
Qed.

(** In exact arithmetic.  The construction makes no test on its input.  With
    at least as many radii as positions, whatever their sign, both
    constructions run to completion and return a complex. *)
Theorem construction_accepts_unchecked_input :
  forall (positions : list point) (radius : list R) (maxK : option Z)
         (fuel : nat),
    (length positions <= length radius)%nat ->
    (N positions < fuel)%nat ->
    (exists S, Opt.cech positions radius maxK fuel = Some (Ok S)) /\
    (exists S, LE.cech positions radius maxK fuel = Some (Ok S)).
Proof.
  intros positions radius maxK fuel Hlen Hfuel.
  destruct (sim1_spec positions radius Hlen)
    as (nb & S1 & Hsim1 & Hnbl & Hsort & Hnb & HS1).
  split.
  - unfold Opt.cech, Opt.run. rewrite Hsim1.
    destruct (simk_loop_Opt_total positions radius maxK Hlen nb Hnbl Hnb fuel
                (Opt.mkState nb [sim0 positions; S1] [] []))
      as (st' & ->); [| exact Hfuel | eauto].
    unfold state_ok. cbn [Opt.neighbor Opt.levels Opt.intersections length].
    split; [reflexivity |]. split; [reflexivity |]. split; [lia |].
    cbn [Nat.sub nth]. split.
    + intros s. apply (sim0_ok_1 positions radius S1 s HS1).
    + intros s Hs Hlen3. apply (sim0_ok_1 positions radius S1 s HS1) in Hs.
      destruct Hs as (E & _). cbn in E. lia.
  - unfold LE.cech. rewrite Hsim1.
    destruct (simk_loop_LE_spec positions radius maxK Hlen nb Hnbl Hsort Hnb
                fuel 2 [sim0 positions; S1]) as (m & -> & _); [lia | lia |].
    eauto.
Qed.

Lemma construction_accepts_unchecked_input_witness :
  (exists S, Opt.cech [(0, 0); (1, 0)] [-1; 3] None 3 = Some (Ok S)) /\
  (exists S, LE.cech [(0, 0); (1, 0)] [-1; 3] None 3 = Some (Ok S)).
Proof.
  apply (construction_accepts_unchecked_input [(0, 0); (1, 0)] [-1; 3] None 3);
    cbn; lia.
Defined.




(** * Further properties of the code *)

(** ** Plane geometry of discs *)

(** The Euclidean norm of the vector [(x, y)]. *)
Definition nrm (x y : R) : R := sqrt (x ^ 2 + y ^ 2).

Lemma nrm_nonneg (x y : R) : 0 <= nrm x y.
Proof. apply sqrt_pos. Qed.

Lemma nrm_sq (x y : R) : nrm x y ^ 2 = x ^ 2 + y ^ 2.
Proof.
  unfold nrm. rewrite <- (sqrt_sqrt (x ^ 2 + y ^ 2)) at 2 by nra. ring.
Qed.

Lemma nrm_le_iff (x y r : R) : 0 <= r -> (nrm x y <= r <-> x ^ 2 + y ^ 2 <= r ^ 2).
Proof.
  intros Hr. pose proof (nrm_nonneg x y) as Hn. pose proof (nrm_sq x y) as Hs.
  split; intros H; nra.
Qed.

Lemma nrm_opp (x y : R) : nrm (- x) (- y) = nrm x y.
Proof. unfold nrm. f_equal. ring. Qed.

Lemma nrm_0 (x y : R) : nrm x y = 0 -> x = 0 /\ y = 0.
Proof. apply sqrt_sum_sq_0. Qed.

(** Cauchy-Schwarz *)
Lemma dot_le_nrm (x1 y1 x2 y2 : R) :
  x1 * x2 + y1 * y2 <= nrm x1 y1 * nrm x2 y2.
Proof.
  pose proof (nrm_nonneg x1 y1) as H1. pose proof (nrm_nonneg x2 y2) as H2.
  pose proof (nrm_sq x1 y1) as S1. pose proof (nrm_sq x2 y2) as S2.
  destruct (Rle_dec (x1 * x2 + y1 * y2) 0) as [Hn | Hp]; [nra |].
  assert (Hsq : (x1 * x2 + y1 * y2) ^ 2 <= (nrm x1 y1 * nrm x2 y2) ^ 2).
  { replace ((nrm x1 y1 * nrm x2 y2) ^ 2)
      with (nrm x1 y1 ^ 2 * nrm x2 y2 ^ 2) by ring.
    rewrite S1, S2. pose proof (pow2_ge_0 (x1 * y2 - x2 * y1)). nra. }
  assert (Hb : 0 <= nrm x1 y1 * nrm x2 y2) by nra.
  apply Rnot_lt_le. intros Hlt. nra.
Qed.

Lemma nrm_triangle (x1 y1 x2 y2 : R) :
  nrm (x1 + x2) (y1 + y2) <= nrm x1 y1 + nrm x2 y2.
Proof.
  pose proof (nrm_nonneg x1 y1) as H1. pose proof (nrm_nonneg x2 y2) as H2.
  pose proof (nrm_sq x1 y1) as S1. pose proof (nrm_sq x2 y2) as S2.
  pose proof (dot_le_nrm x1 y1 x2 y2) as Hcs.
  apply nrm_le_iff; [lra |]. nra.
Qed.

(** The point of parameter [t] of the circle of centre [(cx, cy)] through
    [(cx + U, cy + V)], in the stereographic parametrisation from that
    point. *)
Definition cpt (cx cy U V t : R) : point :=
  (cx + ((t ^ 2 - 1) * U - 2 * t * V) / (1 + t ^ 2),
   cy + ((t ^ 2 - 1) * V + 2 * t * U) / (1 + t ^ 2)).

(** [p] relative to the circle of centre [(ax, ay)] and radius [rho]:
    negative inside, zero on the circle. *)
Definition pw (ax ay rho : R) (p : point) : R :=
  (ax - fst p) ^ 2 + (ay - snd p) ^ 2 - rho ^ 2.

Lemma cpt_on_circle (cx cy U V t : R) :
  pw cx cy (nrm U V) (cpt cx cy U V t) = 0.
Proof.
  unfold pw, cpt. cbn [fst snd]. rewrite nrm_sq.
  assert (H : 1 + t ^ 2 <> 0) by nra. field. exact H.
Qed.

(** The power of [cpt t] with respect to another circle is a quadratic in
    [t], up to the factor [1 + t ^ 2]. *)
Lemma pw_cpt (cx cy U V ax ay rho t : R) :
  let K := U ^ 2 + V ^ 2 + (cx - ax) ^ 2 + (cy - ay) ^ 2 - rho ^ 2 in
  let al := U * (cx - ax) + V * (cy - ay) in
  let be := - V * (cx - ax) + U * (cy - ay) in
  pw ax ay rho (cpt cx cy U V t) * (1 + t ^ 2) =
  (K + 2 * al) * t ^ 2 + 2 * (2 * be) * t + (K - 2 * al).
Proof.
  cbv zeta. unfold pw, cpt. cbn [fst snd].
  assert (H : 1 + t ^ 2 <> 0) by nra. field. exact H.
Qed.

(** A concave quadratic with two roots is not positive up to its first
    root. *)
Lemma quadratic_first_root (A B C : R) :
  A < 0 -> 0 < B ^ 2 - A * C ->
  let t1 := (- B + sqrt (B ^ 2 - A * C)) / A in
  A * t1 ^ 2 + 2 * B * t1 + C = 0 /\
  forall t, t <= t1 -> A * t ^ 2 + 2 * B * t + C <= 0.
Proof.
  intros HA HD t1.
  set (s := sqrt (B ^ 2 - A * C)).
  assert (Hs : 0 <= s) by apply sqrt_pos.
  assert (Hs2 : s * s = B ^ 2 - A * C) by (apply sqrt_sqrt; lra).
  assert (Ht1 : A * t1 = - B + s) by (unfold t1; fold s; field; lra).
  assert (Hroot : A * t1 ^ 2 + 2 * B * t1 + C = 0).
  { assert (H : A * (A * t1 ^ 2 + 2 * B * t1 + C) = 0).
    { replace (A * (A * t1 ^ 2 + 2 * B * t1 + C))
        with ((A * t1) ^ 2 + 2 * B * (A * t1) + A * C) by ring.
      rewrite Ht1. nra. }
    apply Rmult_integral in H. destruct H; [lra | assumption]. }
  split; [exact Hroot |].
  intros t Ht.
  assert (H : A * (A * t ^ 2 + 2 * B * t + C) >= 0).
  { replace (A * (A * t ^ 2 + 2 * B * t + C))
      with ((A * t + B) ^ 2 - s * s) by (rewrite Hs2; ring).
    assert (H1 : A * t + B >= s) by nra.
    nra. }
  nra.
Qed.


(** ** The intersection points of two circles *)

(** The points returned by [get_intersections] lie on both circles. *)
Lemma get_intersections_on_circles (x0 y0 r0 x1 y1 r1 : R) (l : list point)
    (p : point) :
  get_intersections x0 y0 r0 x1 y1 r1 = Ok l -> In p l ->
  pw x0 y0 r0 p = 0 /\ pw x1 y1 r1 p = 0.
Proof.
  intros Hl Hp.
  destruct (get_intersections_cases x0 y0 r0 x1 y1 r1)
    as [[_ H] | (Hd & Hs & Ha & H)].
  { assert (El : l = []) by congruence. rewrite El in Hp. destruct Hp. }
  set (d := sqrt ((x1 - x0) ^ 2 + (y1 - y0) ^ 2)) in *.
  set (a := (r0 ^ 2 - r1 ^ 2 + d ^ 2) / (2 * d)) in *.
  set (h := sqrt (r0 ^ 2 - a ^ 2)) in *.
  assert (El : l = [(x0 + a * (x1 - x0) / d + h * (y1 - y0) / d,
                     y0 + a * (y1 - y0) / d - h * (x1 - x0) / d);
                    (x0 + a * (x1 - x0) / d - h * (y1 - y0) / d,
                     y0 + a * (y1 - y0) / d + h * (x1 - x0) / d)])
    by congruence.
  rewrite El in Hp. clear El Hl H.
  assert (Hd2 : d ^ 2 = (x1 - x0) ^ 2 + (y1 - y0) ^ 2).
  { unfold d. rewrite <- (sqrt_sqrt ((x1 - x0) ^ 2 + (y1 - y0) ^ 2)) at 2;
      [ring | apply sum_sq_nonneg]. }
  assert (Hh2 : h ^ 2 = r0 ^ 2 - a ^ 2).
  { unfold h. rewrite <- (sqrt_sqrt (r0 ^ 2 - a ^ 2)) at 2; [ring |].
    apply chord_sq_nonneg; assumption. }
  assert (Ha2 : 2 * a * d = r0 ^ 2 - r1 ^ 2 + d ^ 2).
  { unfold a. field. lra. }
  cbn [In] in Hp. clearbody h. clearbody a. clearbody d.
  set (u := (x1 - x0) / d). set (v := (y1 - y0) / d).
  assert (Hu : x1 - x0 = d * u) by (unfold u; field; lra).
  assert (Hv : y1 - y0 = d * v) by (unfold v; field; lra).
  assert (Huv : u ^ 2 + v ^ 2 = 1).
  { assert (E : d ^ 2 * (u ^ 2 + v ^ 2) = d ^ 2 * 1).
    { rewrite Hd2 at 2. rewrite Hu, Hv. ring. }
    apply Rmult_eq_reg_l in E; [exact E | nra]. }
  assert (E1 : x1 = x0 + d * u) by lra.
  assert (E2 : y1 = y0 + d * v) by lra.
  assert (Hpt : forall s : R, s ^ 2 = 1 ->
            pw x0 y0 r0 (x0 + a * u + s * h * v, y0 + a * v - s * h * u) = 0 /\
            pw x1 y1 r1 (x0 + a * u + s * h * v, y0 + a * v - s * h * u) = 0).
  { intros s Hs1. unfold pw. cbn [fst snd]. split.
    - transitivity ((a ^ 2 + s ^ 2 * h ^ 2) * (u ^ 2 + v ^ 2) - r0 ^ 2);
        [ring |].
      rewrite Huv, Hs1, Hh2. ring.
    - rewrite E1, E2.
      transitivity ((d ^ 2 - 2 * a * d + a ^ 2 + s ^ 2 * h ^ 2)
                    * (u ^ 2 + v ^ 2) - r1 ^ 2); [ring |].
      rewrite Huv, Hs1, Hh2. lra. }
  destruct Hp as [Hp | [Hp | []]]; rewrite <- Hp.
  - replace (x0 + a * (x1 - x0) / d + h * (y1 - y0) / d,
             y0 + a * (y1 - y0) / d - h * (x1 - x0) / d)
      with (x0 + a * u + 1 * h * v, y0 + a * v - 1 * h * u)
      by (unfold u, v; f_equal; field; lra).
    apply Hpt. ring.
  - replace (x0 + a * (x1 - x0) / d - h * (y1 - y0) / d,
             y0 + a * (y1 - y0) / d + h * (x1 - x0) / d)
      with (x0 + a * u + (- 1) * h * v, y0 + a * v - (- 1) * h * u)
      by (unfold u, v; f_equal; field; lra).
    apply Hpt. ring.
Qed.

Lemma nrm_eq (x y r : R) : 0 <= r -> x ^ 2 + y ^ 2 = r ^ 2 -> nrm x y = r.
Proof. intros Hr H. unfold nrm. apply sqrt_unique; [exact Hr | nra]. Qed.

Lemma sq_le_le (a b : R) : 0 <= a -> 0 <= b -> a ^ 2 <= b ^ 2 -> a <= b.
Proof. intros Ha Hb H. apply Rnot_lt_le. intros Hlt. nra. Qed.

Lemma Rlt_0_sqr_pow2 (x : R) : x <> 0 -> 0 < x ^ 2.
Proof. intros H. replace (x ^ 2) with (Rsqr x) by (unfold Rsqr; ring). now apply Rlt_0_sqr. Qed.

(** Two circles with a common point are neither too far apart nor strictly
    nested. *)
Lemma common_point_guards (x0 y0 r0 x1 y1 r1 : R) (e : point) :
  0 <= r0 -> 0 <= r1 ->
  pw x0 y0 r0 e = 0 -> pw x1 y1 r1 e = 0 ->
  let d := sqrt ((x1 - x0) ^ 2 + (y1 - y0) ^ 2) in
  d <= r0 + r1 /\ Rabs (r0 - r1) <= d.
Proof.
  intros H0 H1 He0 He1 d. destruct e as [ex ey]. unfold pw in *.
  cbn [fst snd] in *.
  assert (Hd : 0 <= d) by apply sqrt_pos.
  assert (Hd2 : d ^ 2 = (x1 - x0) ^ 2 + (y1 - y0) ^ 2)
    by (apply pow2_sqrt, sum_sq_nonneg).
  set (wx := ex - x0) in *. set (wy := ey - y0) in *.
  set (zx := x1 - ex) in *. set (zy := y1 - ey) in *.
  assert (Hw : nrm wx wy = r0).
  { apply nrm_eq; [exact H0 |]. unfold wx, wy.
    transitivity ((x0 - ex) ^ 2 + (y0 - ey) ^ 2); [ring | lra]. }
  assert (Hz : nrm zx zy = r1).
  { apply nrm_eq; [exact H1 |]. lra. }
  assert (Hwz : wx * zx + wy * zy <= r0 * r1).
  { rewrite <- Hw, <- Hz. apply dot_le_nrm. }
  assert (Hwz' : - (wx * zx + wy * zy) <= r0 * r1).
  { rewrite <- Hw, <- Hz, <- (nrm_opp wx wy).
    replace (- (wx * zx + wy * zy)) with (- wx * zx + - wy * zy) by ring.
    apply dot_le_nrm. }
  assert (Hexp : d ^ 2 = r0 ^ 2 + r1 ^ 2 + 2 * (wx * zx + wy * zy)).
  { rewrite Hd2. unfold wx, wy, zx, zy.
    transitivity (((x0 - ex) ^ 2 + (y0 - ey) ^ 2) +
                  ((x1 - ex) ^ 2 + (y1 - ey) ^ 2) +
                  2 * ((ex - x0) * (x1 - ex) + (ey - y0) * (y1 - ey)));
      [ring |].
    fold zx zy. lra. }
  split.
  - apply sq_le_le; [exact Hd | lra | nra].
  - apply Rabs_le. split.
    + assert (r1 - r0 <= d); [| lra].
      destruct (Rle_dec r1 r0); [lra |]. apply sq_le_le; [lra | exact Hd | nra].
    + destruct (Rle_dec r0 r1); [lra |]. apply sq_le_le; [lra | exact Hd | nra].
Qed.

(** Every point common to two circles of different centres is one of the
    points that [get_intersections] returns. *)
Lemma get_intersections_complete (x0 y0 r0 x1 y1 r1 : R) (e : point) :
  0 <= r0 -> 0 <= r1 -> (x0 <> x1 \/ y0 <> y1) ->
  pw x0 y0 r0 e = 0 -> pw x1 y1 r1 e = 0 ->
  exists l, get_intersections x0 y0 r0 x1 y1 r1 = Ok l /\ In e l.
Proof.
  intros H0 H1 Hne He0 He1.
  destruct (common_point_guards x0 y0 r0 x1 y1 r1 e H0 H1 He0 He1)
    as [Hg1 Hg2].
  assert (Hpos : 0 < (x1 - x0) ^ 2 + (y1 - y0) ^ 2).
  { destruct Hne as [Hne | Hne].
    - assert (0 < (x1 - x0) ^ 2) by (apply Rlt_0_sqr_pow2; lra).
      pose proof (pow2_ge_0 (y1 - y0)). lra.
    - assert (0 < (y1 - y0) ^ 2) by (apply Rlt_0_sqr_pow2; lra).
      pose proof (pow2_ge_0 (x1 - x0)). lra. }
  destruct (get_intersections_cases x0 y0 r0 x1 y1 r1)
    as [[Hc _] | (Hd & _ & _ & H)].
  { exfalso. destruct Hc as [Hc | [Hc | [Hc _]]]; try lra.
    apply sqrt_lt_R0 in Hpos. lra. }
  eexists. split; [exact H |].
  set (d := sqrt ((x1 - x0) ^ 2 + (y1 - y0) ^ 2)) in *.
  set (a := (r0 ^ 2 - r1 ^ 2 + d ^ 2) / (2 * d)) in *.
  set (h := sqrt (r0 ^ 2 - a ^ 2)) in *.
  assert (Hd2 : d ^ 2 = (x1 - x0) ^ 2 + (y1 - y0) ^ 2)
    by (apply pow2_sqrt, sum_sq_nonneg).
  assert (Hh2 : h ^ 2 = r0 ^ 2 - a ^ 2)
    by (apply pow2_sqrt, chord_sq_nonneg; assumption).
  assert (Ha2 : 2 * a * d = r0 ^ 2 - r1 ^ 2 + d ^ 2) by (unfold a; field; lra).
  clear H. clearbody h. clearbody a. clearbody d.
  destruct e as [ex ey]. unfold pw in He0, He1. cbn [fst snd] in He0, He1.
  set (u := (x1 - x0) / d). set (v := (y1 - y0) / d).
  assert (Hu : x1 - x0 = d * u) by (unfold u; field; lra).
  assert (Hv : y1 - y0 = d * v) by (unfold v; field; lra).
  assert (Huv : u ^ 2 + v ^ 2 = 1).
  { assert (E : d ^ 2 * (u ^ 2 + v ^ 2) = d ^ 2 * 1).
    { rewrite Hd2 at 2. rewrite Hu, Hv. ring. }
    apply Rmult_eq_reg_l in E; [exact E | nra]. }
  set (wx := ex - x0). set (wy := ey - y0).
  assert (Hw : wx ^ 2 + wy ^ 2 = r0 ^ 2).
  { unfold wx, wy. transitivity ((x0 - ex) ^ 2 + (y0 - ey) ^ 2); [ring | lra]. }
  assert (Hwa : wx * u + wy * v = a).
  { assert (E : d * (wx * u + wy * v) = d * a).
    { assert (E1 : (x1 - ex) ^ 2 + (y1 - ey) ^ 2 =
                   wx ^ 2 + wy ^ 2 - 2 * d * (wx * u + wy * v) + d ^ 2).
      { rewrite Hd2. unfold wx, wy.
        replace (x1 - ex) with ((x1 - x0) - (ex - x0)) by ring.
        replace (y1 - ey) with ((y1 - y0) - (ey - y0)) by ring.
        transitivity ((ex - x0) ^ 2 + (ey - y0) ^ 2
                      - 2 * ((ex - x0) * (x1 - x0) + (ey - y0) * (y1 - y0))
                      + ((x1 - x0) ^ 2 + (y1 - y0) ^ 2)); [ring |].
        rewrite Hu, Hv. ring. }
      lra. }
    apply Rmult_eq_reg_l in E; [exact E | lra]. }
  set (s := wy * u - wx * v).
  assert (Hs2 : s ^ 2 = h ^ 2).
  { rewrite Hh2, <- Hw, <- Hwa. unfold s.
    transitivity ((wx ^ 2 + wy ^ 2) * (u ^ 2 + v ^ 2)
                  - (wx * u + wy * v) ^ 2); [ring |].
    rewrite Huv. ring. }
  assert (Hwx : wx = a * u - s * v).
  { rewrite <- Hwa. unfold s.
    transitivity (wx * (u ^ 2 + v ^ 2)); [rewrite Huv; ring | ring]. }
  assert (Hwy : wy = a * v + s * u).
  { rewrite <- Hwa. unfold s.
    transitivity (wy * (u ^ 2 + v ^ 2)); [rewrite Huv; ring | ring]. }
  assert (Hex : ex = x0 + a * u - s * v) by (unfold wx in Hwx; lra).
  assert (Hey : ey = y0 + a * v + s * u) by (unfold wy in Hwy; lra).
  assert (Hcase : s = h \/ s = - h).
  { assert (E : (s - h) * (s + h) = 0) by nra.
    apply Rmult_integral in E. destruct E; [left | right]; lra. }
  rewrite Hex, Hey.
  destruct Hcase as [-> | ->]; [right; left | left];
    unfold u, v; f_equal; field; lra.
Qed.


(** Exchanging the two circles exchanges the two points. *)
Lemma get_intersections_swap (x0 y0 r0 x1 y1 r1 : R) :
  exists l, get_intersections x0 y0 r0 x1 y1 r1 = Ok l /\
            get_intersections x1 y1 r1 x0 y0 r0 = Ok (rev l).
Proof.
  pose proof (get_intersections_cases x0 y0 r0 x1 y1 r1) as C.
  pose proof (get_intersections_cases x1 y1 r1 x0 y0 r0) as C'.
  cbv zeta in C, C'.
  replace ((x0 - x1) ^ 2 + (y0 - y1) ^ 2)
    with ((x1 - x0) ^ 2 + (y1 - y0) ^ 2) in C' by ring.
  rewrite (Rabs_minus_sym r1 r0) in C'.
  set (d := sqrt ((x1 - x0) ^ 2 + (y1 - y0) ^ 2)) in *.
  destruct C as [[Hc H] | (Hd & Hs & Ha & H)];
    destruct C' as [[Hc' H'] | (Hd' & Hs' & Ha' & H')].
  - exists []. split; assumption.
  - exfalso. destruct Hc as [Hc | [Hc | [Hc _]]]; lra.
  - exfalso. destruct Hc' as [Hc | [Hc | [Hc _]]]; lra.
  - eexists. split; [exact H |]. rewrite H'. cbn [rev app].
    set (a := (r0 ^ 2 - r1 ^ 2 + d ^ 2) / (2 * d)).
    assert (Ea : (r1 ^ 2 - r0 ^ 2 + d ^ 2) / (2 * d) = d - a)
      by (unfold a; field; lra).
    rewrite Ea.
    assert (Eh : r1 ^ 2 - (d - a) ^ 2 = r0 ^ 2 - a ^ 2)
      by (unfold a; field; lra).
    rewrite Eh.
    set (h := sqrt (r0 ^ 2 - a ^ 2)).
    clearbody h. clearbody a. clearbody d.
    apply f_equal. apply f_equal2; [apply f_equal2; field; lra |].
    apply f_equal2; [apply f_equal2; field; lra | reflexivity].
Qed.


(** ** What [get_intersections] computes *)

(** In exact arithmetic.  [get_intersections] returns on every input: once the three guards
    are passed, [math.sqrt] is applied to no negative number and nothing is
    divided by zero.  The list returned holds no point or two points, never
    one. *)
Theorem get_intersections_returns_none_or_two :
  forall x0 y0 r0 x1 y1 r1 : R,
    exists l,
      get_intersections x0 y0 r0 x1 y1 r1 = Ok l /\
      (l = [] \/ length l = 2%nat).
Proof.
  intros x0 y0 r0 x1 y1 r1.
  destruct (get_intersections_cases x0 y0 r0 x1 y1 r1)
    as [[_ H] | (_ & _ & _ & H)]; rewrite H; eexists; split;
    try reflexivity; [now left | now right].
Qed.

(** In exact arithmetic.  Every point returned by [get_intersections] lies on both circles. *)
Theorem get_intersections_points_on_both_circles :
  forall (x0 y0 r0 x1 y1 r1 : R) (l : list point) (p : point),
    get_intersections x0 y0 r0 x1 y1 r1 = Ok l -> In p l ->
    (x0 - fst p) ^ 2 + (y0 - snd p) ^ 2 = r0 ^ 2 /\
    (x1 - fst p) ^ 2 + (y1 - snd p) ^ 2 = r1 ^ 2.
Proof.
  intros x0 y0 r0 x1 y1 r1 l p Hl Hp.
  destruct (get_intersections_on_circles x0 y0 r0 x1 y1 r1 l p Hl Hp)
    as [H0 H1].
  unfold pw in H0, H1. split; lra.
Qed.

Lemma get_intersections_D_01 :
  get_intersections (-3) 0 5 3 0 5 = Ok [(0, -4); (0, 4)].
Proof. exact intersection_D_01. Qed.

Lemma get_intersections_points_on_both_circles_witness :
  (-3 - 0) ^ 2 + (0 - -4) ^ 2 = 5 ^ 2 /\ (3 - 0) ^ 2 + (0 - -4) ^ 2 = 5 ^ 2.
Proof.
  exact (get_intersections_points_on_both_circles (-3) 0 5 3 0 5
           [(0, -4); (0, 4)] (0, -4) get_intersections_D_01
           (or_introl eq_refl)).
Defined.

(** In exact arithmetic.  For two circles of different centres and radii that are not
    negative, [get_intersections] misses no common point: every point lying
    on both circles is in the list returned. *)
Theorem get_intersections_finds_every_common_point :
  forall (x0 y0 r0 x1 y1 r1 : R) (e : point),
    0 <= r0 -> 0 <= r1 -> (x0 <> x1 \/ y0 <> y1) ->
    (x0 - fst e) ^ 2 + (y0 - snd e) ^ 2 = r0 ^ 2 ->
    (x1 - fst e) ^ 2 + (y1 - snd e) ^ 2 = r1 ^ 2 ->
    exists l, get_intersections x0 y0 r0 x1 y1 r1 = Ok l /\ In e l.
Proof.
  intros x0 y0 r0 x1 y1 r1 e H0 H1 Hne He0 He1.
  apply get_intersections_complete; try assumption; unfold pw; lra.
Qed.

Lemma get_intersections_finds_every_common_point_witness :
  exists l, get_intersections (-3) 0 5 3 0 5 = Ok l /\ In (0, 4) l.
Proof.
  apply (get_intersections_finds_every_common_point (-3) 0 5 3 0 5 (0, 4));
    cbn [fst snd]; lra.
Defined.

(** In exact arithmetic.  Exchanging the two circles gives the same two points in the other
    order. *)
Theorem get_intersections_exchange :
  forall x0 y0 r0 x1 y1 r1 : R,
    exists l,
      get_intersections x0 y0 r0 x1 y1 r1 = Ok l /\
      get_intersections x1 y1 r1 x0 y0 r0 = Ok (rev l).
Proof. exact get_intersections_swap. Qed.

(** In exact arithmetic.  Two circles that touch, from outside or from inside, give the point
    of contact twice. *)
Theorem get_intersections_tangent :
  forall x0 y0 r0 x1 y1 r1 : R,
    let d := sqrt ((x1 - x0) ^ 2 + (y1 - y0) ^ 2) in
    0 < d -> 0 <= r0 -> 0 <= r1 ->
    d = r0 + r1 \/ d = Rabs (r0 - r1) ->
    exists p, get_intersections x0 y0 r0 x1 y1 r1 = Ok [p; p].
Proof.
  intros x0 y0 r0 x1 y1 r1 d Hd H0 H1 Ht.
  pose proof (get_intersections_cases x0 y0 r0 x1 y1 r1) as C.
  cbv zeta in C. fold d in C.
  assert (Habs : Rabs (r0 - r1) <= r0 + r1).
  { apply Rabs_le. lra. }
  destruct C as [[Hc _] | (_ & Hs & Ha & H)].
  { exfalso. destruct Hc as [Hc | [Hc | [Hc _]]]; destruct Ht; lra. }
  set (a := (r0 ^ 2 - r1 ^ 2 + d ^ 2) / (2 * d)) in *.
  assert (Hh : sqrt (r0 ^ 2 - a ^ 2) = 0).
  { apply sqrt_unique; [lra |].
    assert (E : a = r0 \/ a = - r0).
    { destruct Ht as [Ht | Ht].
      - left. unfold a. rewrite Ht. field. lra.
      - unfold Rabs in Ht. destruct (Rcase_abs (r0 - r1)).
        + right. unfold a. rewrite Ht. field. lra.
        + left. unfold a. rewrite Ht. field. lra. }
    destruct E as [-> | ->]; ring. }
  rewrite Hh in H. eexists. rewrite H.
  apply f_equal. apply f_equal2; [| reflexivity].
  apply f_equal2; unfold Rdiv; ring.
Qed.

Lemma get_intersections_tangent_witness :
  exists p, get_intersections 0 0 1 3 0 2 = Ok [p; p].
Proof.
  assert (Hd : sqrt ((3 - 0) ^ 2 + (0 - 0) ^ 2) = 3).
  { apply sqrt_unique; lra. }
  apply (get_intersections_tangent 0 0 1 3 0 2);
    rewrite ?Hd; try lra.
Defined.


(** ** Discs with a common point *)

Section Common.

Variable positions : list point.
Variable radius : list R.

(** The point [p] lies in the closed disc of every cell of [cells]. *)
Definition common_point (p : point) (cells : simplex) : Prop :=
  forall c, In c cells -> in_cell positions radius p c = true.

Lemma in_cell_pw (p : point) (c : nat) :
  in_cell positions radius p c = true <->
  pw (px positions c) (py positions c) (rad radius c) p <= 0.
Proof. unfold in_cell, pw. rewrite Rleb_true_iff. lra. Qed.

Lemma in_cell_nrm (p : point) (c : nat) :
  0 <= rad radius c ->
  (in_cell positions radius p c = true <->
   nrm (px positions c - fst p) (py positions c - snd p) <= rad radius c).
Proof.
  intros Hr. unfold in_cell. rewrite Rleb_true_iff.
  symmetry. now apply nrm_le_iff.
Qed.

Lemma cdist_nrm (a b : nat) :
  cdist positions a b =
  nrm (px positions a - px positions b) (py positions a - py positions b).
Proof. reflexivity. Qed.

Lemma cdist_nonneg (a b : nat) : 0 <= cdist positions a b.
Proof. apply sqrt_pos. Qed.

(** A point of the disc [a] is no further from the centre of [b] than the
    distance of the centres plus the radius of [a]. *)
Lemma in_cell_far (p : point) (a b : nat) :
  0 <= rad radius a ->
  in_cell positions radius p a = true ->
  nrm (px positions b - fst p) (py positions b - snd p)
  <= cdist positions b a + rad radius a.
Proof.
  intros Hr Hp. apply in_cell_nrm in Hp; [| exact Hr].
  rewrite cdist_nrm.
  replace (px positions b - fst p)
    with ((px positions b - px positions a) + (px positions a - fst p))
    by ring.
  replace (py positions b - snd p)
    with ((py positions b - py positions a) + (py positions a - snd p))
    by ring.
  eapply Rle_trans; [apply nrm_triangle | lra].
Qed.

(** Two discs with a common point are adjacent: [intersects] holds. *)
Lemma common_adj (p : point) (a b : nat) :
  0 <= rad radius a -> 0 <= rad radius b ->
  in_cell positions radius p a = true ->
  in_cell positions radius p b = true ->
  adj positions radius a b.
Proof.
  intros Ha Hb Hpa Hpb. unfold adj.
  apply in_cell_nrm in Hpa; [| exact Ha].
  apply in_cell_nrm in Hpb; [| exact Hb].
  rewrite cdist_nrm.
  replace (px positions a - px positions b)
    with ((px positions a - fst p) + - (px positions b - fst p)) by ring.
  replace (py positions a - py positions b)
    with ((py positions a - snd p) + - (py positions b - snd p)) by ring.
  eapply Rle_trans; [apply nrm_triangle |]. rewrite nrm_opp. lra.
Qed.

(** Two adjacent discs have a common point, on the segment that joins
    their centres. *)
Lemma adj_common (a b : nat) :
  0 <= rad radius a -> 0 <= rad radius b ->
  adj positions radius a b ->
  exists p, in_cell positions radius p a = true /\
            in_cell positions radius p b = true.
Proof.
  intros Ha Hb Hadj. unfold adj in Hadj.
  pose proof (cdist_nonneg a b) as Hd.
  assert (Hd2 : cdist positions a b ^ 2 =
                (px positions a - px positions b) ^ 2 +
                (py positions a - py positions b) ^ 2).
  { unfold cdist. apply pow2_sqrt, sum_sq_nonneg. }
  set (d := cdist positions a b) in *.
  set (ra := rad radius a) in *. set (rb := rad radius b) in *.
  destruct (Req_dec_T (ra + rb) 0) as [E | E].
  - exists (px positions a, py positions a).
    unfold in_cell. cbn [fst snd]. rewrite !Rleb_true_iff.
    fold ra rb. split; [nra |].
    assert (d = 0) by lra.
    replace ((px positions b - px positions a) ^ 2 +
             (py positions b - py positions a) ^ 2)
      with (d ^ 2) by (rewrite Hd2; ring).
    nra.
  - set (t := ra / (ra + rb)).
    assert (Ht : t * (ra + rb) = ra) by (unfold t; field; exact E).
    assert (Ht0 : 0 <= t).
    { unfold t. apply Rmult_le_pos; [exact Ha |].
      left. apply Rinv_0_lt_compat. lra. }
    assert (Ht1 : t <= 1).
    { apply Rmult_le_reg_r with (ra + rb); lra. }
    exists (px positions a + t * (px positions b - px positions a),
            py positions a + t * (py positions b - py positions a)).
    unfold in_cell. cbn [fst snd]. rewrite !Rleb_true_iff. fold ra rb.
    split.
    + replace ((px positions a -
                (px positions a + t * (px positions b - px positions a))) ^ 2 +
               (py positions a -
                (py positions a + t * (py positions b - py positions a))) ^ 2)
        with ((t * d) ^ 2) by (rewrite Rpow_mult_distr, Hd2; ring).
      assert (t * d <= ra) by nra.
      assert (0 <= t * d) by nra. nra.
    + replace ((px positions b -
                (px positions a + t * (px positions b - px positions a))) ^ 2 +
               (py positions b -
                (py positions a + t * (py positions b - py positions a))) ^ 2)
        with (((1 - t) * d) ^ 2) by (rewrite Rpow_mult_distr, Hd2; ring).
      assert ((1 - t) * d <= rb) by nra.
      assert (0 <= (1 - t) * d) by nra. nra.
Qed.

End Common.

Section Sound.

Variable positions : list point.
Variable radius : list R.
Hypothesis radius_long : (length positions <= length radius)%nat.

(** The containment shortcut is sound: when the disc of least radius lies
    in all the others, its centre is a common point. *)
Lemma inside_sound (cells : simplex) (sm : nat) :
  0 <= rad radius sm ->
  (forall c, In c cells -> rad radius sm <= rad radius c) ->
  (forall c, In c cells -> c <> sm ->
             cdist positions c sm <= Rabs (rad radius c - rad radius sm)) ->
  common_point positions radius (px positions sm, py positions sm) cells.
Proof.
  intros Hsm Hmin Hin c Hc. unfold in_cell. cbn [fst snd].
  apply Rleb_true_iff.
  destruct (Nat.eq_dec c sm) as [-> | Hne].
  - replace ((px positions sm - px positions sm) ^ 2 +
             (py positions sm - py positions sm) ^ 2) with 0 by ring.
    apply pow2_ge_0.
  - specialize (Hin c Hc Hne). specialize (Hmin c Hc).
    rewrite Rabs_pos_eq in Hin by lra.
    pose proof (cdist_nonneg positions c sm) as Hd.
    replace ((px positions c - px positions sm) ^ 2 +
             (py positions c - py positions sm) ^ 2)
      with (cdist positions c sm ^ 2)
      by (unfold cdist; apply pow2_sqrt, sum_sq_nonneg).
    nra.
Qed.

Lemma ipoints_in_cells (i j : nat) (p : point) :
  In p (ipoints positions radius i j) ->
  in_cell positions radius p i = true /\ in_cell positions radius p j = true.
Proof.
  unfold ipoints. intros Hp.
  destruct (get_intersections (px positions i) (py positions i) (rad radius i)
              (px positions j) (py positions j) (rad radius j))
    as [l | e] eqn:E; [| destruct Hp].
  destruct (get_intersections_on_circles _ _ _ _ _ _ l p E Hp) as [H0 H1].
  rewrite !in_cell_pw. lra.
Qed.

(** Whatever [CechComplexLE.verify] accepts has a common point. *)
Lemma verify_LE_sound (cells : simplex) :
  in_range positions cells ->
  (forall c, In c cells -> 0 <= rad radius c) ->
  LE.verify positions radius cells = Ok true ->
  exists p, common_point positions radius p cells.
Proof.
  intros Hr Hpos Hv.
  assert (Hne : cells <> []).
  { intros ->. discriminate Hv. }
  unfold LE.verify in Hv.
  destruct (smallest_of_spec positions radius radius_long cells Hne Hr)
    as (sm & Esm & Hsm & Hmin).
  rewrite Esm in Hv. cbn [bind] in Hv.
  destruct (inside_of_spec positions radius radius_long cells sm Hr
              (Hr sm Hsm)) as (b & Eb & Hb).
  rewrite Eb in Hv. cbn [bind] in Hv. destruct b.
  - exists (px positions sm, py positions sm).
    apply inside_sound; [now apply Hpos | exact Hmin |].
    now apply Hb.
  - apply fallback_LE_spec in Hv. destruct (proj1 Hv eq_refl)
      as (i & j & x & p & Hij & Hx & Hp & Hall).
    apply in_pairs in Hij. destruct Hij as [Hi Hj].
    rewrite (intersection_eq positions radius radius_long i j
               (Hr i Hi) (Hr j Hj)) in Hx.
    injection Hx as <-. apply ipoints_in_cells in Hp.
    exists p. intros c Hc.
    destruct (Nat.eq_dec c i) as [-> | Hci]; [apply Hp |].
    destruct (Nat.eq_dec c j) as [-> | Hcj]; [apply Hp |].
    specialize (Hall c Hc Hci Hcj).
    rewrite (isPointInsideCell_eq positions radius radius_long p c
               (Hr c Hc)) in Hall.
    congruence.
Qed.

Lemma index_nth_error {A : Type} (l : list A) (i : nat) (a : A) :
  index l i = Ok a <-> nth_error l i = Some a.
Proof.
  unfold index. destruct (nth_error l i); split; congruence.
Qed.

Lemma removelast_nth {A : Type} (l : list A) (d : A) :
  l <> [] -> l = removelast l ++ [nth (length l - 1) l d].
Proof.
  induction l as [| a l IH]; [contradiction |]. intros _.
  destruct l as [| b l]; [reflexivity |].
  change (removelast (a :: b :: l)) with (a :: removelast (b :: l)).
  cbn [app]. f_equal.
  replace (nth (length (a :: b :: l) - 1) (a :: b :: l) d)
    with (nth (length (b :: l) - 1) (b :: l) d)
    by (cbn [length Nat.sub]; rewrite ?Nat.sub_0_r; reflexivity).
  apply IH. discriminate.
Qed.

(** The last loop of [CechComplex.verify] returns common points only. *)
Lemma fallback_Opt_sound (cells : simplex) (p : point) :
  in_range positions cells ->
  Opt.fallback positions radius cells = Ok (Some p) ->
  common_point positions radius p cells.
Proof.
  intros Hr Hf. unfold Opt.fallback in Hf.
  apply firstM_Some in Hf. destruct Hf as (l1 & j & l2 & _ & Hj & _).
  apply fallback_pair_Some in Hj.
  destruct Hj as (ci & cj & x & Hci & Hcj & Hx & Hp & Hall).
  assert (Hri : In ci cells) by (eapply index_In, Hci).
  assert (Hrj : In cj cells) by (eapply index_In, Hcj).
  rewrite (intersection_eq positions radius radius_long ci cj
             (Hr ci Hri) (Hr cj Hrj)) in Hx.
  injection Hx as <-. apply ipoints_in_cells in Hp.
  intros c Hc. destruct (In_nth_error _ _ Hc) as [k Hk].
  destruct (Nat.eq_dec k (length cells - 1)) as [-> | Hki].
  { apply index_nth_error in Hci. assert (c = ci) by congruence.
    subst c. apply Hp. }
  destruct (Nat.eq_dec k j) as [-> | Hkj].
  { apply index_nth_error in Hcj. assert (c = cj) by congruence.
    subst c. apply Hp. }
  specialize (Hall k c Hk Hki Hkj).
  rewrite (isPointInsideCell_eq positions radius radius_long p c (Hr c Hc))
    in Hall.
  congruence.
Qed.

(** Whatever [CechComplex.verify] accepts has a common point, the very
    point that it returns, provided the point recorded for [pre_set] is
    one. *)
Lemma verify_Opt_sound (inters : list (list nat * point)) (cells : simplex)
    (p : point) :
  in_range positions cells ->
  (forall c, In c cells -> 0 <= rad radius c) ->
  (forall w, (2 < length (removelast cells))%nat ->
             dict_get inters (frozenset (removelast cells)) = Some w ->
             common_point positions radius w (removelast cells)) ->
  Opt.verify positions radius inters cells = Ok (Some p) ->
  common_point positions radius p cells.
Proof.
  intros Hr Hpos Hmemo Hv.
  assert (Hne : cells <> []).
  { intros ->. discriminate Hv. }
  unfold Opt.verify in Hv.
  destruct (smallest_of_spec positions radius radius_long cells Hne Hr)
    as (sm & Esm & Hsm & Hmin).
  rewrite Esm in Hv. cbn [bind] in Hv.
  destruct (inside_of_spec positions radius radius_long cells sm Hr
              (Hr sm Hsm)) as (b & Eb & Hb).
  rewrite Eb in Hv. cbn [bind] in Hv. destruct b.
  { rewrite (index_positions positions sm (Hr sm Hsm)) in Hv.
    cbn [bind] in Hv. injection Hv as <-.
    apply inside_sound; [now apply Hpos | exact Hmin | now apply Hb]. }
  assert (Hlen : (0 < length cells)%nat).
  { destruct cells; [contradiction | cbn; lia]. }
  rewrite (index_nth_Ok cells (length cells - 1) 0%nat) in Hv by lia.
  cbn [bind] in Hv.
  set (new := nth (length cells - 1) cells 0%nat) in *.
  assert (Ecells : cells = removelast cells ++ [new]).
  { now apply removelast_nth. }
  assert (Hnew : (new < N positions)%nat).
  { apply Hr. rewrite Ecells. apply in_elt. }
  apply bind_Ok in Hv. destruct Hv as (sc & Hsc & Hv).
  destruct sc as [q |]; [injection Hv as -> | now apply fallback_Opt_sound].
  unfold Opt.reuse_shortcut in Hsc.
  destruct (Nat.eqb_spec (length (removelast cells)) 2) as [E2 | E2].
  - assert (Hl3 : length cells = 3%nat).
    { rewrite Ecells, length_app, E2. reflexivity. }
    destruct cells as [| c0 [| c1 [| c2 [| c3 cells]]]]; try discriminate.
    cbn in new. subst new.
    change (index [c0; c1; c2] 0) with (Ok c0) in Hsc.
    change (index [c0; c1; c2] 1) with (Ok c1) in Hsc.
    cbn [bind] in Hsc.
    rewrite (intersection_eq positions radius radius_long c0 c1) in Hsc
      by (apply Hr; cbn; tauto).
    cbn [bind] in Hsc. apply firstM_Some in Hsc.
    destruct Hsc as (l1 & p0 & l2 & El & Hp0 & _).
    rewrite (isPointInsideCell_eq positions radius radius_long p0 c2 Hnew)
      in Hp0.
    cbn [bind] in Hp0.
    destruct (in_cell positions radius p0 c2) eqn:Ec2; [| discriminate].
    injection Hp0 as ->.
    assert (Hin : In p (ipoints positions radius c0 c1)).
    { rewrite El. apply in_elt. }
    apply ipoints_in_cells in Hin.
    intros c [<- | [<- | [<- | []]]]; [apply Hin | apply Hin | exact Ec2].
  - destruct (Nat.ltb_spec 2 (length (removelast cells))) as [E3 | E3];
      [| discriminate].
    unfold dict_index in Hsc.
    destruct (dict_get inters (frozenset (removelast cells))) as [w |] eqn:Ew;
      [| discriminate].
    cbn [bind] in Hsc.
    rewrite (isPointInsideCell_eq positions radius radius_long w new Hnew)
      in Hsc.
    cbn [bind] in Hsc.
    destruct (in_cell positions radius w new) eqn:Enew; [| discriminate].
    injection Hsc as ->.
    intros c Hc. rewrite Ecells in Hc. apply in_app_or in Hc.
    destruct Hc as [Hc | [<- | []]]; [| exact Enew].
    now apply (Hmemo p E3 eq_refl).
Qed.

End Sound.


(** ** One level of [CechComplex], candidate by candidate *)

Lemma dict_mem_set_iff {V : Type} (d : list (list nat * V))
    (k k0 : list nat) (v : V) :
  dict_mem (dict_set d k v) k0 = true <-> k0 = k \/ dict_mem d k0 = true.
Proof.
  destruct (list_eq_dec Nat.eq_dec k0 k) as [-> | Hne].
  - rewrite dict_mem_set_same. tauto.
  - unfold dict_mem. rewrite dict_get_set_other by exact Hne. tauto.
Qed.

Lemma dict_mem_get {V : Type} (d : list (list nat * V)) (k : list nat) :
  dict_mem d k = true <-> exists v, dict_get d k = Some v.
Proof.
  unfold dict_mem. destruct (dict_get d k) as [v |]; split;
    try discriminate; eauto.
  intros [v H]. discriminate.
Qed.

Section Level.

Variable positions : list point.
Variable radius : list R.
Hypothesis radius_long : (length positions <= length radius)%nat.

Variable nb : list (list nat).
Hypothesis nb_length : length nb = N positions.
Hypothesis nb_sorted : forall a, StronglySorted lt (nth a nb []).
Hypothesis nb_spec :
  forall a b, In b (nth a nb []) <->
              (a < N positions)%nat /\ (b < N positions)%nat /\
              a <> b /\ adj positions radius a b.

(** What is known of a recorded point, and of a rejected set of cells. *)
Variable G : list nat -> point -> Prop.
Variable Rej : list nat -> Prop.

(** The memo table records a point of [G] for [s]. *)
Definition memo_has (inters : list (list nat * point)) (s : simplex) : Prop :=
  exists w, dict_get inters (frozenset s) = Some w /\ G (frozenset s) w.

Hypothesis verify_G :
  forall inters s c p,
    in_range positions (s ++ [c]) -> NoDup (s ++ [c]) ->
    (2 <= length s)%nat ->
    ((2 < length s)%nat -> memo_has inters s) ->
    Opt.verify positions radius inters (s ++ [c]) = Ok (Some p) ->
    G (frozenset (s ++ [c])) p.

Hypothesis verify_Rej :
  forall inters s c,
    in_range positions (s ++ [c]) -> NoDup (s ++ [c]) ->
    (2 <= length s)%nat ->
    ((2 < length s)%nat -> memo_has inters s) ->
    Opt.verify positions radius inters (s ++ [c]) = Ok None ->
    Rej (frozenset (s ++ [c])).

(** The state of [_simk] for level [k] once the candidates [visited] have
    been treated, from the tables [ver0] and [inters0]. *)
Definition level_inv (k : nat) (ver0 : list (list nat * bool))
    (inters0 : list (list nat * point)) (visited : list simplex)
    (acc : level * list (list nat * bool) * list (list nat * point))
  : Prop :=
  let '(Sk, ver, inters) := acc in
  (forall s, In s Sk -> In s visited /\ memo_has inters s) /\
  (forall key w, dict_get inters key = Some w ->
                 dict_get inters0 key = Some w \/
                 (exists s, In s Sk /\ key = frozenset s)) /\
  (forall key w, dict_get inters0 key = Some w ->
                 dict_get inters key = Some w) /\
  (forall key, dict_mem ver key = true <->
               dict_mem ver0 key = true \/
               exists cand, In cand visited /\ key = frozenset cand) /\
  NoDup (map frozenset Sk) /\
  (forall cand, In cand visited ->
                (exists s, In s Sk /\ frozenset s = frozenset cand) \/
                Rej (frozenset cand)).

Lemma simk_level_Opt_spec (st : Opt.state) (k : nat) (prev : level) :
  (2 <= k)%nat ->
  Opt.neighbor st = nb ->
  index (Opt.levels st) (k - 1) = Ok prev ->
  (forall s, In s prev -> simplex_ok positions (k - 1) s) ->
  (forall s, In s prev -> (2 < length s)%nat ->
             memo_has (Opt.intersections st) s) ->
  (forall key, dict_mem (Opt.verified st) key = true ->
               (length key <= k)%nat) ->
  (forall key w, dict_get (Opt.intersections st) key = Some w ->
                 (length key <= k)%nat) ->
  exists acc,
    Opt.simk_level positions radius st k = Ok acc /\
    level_inv k (Opt.verified st) (Opt.intersections st)
      (cands_Opt nb prev) acc.
Proof.
  intros Hk Hnb Hidx Hprev Hmemo Hver Hint.
  rewrite (simk_level_Opt_eq positions radius nb nb_length
             st k prev Hnb Hidx).
  2:{ intros s Hs. destruct (Hprev s Hs) as (Hlen & _ & Hr).
      split; [| exact Hr]. intros ->. cbn in Hlen. lia. }
  apply (foldM_hist (level_inv k (Opt.verified st) (Opt.intersections st))).
  { split; [intros s [] |]. split; [intros key w H; now left |].
    split; [auto |]. split.
    - intros key. split; [intros H; now left |].
      intros [H | (cand & [] & _)]. exact H.
    - split; [constructor | intros cand []]. }
  intros visited cand [[Sk ver] inters]
    (HSk & Hnew & Hold & Hverd & Hnd & Hvis) Hcand.
  assert (Hok : simplex_ok positions k cand).
  { replace k with (k - 1 + 1)%nat by lia.
    apply (cands_Opt_ok positions radius radius_long nb nb_length nb_spec
             (k - 1) prev cand Hprev Hcand). }
  destruct Hok as (Hlen & Hnodup & Hr).
  assert (Hflen : length (frozenset cand) = (k + 1)%nat).
  { rewrite frozenset_length; assumption. }
  apply cands_Opt_spec in Hcand. destruct Hcand as (s & c & -> & Hs & Hc).
  destruct (Hprev s Hs) as (Hslen & _ & _).
  assert (Hpre : (2 < length s)%nat -> memo_has inters s).
  { intros H3. destruct (Hmemo s Hs H3) as (w & Hw & HG).
    exists w. split; [apply Hold, Hw | exact HG]. }
  unfold Opt.simk_cand.
  destruct (dict_mem ver (frozenset (s ++ [c]))) eqn:Emem.
  - eexists. split; [reflexivity |].
    apply Hverd in Emem. destruct Emem as [Emem | (cand' & Hc' & Ekey)].
    { apply Hver in Emem. lia. }
    split; [| split; [| split; [| split; [| split]]]].
    + intros s0 Hs0. destruct (HSk s0 Hs0) as [H1 H2].
      split; [apply in_or_app; now left | exact H2].
    + exact Hnew.
    + exact Hold.
    + intros key. rewrite Hverd. split.
      * intros [H | (x & Hx & Ex)]; [now left |].
        right. exists x. split; [apply in_or_app; now left | exact Ex].
      * intros [H | (x & Hx & Ex)]; [now left |].
        apply in_app_or in Hx. destruct Hx as [Hx | [<- | []]].
        -- right. eauto.
        -- right. exists cand'. split; [exact Hc' | congruence].
    + exact Hnd.
    + intros x Hx. apply in_app_or in Hx.
      destruct Hx as [Hx | [<- | []]]; [now apply Hvis |].
      rewrite Ekey. now apply Hvis.
  - assert (Htot : total (Opt.verify positions radius inters (s ++ [c]))).
    { apply (total_verify_Opt positions radius radius_long); [| exact Hr |].
      + intros E. rewrite E in Hlen. cbn in Hlen. lia.
      + rewrite removelast_last. intros H3.
        destruct (Hpre H3) as (w & Hw & _).
        apply dict_mem_get. eauto. }
    destruct (total_Ok _ Htot) as [r Er]. rewrite Er. cbn [bind].
    assert (Hfresh : forall x, In x visited ->
                               frozenset x <> frozenset (s ++ [c])).
    { intros x Hx E.
      assert (H : dict_mem ver (frozenset (s ++ [c])) = true).
      { apply Hverd. right. exists x. split; [exact Hx | now symmetry]. }
      congruence. }
    assert (Hverd' : forall b key,
               dict_mem (dict_set ver (frozenset (s ++ [c])) b) key = true <->
               dict_mem (Opt.verified st) key = true \/
               exists cand, In cand (visited ++ [s ++ [c]]) /\
                            key = frozenset cand).
    { intros b key. rewrite dict_mem_set_iff, Hverd. split.
      - intros [-> | [H | (x & Hx & Ex)]]; [| now left |].
        + right. exists (s ++ [c]). split; [apply in_elt | reflexivity].
        + right. exists x. split; [apply in_or_app; now left | exact Ex].
      - intros [H | (x & Hx & Ex)]; [right; now left |].
        apply in_app_or in Hx. destruct Hx as [Hx | [<- | []]].
        + right. right. eauto.
        + now left. }
    destruct r as [p |].
    + assert (HG : G (frozenset (s ++ [c])) p).
      { apply (verify_G inters s c p); try assumption. lia. }
      eexists. split; [reflexivity |].
      split; [| split; [| split; [| split; [| split]]]].
      * intros s0 Hs0. apply in_app_or in Hs0.
        destruct Hs0 as [Hs0 | [<- | []]].
        -- destruct (HSk s0 Hs0) as [H1 (w & Hw & HGw)].
           split; [apply in_or_app; now left |].
           exists w. split; [| exact HGw].
           rewrite dict_get_set_other; [exact Hw |].
           apply Hfresh, H1.
        -- split; [apply in_elt |].
           exists p. split; [apply dict_get_set_same | exact HG].
      * intros key w Hw.
        destruct (list_eq_dec Nat.eq_dec key (frozenset (s ++ [c])))
          as [-> | Hne].
        -- right. exists (s ++ [c]). split; [apply in_elt | reflexivity].
        -- rewrite dict_get_set_other in Hw by exact Hne.
           destruct (Hnew key w Hw) as [H | (x & Hx & Ex)]; [now left |].
           right. exists x. split; [apply in_or_app; now left | exact Ex].
      * intros key w Hw. rewrite dict_get_set_other; [now apply Hold |].
        intros ->. apply Hint in Hw. lia.
      * apply Hverd'.
      * rewrite map_app. cbn [map].
        apply NoDup_app; [exact Hnd | repeat constructor; intros [] |].
        intros key Hkey [<- | []]. apply in_map_iff in Hkey.
        destruct Hkey as (x & Ex & Hx).
        apply (Hfresh x); [apply HSk, Hx | exact Ex].
      * intros x Hx. apply in_app_or in Hx.
        destruct Hx as [Hx | [<- | []]].
        -- destruct (Hvis x Hx) as [(y & Hy & Ey) | H]; [| now right].
           left. exists y. split; [apply in_or_app; now left | exact Ey].
        -- left. exists (s ++ [c]). split; [apply in_elt | reflexivity].
    + assert (HR : Rej (frozenset (s ++ [c]))).
      { apply (verify_Rej inters s c); try assumption. lia. }
      eexists. split; [reflexivity |].
      split; [| split; [| split; [| split; [| split]]]].
      * intros s0 Hs0. destruct (HSk s0 Hs0) as [H1 H2].
        split; [apply in_or_app; now left | exact H2].
      * exact Hnew.
      * exact Hold.
      * apply Hverd'.
      * exact Hnd.
      * intros x Hx. apply in_app_or in Hx.
        destruct Hx as [Hx | [<- | []]]; [now apply Hvis | now right].
Qed.

End Level.


(** ** A run of [CechComplex], level by level *)

Section Run.

Variable positions : list point.
Variable radius : list R.
Variable maxK : option Z.
Hypothesis radius_long : (length positions <= length radius)%nat.

Variable nb : list (list nat).
Hypothesis nb_length : length nb = N positions.
Hypothesis nb_sorted : forall a, StronglySorted lt (nth a nb []).
Hypothesis nb_spec :
  forall a b, In b (nth a nb []) <->
              (a < N positions)%nat /\ (b < N positions)%nat /\
              a <> b /\ adj positions radius a b.

(** The level 1, as [sim1] builds it. *)
Variable S1 : level.

Variable G : list nat -> point -> Prop.
Variable Rej : list nat -> Prop.

Hypothesis verify_G :
  forall inters s c p,
    in_range positions (s ++ [c]) -> NoDup (s ++ [c]) ->
    (2 <= length s)%nat ->
    ((2 < length s)%nat -> memo_has G inters s) ->
    Opt.verify positions radius inters (s ++ [c]) = Ok (Some p) ->
    G (frozenset (s ++ [c])) p.

Hypothesis verify_Rej :
  forall inters s c,
    in_range positions (s ++ [c]) -> NoDup (s ++ [c]) ->
    (2 <= length s)%nat ->
    ((2 < length s)%nat -> memo_has G inters s) ->
    Opt.verify positions radius inters (s ++ [c]) = Ok None ->
    Rej (frozenset (s ++ [c])).

(** The level [j] of the state [st], for [j] at least 2: its simplices are
    candidates built on the level below, each kept once and each with a
    recorded point, and every candidate left out was rejected. *)
Definition level_ok (st : Opt.state) (j : nat) : Prop :=
  let Sj := nth j (Opt.levels st) [] in
  let prev := nth (j - 1) (Opt.levels st) [] in
  Sj <> [] /\
  NoDup (map frozenset Sj) /\
  (forall s, In s Sj ->
             simplex_ok positions j s /\ In s (cands_Opt nb prev) /\
             memo_has G (Opt.intersections st) s) /\
  (forall cand, In cand (cands_Opt nb prev) ->
                (exists s, In s Sj /\ frozenset s = frozenset cand) \/
                Rej (frozenset cand)).

Definition run_core (k : nat) (st : Opt.state) : Prop :=
  Opt.neighbor st = nb /\ length (Opt.levels st) = k /\ (2 <= k)%nat /\
  (forall s, In s (nth 1 (Opt.levels st) []) -> simplex_ok positions 1 s) /\
  (forall j, (2 <= j < k)%nat -> level_ok st j) /\
  (forall key w, dict_get (Opt.intersections st) key = Some w ->
                 (length key <= k)%nat /\ G key w) /\
  @nth level 0 (Opt.levels st) [] = sim0 positions /\
  @nth level 1 (Opt.levels st) [] = S1 /\
  (forall j, (2 <= j < k)%nat -> over_maxK maxK j = false).

(** The state at the head of the loop of [simk]. *)
Definition run_inv (k : nat) (st : Opt.state) : Prop :=
  run_core k st /\
  (forall key, dict_mem (Opt.verified st) key = true ->
               (length key <= k)%nat).

(** The state when the loop is left. *)
Definition run_fin (k : nat) (st : Opt.state) : Prop :=
  run_core k st /\
  (over_maxK maxK k = true \/
   forall cand, In cand (cands_Opt nb (nth (k - 1) (Opt.levels st) [])) ->
                Rej (frozenset cand)).

Lemma run_prev_ok (k : nat) (st : Opt.state) :
  run_core k st ->
  forall s, In s (nth (k - 1) (Opt.levels st) []) ->
            simplex_ok positions (k - 1) s.
Proof.
  intros (_ & _ & Hk & H1 & Hlv & _ & _) s Hs.
  destruct (Nat.eq_dec (k - 1) 1) as [E | E].
  - rewrite E in *. now apply H1.
  - destruct (Hlv (k - 1)%nat) as (_ & _ & H & _); [lia |].
    now apply H.
Qed.

Lemma run_step (k : nat) (st : Opt.state) :
  run_inv k st -> over_maxK maxK k = false ->
  exists Sk ver inters,
    Opt.simk_level positions radius st k = Ok (Sk, ver, inters) /\
    (Sk <> [] ->
     (k < N positions)%nat /\
     run_inv (k + 1)%nat
       (Opt.mkState (Opt.neighbor st) (Opt.levels st ++ [Sk]) ver inters)) /\
    (Sk = [] ->
     run_core k (Opt.mkState (Opt.neighbor st) (Opt.levels st) ver inters) /\
     forall cand, In cand (cands_Opt nb (nth (k - 1) (Opt.levels st) [])) ->
                  Rej (frozenset cand)).
Proof.
  intros [Hcore Hver] Hover.
  pose proof (run_prev_ok k st Hcore) as Hprev.
  destruct Hcore as (Hnb & Hlen & Hk & H1 & Hlv & Hint & H00 & H01 & Hov).
  set (prev := nth (k - 1) (Opt.levels st) []) in *.
  assert (Hmemo : forall s, In s prev -> (2 < length s)%nat ->
                            memo_has G (Opt.intersections st) s).
  { intros s Hs H3. destruct (Nat.eq_dec (k - 1) 1) as [E | E].
    - unfold prev in Hs. rewrite E in Hs. apply H1 in Hs.
      destruct Hs as (Hl & _). cbn in Hl. lia.
    - destruct (Hlv (k - 1)%nat) as (_ & _ & H & _); [lia |].
      now apply H. }
  destruct (simk_level_Opt_spec positions radius radius_long nb nb_length
              nb_spec G Rej verify_G verify_Rej st k prev)
    as ([[Sk ver] inters] & Hrun & HSk & Hnew & Hold & Hverd & Hnd & Hvis);
    try assumption.
  { apply index_nth_Ok. lia. }
  { intros key w Hw. now apply (Hint key w). }
  assert (HSk_ok : forall s, In s Sk -> simplex_ok positions k s).
  { intros s Hs. replace k with (k - 1 + 1)%nat by lia.
    apply (cands_Opt_ok positions radius radius_long nb nb_length nb_spec
             (k - 1) prev s Hprev).
    now apply HSk. }
  assert (Hint' : forall key w, dict_get inters key = Some w ->
                                (length key <= k + 1)%nat /\ G key w).
  { intros key w Hw. destruct (Hnew key w Hw) as [H | (s & Hs & ->)].
    - destruct (Hint key w H). split; [lia | assumption].
    - destruct (HSk s Hs) as [_ (w' & Hw' & HG)].
      assert (w' = w) by congruence. subst w'.
      destruct (HSk_ok s Hs) as (Hl & Hn & _).
      rewrite frozenset_length by exact Hn. split; [lia | exact HG]. }
  assert (Hkeep : forall j, (2 <= j < k)%nat -> forall lv' : list level,
             @nth level j (Opt.levels st ++ lv') [] =
               @nth level j (Opt.levels st) [] /\
             @nth level (j - 1) (Opt.levels st ++ lv') [] =
               @nth level (j - 1) (Opt.levels st) []).
  { intros j Hj lv'. split; apply app_nth1; lia. }
  assert (Hlv_keep : forall j, (2 <= j < k)%nat -> forall lvs,
             @nth level j lvs [] = @nth level j (Opt.levels st) [] ->
             @nth level (j - 1) lvs [] =
               @nth level (j - 1) (Opt.levels st) [] ->
             level_ok (Opt.mkState (Opt.neighbor st) lvs ver inters) j).
  { intros j Hj lvs E1 E2. destruct (Hlv j Hj) as (Hne & Hnd' & Hs & Hc).
    unfold level_ok. cbv zeta. cbn [Opt.levels Opt.intersections].
    rewrite E1, E2. split; [exact Hne |]. split; [exact Hnd' |].
    split; [| exact Hc].
    intros s Hin. destruct (Hs s Hin) as (Ha & Hb & (w & Hw & HG)).
    split; [exact Ha |]. split; [exact Hb |].
    exists w. split; [now apply Hold | exact HG]. }
  exists Sk, ver, inters. split; [exact Hrun |]. split.
  - intros Hne. split.
    { destruct Sk as [| s0 Sk]; [contradiction |].
      apply (simplex_ok_dim positions radius radius_long nb nb_length k s0).
      apply HSk_ok. now left. }
    split.
    + split; [exact Hnb |]. cbn [Opt.levels Opt.intersections].
      split; [rewrite length_app; cbn [length]; lia |].
      split; [lia |]. split.
      { intros s. rewrite app_nth1 by lia. apply H1. }
      split; [| split; [exact Hint' |];
                split; [rewrite app_nth1 by lia; assumption |];
                split; [rewrite app_nth1 by lia; assumption |];
                intros j Hj; destruct (Nat.eq_dec j k) as [-> | Hjk];
                [exact Hover | apply Hov; lia]].
      intros j Hj. destruct (Nat.eq_dec j k) as [-> | Hjk].
      * unfold level_ok. cbv zeta. cbn [Opt.levels Opt.intersections].
        replace (@nth level k (Opt.levels st ++ [Sk]) []) with Sk
          by (rewrite <- Hlen; now rewrite nth_middle).
        rewrite app_nth1 by lia. fold prev.
        split; [exact Hne |]. split; [exact Hnd |]. split; [| exact Hvis].
        intros s Hs. destruct (HSk s Hs) as [Ha Hb].
        split; [now apply HSk_ok |]. split; assumption.
      * destruct (Hkeep j ltac:(lia) [Sk]) as [E1 E2].
        apply Hlv_keep; [lia | exact E1 | exact E2].
    + cbn [Opt.verified]. intros key Hkey. apply Hverd in Hkey.
      destruct Hkey as [Hkey | (cand & Hcand & ->)].
      * apply Hver in Hkey. lia.
      * assert (Hok : simplex_ok positions k cand).
        { replace k with (k - 1 + 1)%nat by lia.
          apply (cands_Opt_ok positions radius radius_long nb nb_length
                   nb_spec (k - 1) prev cand Hprev Hcand). }
        destruct Hok as (Hl & Hn & _).
        rewrite frozenset_length by exact Hn. lia.
  - intros ->. split.
    + split; [exact Hnb |]. cbn [Opt.levels Opt.intersections].
      split; [exact Hlen |]. split; [exact Hk |]. split; [exact H1 |].
      split.
      * intros j Hj. apply Hlv_keep; [exact Hj | reflexivity | reflexivity].
      * split; [| split; [assumption | split; assumption]].
        intros key w Hw. destruct (Hnew key w Hw) as [H | (s & [] & _)].
        now apply Hint.
    + intros cand Hcand. destruct (Hvis cand Hcand) as [(s & [] & _) | H].
      exact H.
Qed.

(** The loop of [simk] returns, in a state of which [run_fin] holds. *)
Lemma simk_loop_Opt_spec (fuel : nat) (st : Opt.state) :
  run_inv 2 st -> (N positions < fuel)%nat ->
  exists st' k',
    Opt.simk_loop positions radius maxK fuel 2 st = Some (Ok st') /\
    run_fin k' st'.
Proof.
  intros Hst Hfuel.
  apply (simk_loop_Opt_rule positions radius maxK radius_long nb nb_length
           run_inv run_fin); try assumption; try lia.
  - intros k st0 [Hcore _] Ho. split; [exact Hcore | now left].
  - intros k st0 Hinv Hover.
    destruct (run_step k st0 Hinv Hover)
      as (Sk & ver & inters & Hrun & Hne & He).
    exists Sk, ver, inters. split; [exact Hrun |]. split; [exact Hne |].
    intros E. destruct (He E) as [Hcore Hrej].
    split; [exact Hcore | right; exact Hrej].
Qed.

End Run.


(** A run of [CechComplex.cech] returns in a state of which [run_fin]
    holds, whatever is known of the recorded points and of the rejected
    candidates. *)
Lemma run_Opt_spec (positions : list point) (radius : list R)
    (maxK : option Z) (G : list nat -> point -> Prop)
    (Rej : list nat -> Prop) (fuel : nat) :
  (length positions <= length radius)%nat ->
  (forall inters s c p,
      in_range positions (s ++ [c]) -> NoDup (s ++ [c]) ->
      (2 <= length s)%nat ->
      ((2 < length s)%nat -> memo_has G inters s) ->
      Opt.verify positions radius inters (s ++ [c]) = Ok (Some p) ->
      G (frozenset (s ++ [c])) p) ->
  (forall inters s c,
      in_range positions (s ++ [c]) -> NoDup (s ++ [c]) ->
      (2 <= length s)%nat ->
      ((2 < length s)%nat -> memo_has G inters s) ->
      Opt.verify positions radius inters (s ++ [c]) = Ok None ->
      Rej (frozenset (s ++ [c]))) ->
  (N positions < fuel)%nat ->
  exists nb S1 st k,
    sim1 positions radius = Ok (nb, S1) /\
    (forall a b, In b (nth a nb []) <->
                 (a < N positions)%nat /\ (b < N positions)%nat /\
                 a <> b /\ adj positions radius a b) /\
    (forall s, In s S1 <->
               exists i j, s = [i; j] /\ (i < j < N positions)%nat /\
                           adj positions radius i j) /\
    Opt.run positions radius maxK fuel = Some (Ok st) /\
    run_fin positions maxK nb S1 G Rej k st.
Proof.
  intros Hlen HG HRej Hfuel.
  destruct (sim1_spec positions radius Hlen)
    as (nb & S1 & Hsim & Hnbl & Hsorted & Hnb & HS1).
  assert (Hinit : run_inv positions maxK nb S1 G Rej 2
                    (Opt.mkState nb [sim0 positions; S1] [] [])).
  { split; [| intros key H; discriminate H].
    split; [reflexivity |]. split; [reflexivity |]. split; [lia |].
    split.
    { intros s Hs. apply (sim0_ok_1 positions radius S1 s HS1 Hs). }
    split; [intros j Hj; lia |].
    split; [intros key w H; discriminate H |].
    split; [reflexivity |]. split; [reflexivity | intros j Hj; lia]. }
  destruct (simk_loop_Opt_spec positions radius maxK Hlen nb Hnbl Hnb S1
              G Rej HG HRej fuel _ Hinit Hfuel) as (st & k & Hrun & Hfin).
  exists nb, S1, st, k. split; [exact Hsim |]. split; [exact Hnb |].
  split; [exact HS1 |]. split; [| exact Hfin].
  unfold Opt.run. rewrite Hsim. exact Hrun.
Qed.

Lemma sim0_ok (positions : list point) (s : simplex) :
  In s (sim0 positions) -> simplex_ok positions 0 s.
Proof.
  unfold sim0. intros H. apply in_map_iff in H.
  destruct H as (i & <- & Hi). apply in_seq in Hi.
  split; [reflexivity |]. split.
  - repeat constructor. intros [].
  - intros c [<- | []]. lia.
Qed.

(** The simplices of every level of a state of which [run_core] holds. *)
Lemma run_core_simplex_ok (positions : list point) (maxK : option Z)
    (nb : list (list nat)) (S1 : level) (G : list nat -> point -> Prop)
    (Rej : list nat -> Prop) (k : nat) (st : Opt.state) :
  run_core positions maxK nb S1 G Rej k st ->
  forall j s, In s (nth j (Opt.levels st) []) -> simplex_ok positions j s.
Proof.
  intros (_ & Hlen & Hk & H1 & Hlv & _ & H00 & _) j s Hs.
  destruct (Nat.lt_ge_cases j k) as [Hlt | Hge].
  - destruct j as [| [| j]].
    + apply sim0_ok. now rewrite <- H00.
    + now apply H1.
    + destruct (Hlv (S (S j))) as (_ & _ & H & _); [lia |]. now apply H.
  - rewrite nth_overflow in Hs by lia. destruct Hs.
Qed.

(** In exact arithmetic.  The complex returned by [CechComplex.cech] is well formed: the
    construction returns, every simplex of the level [j] lists [j + 1]
    distinct cells, all of them indices of balls, and there are at most
    [max 2 N] levels. *)
Theorem cech_levels_well_formed :
  forall (positions : list point) (radius : list R) (maxK : option Z)
         (fuel : nat),
    (length positions <= length radius)%nat ->
    (N positions < fuel)%nat ->
    exists S,
      Opt.cech positions radius maxK fuel = Some (Ok S) /\
      (length S <= Nat.max 2 (N positions))%nat /\
      forall j s, In s (nth j S []) ->
                  length s = (j + 1)%nat /\ NoDup s /\
                  forall c, In c s -> (c < N positions)%nat.
Proof.
  intros positions radius maxK fuel Hlen Hfuel.
  destruct (run_Opt_spec positions radius maxK (fun _ _ => True)
              (fun _ => True) fuel Hlen)
    as (nb & S1 & st & k & Hsim & Hnb & HS1 & Hrun & Hcore & _);
    [auto | auto | exact Hfuel |].
  exists (Opt.levels st).
  split; [unfold Opt.cech; now rewrite Hrun |].
  pose proof (run_core_simplex_ok positions maxK nb S1 _ _ k st Hcore) as Hok.
  split; [| exact Hok].
  destruct Hcore as (_ & Hk & Hk2 & _ & Hlv & _).
  destruct (Nat.eq_dec k 2) as [E | E]; [lia |].
  destruct (Hlv (k - 1)%nat) as (Hne & _ & Hs & _); [lia |].
  destruct (nth (k - 1) (Opt.levels st) []) as [| s0 l] eqn:E0;
    [contradiction |].
  destruct (Hs s0 (or_introl eq_refl)) as ((Hl & Hnd & Hr) & _).
  pose proof (NoDup_below_length s0 (N positions) Hnd Hr). lia.
Qed.

Lemma cech_levels_well_formed_witness :
  exists S,
    Opt.cech positions_B radius_B None 4 = Some (Ok S) /\
    (length S <= Nat.max 2 (N positions_B))%nat /\
    forall j s, In s (nth j S []) ->
                length s = (j + 1)%nat /\ NoDup s /\
                forall c, In c s -> (c < N positions_B)%nat.
Proof.
  apply (cech_levels_well_formed positions_B radius_B None 4);
    cbn; lia.
Defined.

(** More fuel does not change the result of a run that returns. *)
Lemma simk_loop_Opt_fuel (positions : list point) (radius : list R)
    (maxK : option Z) (f1 f2 k : nat) (st : Opt.state) (r : res Opt.state) :
  Opt.simk_loop positions radius maxK f1 k st = Some r ->
  (f1 <= f2)%nat ->
  Opt.simk_loop positions radius maxK f2 k st = Some r.
Proof.
  revert f2 k st. induction f1 as [| f1 IH]; intros f2 k st H Hle;
    [discriminate |].
  destruct f2 as [| f2]; [lia |]. cbn [Opt.simk_loop] in *.
  destruct (over_maxK maxK k); [exact H |].
  destruct (Opt.simk_level positions radius st k)
    as [[[Sk ver] inters] | e]; [| exact H].
  destruct (negb (length Sk =? 0)%nat); [| exact H].
  apply IH; [exact H | lia].
Qed.

(** X7. [CechComplex] keeps every set of cells at most once: in a level of
    dimension 2 or more no two simplices have the same vertices. *)
Theorem cech_levels_without_repetition :
  forall (positions : list point) (radius : list R) (maxK : option Z)
         (fuel : nat) (S : list level),
    (length positions <= length radius)%nat ->
    Opt.cech positions radius maxK fuel = Some (Ok S) ->
    forall j, (2 <= j)%nat -> NoDup (map frozenset (nth j S [])).
Proof.
  intros positions radius maxK fuel S Hlen Hcech j Hj.
  assert (Hmono : forall f1 f2 st1,
             Opt.run positions radius maxK f1 = Some (Ok st1) ->
             (f1 <= f2)%nat ->
             Opt.run positions radius maxK f2 = Some (Ok st1)).
  { intros f1 f2 st1. unfold Opt.run.
    destruct (sim1 positions radius) as [[nb S1] | e]; [| discriminate].
    apply simk_loop_Opt_fuel. }
  destruct (run_Opt_spec positions radius maxK (fun _ _ => True)
              (fun _ => True) (fuel + N positions + 1) Hlen)
    as (nb & S1 & st & k & _ & _ & _ & Hrun & Hcore & _);
    [auto | auto | lia |].
  assert (HS : S = Opt.levels st).
  { unfold Opt.cech in Hcech.
    destruct (Opt.run positions radius maxK fuel) as [[st1 | e] |] eqn:E;
      try discriminate.
    injection Hcech as <-.
    rewrite (Hmono fuel (fuel + N positions + 1)%nat st1 E) in Hrun by lia.
    congruence. }
  subst S. destruct Hcore as (_ & Hk & _ & _ & Hlv & _).
  destruct (Nat.lt_ge_cases j k) as [Hlt | Hge].
  - destruct (Hlv j) as (_ & Hnd & _); [lia | exact Hnd].
  - rewrite nth_overflow by lia. constructor.
Qed.

Lemma cech_levels_without_repetition_witness :
  NoDup (map frozenset
           (nth 2 [[[0]; [1]; [2]]; [[0; 1]; [0; 2]; [1; 2]]; [[0; 1; 2]]]
              []))%nat.
Proof.
  apply (cech_levels_without_repetition positions_B radius_B None 4 _);
    [cbn; lia | | lia].
  unfold Opt.cech. change 4%nat with (2 + 2)%nat.
  rewrite (run_B None 2 eq_refl eq_refl). reflexivity.
Defined.


(** ** The simplices of both constructions have common points *)

(** The point [p] lies in the disc of every cell of [cells], as
    [isPointInsideCell] tests it. *)
Definition inside_all (positions : list point) (radius : list R) (p : point)
    (cells : simplex) : Prop :=
  forall c, In c cells -> isPointInsideCell positions radius p c = Ok true.

Lemma inside_all_common (positions : list point) (radius : list R)
    (p : point) (cells : simplex) :
  (length positions <= length radius)%nat -> in_range positions cells ->
  (inside_all positions radius p cells <->
   common_point positions radius p cells).
Proof.
  intros Hlen Hr. unfold inside_all, common_point.
  split; intros H c Hc; specialize (H c Hc);
    rewrite (isPointInsideCell_eq positions radius Hlen p c (Hr c Hc)) in *;
    congruence.
Qed.

Lemma rad_nonneg (radius : list R) (c : nat) :
  (forall r, In r radius -> 0 <= r) -> 0 <= rad radius c.
Proof.
  intros H. unfold rad.
  destruct (nth_in_or_default c radius 0) as [Hin | ->]; [auto | lra].
Qed.

Lemma common_point_frozenset (positions : list point) (radius : list R)
    (p : point) (s : simplex) :
  common_point positions radius p (frozenset s) <->
  common_point positions radius p s.
Proof.
  unfold common_point. split; intros H c Hc; apply H;
    now apply frozenset_In.
Qed.

(** [sim1] pairs exactly the cells whose discs meet. *)
Lemma adj_iff_common (positions : list point) (radius : list R) (a b : nat) :
  (forall r, In r radius -> 0 <= r) ->
  (adj positions radius a b <->
   exists p, common_point positions radius p [a; b]).
Proof.
  intros Hpos. split.
  - intros H.
    destruct (adj_common positions radius a b (rad_nonneg radius a Hpos)
                (rad_nonneg radius b Hpos) H) as (p & Ha & Hb).
    exists p. intros c [<- | [<- | []]]; assumption.
  - intros [p Hp].
    apply (common_adj positions radius p a b); try apply rad_nonneg;
      try assumption; apply Hp; cbn; tauto.
Qed.

(** In exact arithmetic.  With radii that are not negative, [sim1] puts in level 1 exactly the
    pairs [[i, j]], [i < j], of balls whose closed discs have a common
    point, and in [neighbor[a]] exactly the other balls whose disc meets the
    disc of [a]. *)
Theorem sim1_pairs_the_discs_that_meet :
  forall (positions : list point) (radius : list R),
    (length positions <= length radius)%nat ->
    (forall r, In r radius -> 0 <= r) ->
    exists nb S1,
      sim1 positions radius = Ok (nb, S1) /\
      (forall s, In s S1 <->
                 exists i j, s = [i; j] /\ (i < j < N positions)%nat /\
                             exists p, inside_all positions radius p [i; j]) /\
      (forall a b, In b (nth a nb []) <->
                   (a < N positions)%nat /\ (b < N positions)%nat /\
                   a <> b /\
                   exists p, inside_all positions radius p [a; b]).
Proof.
  intros positions radius Hlen Hpos.
  destruct (sim1_spec positions radius Hlen)
    as (nb & S1 & Hsim & _ & _ & Hnb & HS1).
  assert (Hadj : forall a b, (a < N positions)%nat -> (b < N positions)%nat ->
                   (adj positions radius a b <->
                    exists p, inside_all positions radius p [a; b])).
  { intros a b Ha Hb. rewrite (adj_iff_common positions radius a b Hpos).
    assert (Hr : in_range positions [a; b]).
    { intros c [<- | [<- | []]]; assumption. }
    split; intros [p Hp]; exists p;
      now apply (inside_all_common positions radius p [a; b] Hlen Hr). }
  exists nb, S1. split; [exact Hsim |]. split.
  - intros s. rewrite HS1. split.
    + intros (i & j & -> & Hij & H). exists i, j.
      split; [reflexivity |]. split; [exact Hij |]. apply Hadj; [lia | lia |].
      exact H.
    + intros (i & j & -> & Hij & H). exists i, j.
      split; [reflexivity |]. split; [exact Hij |]. apply Hadj; [lia | lia |].
      exact H.
  - intros a b. rewrite Hnb. split.
    + intros (Ha & Hb & Hne & H). repeat (split; [assumption |]).
      now apply Hadj.
    + intros (Ha & Hb & Hne & H). repeat (split; [assumption |]).
      now apply Hadj.
Qed.

Lemma sim1_pairs_the_discs_that_meet_witness :
  exists nb S1,
    sim1 positions_B radius_B = Ok (nb, S1) /\
    (forall s, In s S1 <->
               exists i j, s = [i; j] /\ (i < j < N positions_B)%nat /\
                           exists p, inside_all positions_B radius_B p [i; j]) /\
    (forall a b, In b (nth a nb []) <->
                 (a < N positions_B)%nat /\ (b < N positions_B)%nat /\
                 a <> b /\
                 exists p, inside_all positions_B radius_B p [a; b]).
Proof.
  apply (sim1_pairs_the_discs_that_meet positions_B radius_B).
  - cbn. lia.
  - unfold radius_B. intros r [<- | [<- | [<- | []]]]; lra.
Defined.

(** What [run_Opt_spec] gives holds of every run that returns, whatever
    fuel it was given. *)
Lemma run_Opt_returned (positions : list point) (radius : list R)
    (maxK : option Z) (G : list nat -> point -> Prop)
    (Rej : list nat -> Prop) (fuel : nat) (st : Opt.state) :
  (length positions <= length radius)%nat ->
  (forall inters s c p,
      in_range positions (s ++ [c]) -> NoDup (s ++ [c]) ->
      (2 <= length s)%nat ->
      ((2 < length s)%nat -> memo_has G inters s) ->
      Opt.verify positions radius inters (s ++ [c]) = Ok (Some p) ->
      G (frozenset (s ++ [c])) p) ->
  (forall inters s c,
      in_range positions (s ++ [c]) -> NoDup (s ++ [c]) ->
      (2 <= length s)%nat ->
      ((2 < length s)%nat -> memo_has G inters s) ->
      Opt.verify positions radius inters (s ++ [c]) = Ok None ->
      Rej (frozenset (s ++ [c]))) ->
  Opt.run positions radius maxK fuel = Some (Ok st) ->
  exists nb S1 k,
    sim1 positions radius = Ok (nb, S1) /\
    (forall a b, In b (nth a nb []) <->
                 (a < N positions)%nat /\ (b < N positions)%nat /\
                 a <> b /\ adj positions radius a b) /\
    (forall s, In s S1 <->
               exists i j, s = [i; j] /\ (i < j < N positions)%nat /\
                           adj positions radius i j) /\
    run_fin positions maxK nb S1 G Rej k st.
Proof.
  intros Hlen HG HRej Hrun.
  destruct (run_Opt_spec positions radius maxK G Rej
              (fuel + N positions + 1) Hlen HG HRej)
    as (nb & S1 & st' & k & Hsim & Hnb & HS1 & Hrun' & Hfin); [lia |].
  exists nb, S1, k. repeat (split; [assumption |]).
  assert (E : Opt.run positions radius maxK (fuel + N positions + 1)
              = Some (Ok st)).
  { revert Hrun. unfold Opt.run. rewrite Hsim. intros Hrun.
    apply (simk_loop_Opt_fuel positions radius maxK fuel); [exact Hrun | lia]. }
  rewrite E in Hrun'. injection Hrun' as <-. exact Hfin.
Qed.

(** In exact arithmetic.  With radii that are not negative, every simplex of every level
    built by [CechComplex] is a set of balls whose closed discs have a
    common point; for a simplex of dimension 2 or more, the point recorded
    in [self.intersections] under its set of vertices is such a point. *)
Theorem cech_simplices_have_common_points :
  forall (positions : list point) (radius : list R) (maxK : option Z)
         (fuel : nat) (st : Opt.state),
    (length positions <= length radius)%nat ->
    (forall r, In r radius -> 0 <= r) ->
    Opt.run positions radius maxK fuel = Some (Ok st) ->
    (forall j s, In s (nth j (Opt.levels st) []) ->
                 exists p, inside_all positions radius p s) /\
    (forall j s, (2 <= j)%nat -> In s (nth j (Opt.levels st) []) ->
                 exists w,
                   dict_get (Opt.intersections st) (frozenset s) = Some w /\
                   inside_all positions radius w s).
Proof.
  intros positions radius maxK fuel st Hlen Hpos Hrun.
  destruct (run_Opt_returned positions radius maxK
              (fun key p => common_point positions radius p key)
              (fun _ => True) fuel st Hlen)
    as (nb & S1 & k & Hsim & Hnb & HS1 & Hcore & _); [| auto | exact Hrun |].
  { intros inters s c p Hr Hnd Hl2 Hmemo Hv.
    apply common_point_frozenset.
    apply (verify_Opt_sound positions radius Hlen inters (s ++ [c]) p Hr);
      [intros; now apply rad_nonneg | | exact Hv].
    rewrite removelast_last. intros w H3 Hw.
    destruct (Hmemo H3) as (w' & Hw' & HG).
    assert (w' = w) by congruence. subst w'.
    now apply common_point_frozenset. }
  pose proof (run_core_simplex_ok positions maxK nb S1 _ _ k st Hcore) as Hok.
  assert (Hmemo : forall j s, (2 <= j)%nat ->
                    In s (nth j (Opt.levels st) []) ->
                    exists w,
                      dict_get (Opt.intersections st) (frozenset s) = Some w /\
                      inside_all positions radius w s).
  { intros j s Hj Hs. destruct Hcore as (_ & Hk & _ & _ & Hlv & _).
    destruct (Nat.lt_ge_cases j k) as [Hlt | Hge].
    - destruct (Hlv j) as (_ & _ & H & _); [lia |].
      destruct (H s Hs) as ((_ & _ & Hr) & _ & (w & Hw & HG)).
      exists w. split; [exact Hw |].
      apply (inside_all_common positions radius w s Hlen Hr).
      now apply common_point_frozenset.
    - rewrite nth_overflow in Hs by lia. destruct Hs. }
  split; [| exact Hmemo].
  intros j s Hs. destruct (Hok j s Hs) as (Hl & _ & Hr).
  destruct j as [| [| j]].
  - destruct s as [| c [| ? ?]]; try discriminate.
    exists (px positions c, py positions c).
    apply (inside_all_common positions radius _ [c] Hlen Hr).
    intros c' [<- | []]. unfold in_cell. cbn [fst snd].
    apply Rleb_true_iff.
    pose proof (pow2_ge_0 (rad radius c)). nra.
  - destruct Hcore as (_ & _ & _ & _ & _ & _ & _ & H01 & _).
    rewrite H01 in Hs. apply HS1 in Hs.
    destruct Hs as (a & b & -> & Hab & Hadj).
    apply (adj_iff_common positions radius a b Hpos) in Hadj.
    destruct Hadj as [p Hp]. exists p.
    now apply (inside_all_common positions radius p [a; b] Hlen Hr).
  - destruct (Hmemo (S (S j)) s) as (w & _ & Hw); [lia | exact Hs |].
    exists w. exact Hw.
Qed.

Lemma cech_simplices_have_common_points_witness :
  exists w,
    dict_get [([0; 1; 2]%nat, (0, 0))] (frozenset [0; 1; 2]%nat) = Some w /\
    inside_all positions_B radius_B w [0; 1; 2]%nat.
Proof.
  refine (proj2 (cech_simplices_have_common_points positions_B radius_B
                   None 4 _ _ _ (run_B None 2 eq_refl eq_refl))
            2%nat [0; 1; 2]%nat _ _).
  - cbn. lia.
  - unfold radius_B. intros r [<- | [<- | [<- | []]]]; lra.
  - lia.
  - cbn. tauto.
Defined.

Lemma simk_loop_LE_fuel (positions : list point) (radius : list R)
    (maxK : option Z) (nb : list (list nat)) (f1 f2 k : nat)
    (S : list level) (r : res (list level)) :
  LE.simk_loop positions radius maxK f1 nb k S = Some r ->
  (f1 <= f2)%nat ->
  LE.simk_loop positions radius maxK f2 nb k S = Some r.
Proof.
  revert f2 k S. induction f1 as [| f1 IH]; intros f2 k S H Hle;
    [discriminate |].
  destruct f2 as [| f2]; [lia |]. cbn [LE.simk_loop] in *.
  destruct (over_maxK maxK k); [exact H |].
  destruct (LE.simk_level positions radius nb k) as [Sk | e]; [| exact H].
  destruct (length Sk =? 0)%nat; [exact H |].
  apply IH; [exact H | lia].
Qed.

(** The complex returned by [CechComplexLE.cech]: the levels 0 and 1, then
    the levels [level_LE] up to the first that is over the bound or
    empty. *)
Lemma cech_LE_returned (positions : list point) (radius : list R)
    (maxK : option Z) (fuel : nat) (S : list level) :
  (length positions <= length radius)%nat ->
  LE.cech positions radius maxK fuel = Some (Ok S) ->
  exists nb S1 m,
    sim1 positions radius = Ok (nb, S1) /\
    length nb = N positions /\
    (forall a, StronglySorted lt (nth a nb [])) /\
    (forall a b, In b (nth a nb []) <->
                 (a < N positions)%nat /\ (b < N positions)%nat /\
                 a <> b /\ adj positions radius a b) /\
    (forall s, In s S1 <->
               exists i j, s = [i; j] /\ (i < j < N positions)%nat /\
                           adj positions radius i j) /\
    S = [sim0 positions; S1] ++ map (level_LE positions radius nb) (seq 2 m) /\
    (forall j, (2 <= j < 2 + m)%nat ->
               over_maxK maxK j = false /\
               level_LE positions radius nb j <> []) /\
    (over_maxK maxK (2 + m) = true \/
     level_LE positions radius nb (2 + m) = []).
Proof.
  intros Hlen Hcech.
  destruct (sim1_spec positions radius Hlen)
    as (nb & S1 & Hsim & Hnbl & Hsorted & Hnb & HS1).
  destruct (simk_loop_LE_spec positions radius maxK Hlen nb Hnbl Hsorted Hnb
              (fuel + N positions + 1) 2 [sim0 positions; S1])
    as (m & Hrun & Hall & Hend); [lia | lia |].
  exists nb, S1, m. repeat (split; [assumption |]).
  split; [| split; assumption].
  unfold LE.cech in Hcech. rewrite Hsim in Hcech.
  rewrite (simk_loop_LE_fuel positions radius maxK nb fuel
             (fuel + N positions + 1) 2 _ _ Hcech) in Hrun by lia.
  congruence.
Qed.

Lemma nth_levels_LE (positions : list point) (radius : list R)
    (nb : list (list nat)) (S1 : level) (m j : nat) :
  @nth level j
    ([sim0 positions; S1] ++ map (level_LE positions radius nb) (seq 2 m)) []
  = match j with
    | O => sim0 positions
    | 1%nat => S1
    | _ => if (j <? 2 + m)%nat then level_LE positions radius nb j else []
    end.
Proof.
  destruct j as [| [| j]]; [reflexivity | reflexivity |].
  cbn [app nth].
  destruct (Nat.ltb_spec (S (S j)) (2 + m)) as [Hlt | Hge].
  - rewrite (nth_indep _ [] (level_LE positions radius nb 0))
      by (rewrite length_map, length_seq; lia).
    rewrite map_nth, seq_nth by lia. reflexivity.
  - apply nth_overflow. rewrite length_map, length_seq. lia.
Qed.

(** In exact arithmetic.  With radii that are not negative, every simplex of every level
    built by [CechComplexLE] is a set of balls whose closed discs have a
    common point. *)
Theorem cechLE_simplices_have_common_points :
  forall (positions : list point) (radius : list R) (maxK : option Z)
         (fuel : nat) (S : list level),
    (length positions <= length radius)%nat ->
    (forall r, In r radius -> 0 <= r) ->
    LE.cech positions radius maxK fuel = Some (Ok S) ->
    forall j s, In s (nth j S []) ->
                exists p, inside_all positions radius p s.
Proof.
  intros positions radius maxK fuel S Hlen Hpos Hcech j s Hs.
  destruct (cech_LE_returned positions radius maxK fuel S Hlen Hcech)
    as (nb & S1 & m & Hsim & Hnbl & Hsorted & Hnb & HS1 & -> & Hall & _).
  rewrite nth_levels_LE in Hs. destruct j as [| [| j]].
  - apply sim0_ok in Hs. destruct Hs as (Hl & _ & Hr).
    destruct s as [| c [| ? ?]]; try discriminate.
    exists (px positions c, py positions c).
    apply (inside_all_common positions radius _ [c] Hlen Hr).
    intros c' [<- | []]. unfold in_cell. cbn [fst snd].
    apply Rleb_true_iff.
    pose proof (pow2_ge_0 (rad radius c)). nra.
  - pose proof (sim0_ok_1 positions radius S1 s HS1 Hs) as (_ & _ & Hr).
    apply HS1 in Hs. destruct Hs as (a & b & -> & Hab & Hadj).
    apply (adj_iff_common positions radius a b Hpos) in Hadj.
    destruct Hadj as [p Hp]. exists p.
    now apply (inside_all_common positions radius p [a; b] Hlen Hr).
  - destruct (S (S j) <? 2 + m)%nat; [| destruct Hs].
    pose proof (level_LE_ok positions radius Hlen nb Hnbl Hsorted Hnb _ s Hs)
      as (_ & _ & Hr).
    unfold level_LE in Hs. apply filter_In in Hs. destruct Hs as [_ Hacc].
    unfold accepts_LE in Hacc.
    destruct (LE.verify positions radius s) as [[|] | e] eqn:Ev;
      try discriminate.
    destruct (verify_LE_sound positions radius Hlen s Hr) as [p Hp];
      [intros; now apply rad_nonneg | exact Ev |].
    exists p. now apply (inside_all_common positions radius p s Hlen Hr).
Qed.

Lemma cechLE_simplices_have_common_points_witness :
  exists p, inside_all positions_B radius_B p [1; 0; 2]%nat.
Proof.
  refine (cechLE_simplices_have_common_points positions_B radius_B None 4
            _ _ _ (cech_LE_B None 2 eq_refl eq_refl) 2%nat [1; 0; 2]%nat _).
  - cbn. lia.
  - unfold radius_B. intros r [<- | [<- | [<- | []]]]; lra.
  - cbn. tauto.
Defined.

(** In exact arithmetic.  The complex returned by [CechComplexLE.cech] is well formed: the
    construction returns, every simplex of the level [j] lists [j + 1]
    distinct cells, all of them indices of balls, and there are at most
    [max 2 N] levels. *)
Theorem cechLE_levels_well_formed :
  forall (positions : list point) (radius : list R) (maxK : option Z)
         (fuel : nat),
    (length positions <= length radius)%nat ->
    (N positions < fuel)%nat ->
    exists S,
      LE.cech positions radius maxK fuel = Some (Ok S) /\
      (length S <= Nat.max 2 (N positions))%nat /\
      forall j s, In s (nth j S []) ->
                  length s = (j + 1)%nat /\ NoDup s /\
                  forall c, In c s -> (c < N positions)%nat.
Proof.
  intros positions radius maxK fuel Hlen Hfuel.
  destruct (sim1_spec positions radius Hlen)
    as (nb & S1 & Hsim & Hnbl & Hsorted & Hnb & HS1).
  destruct (simk_loop_LE_spec positions radius maxK Hlen nb Hnbl Hsorted Hnb
              fuel 2 [sim0 positions; S1])
    as (m & Hrun & Hall & Hend); [lia | lia |].
  eexists. split; [unfold LE.cech; rewrite Hsim; exact Hrun |].
  split.
  - rewrite length_app, length_map, length_seq. cbn [length].
    destruct m as [| m]; [lia |].
    destruct (Hall (2 + m)%nat) as [_ Hne]; [lia |].
    destruct (level_LE positions radius nb (2 + m)) as [| s0 l] eqn:E;
      [contradiction |].
    assert (Hin : In s0 (level_LE positions radius nb (2 + m))).
    { rewrite E. now left. }
    apply (level_LE_ok positions radius Hlen nb Hnbl Hsorted Hnb) in Hin.
    apply (simplex_ok_dim positions radius Hlen nb Hnbl) in Hin. lia.
  - intros j s Hs. rewrite nth_levels_LE in Hs.
    change (simplex_ok positions j s).
    destruct j as [| [| j]].
    + now apply sim0_ok.
    + apply (sim0_ok_1 positions radius S1 s HS1 Hs).
    + destruct (S (S j) <? 2 + m)%nat; [| destruct Hs].
      apply (level_LE_ok positions radius Hlen nb Hnbl Hsorted Hnb _ s Hs).
Qed.

Lemma cechLE_levels_well_formed_witness :
  exists S,
    LE.cech positions_B radius_B None 4 = Some (Ok S) /\
    (length S <= Nat.max 2 (N positions_B))%nat /\
    forall j s, In s (nth j S []) ->
                length s = (j + 1)%nat /\ NoDup s /\
                forall c, In c s -> (c < N positions_B)%nat.
Proof.
  apply (cechLE_levels_well_formed positions_B radius_B None 4);
    cbn; lia.
Defined.


(** ** Segments and circles in a family of discs *)

(** The point at [s] on the segment from [q] to [e]. *)
Definition seg (q e : point) (s : R) : point :=
  (fst q + s * (fst e - fst q), snd q + s * (snd e - snd q)).

(** A disc is convex. *)
Lemma segment_convex (ax ay rho : R) (q e : point) (s : R) :
  0 <= s <= 1 -> pw ax ay rho q <= 0 -> pw ax ay rho e <= 0 ->
  pw ax ay rho (seg q e s) <= 0.
Proof.
  intros Hs Hq He. unfold pw, seg in *. cbn [fst snd].
  destruct q as [qx qy], e as [ex ey]. cbn [fst snd] in *.
  assert (E : (ax - (qx + s * (ex - qx))) ^ 2 +
              (ay - (qy + s * (ey - qy))) ^ 2 - rho ^ 2 =
              (1 - s) * ((ax - qx) ^ 2 + (ay - qy) ^ 2 - rho ^ 2) +
              s * ((ax - ex) ^ 2 + (ay - ey) ^ 2 - rho ^ 2) -
              s * (1 - s) * ((ex - qx) ^ 2 + (ey - qy) ^ 2)) by ring.
  rewrite E.
  assert (0 <= s * (1 - s) * ((ex - qx) ^ 2 + (ey - qy) ^ 2)).
  { apply Rmult_le_pos; [apply Rmult_le_pos; lra | apply sum_sq_nonneg]. }
  assert ((1 - s) * ((ax - qx) ^ 2 + (ay - qy) ^ 2 - rho ^ 2) <= 0).
  { replace 0 with ((1 - s) * 0) by ring.
    apply Rmult_le_compat_l; lra. }
  assert (s * ((ax - ex) ^ 2 + (ay - ey) ^ 2 - rho ^ 2) <= 0).
  { replace 0 with (s * 0) by ring. apply Rmult_le_compat_l; lra. }
  lra.
Qed.

(** A segment from a point of a disc to a point outside meets the
    circle. *)
Lemma segment_crossing (cx cy r : R) (q e : point) :
  pw cx cy r q <= 0 -> 0 < pw cx cy r e ->
  exists s, 0 <= s <= 1 /\ pw cx cy r (seg q e s) = 0.
Proof.
  intros Hq He. destruct q as [qx qy], e as [ex ey].
  unfold pw, seg in *. cbn [fst snd] in *.
  set (a := (ex - qx) ^ 2 + (ey - qy) ^ 2).
  set (b := (qx - cx) * (ex - qx) + (qy - cy) * (ey - qy)).
  set (c0 := (cx - qx) ^ 2 + (cy - qy) ^ 2 - r ^ 2) in *.
  assert (E1 : (cx - ex) ^ 2 + (cy - ey) ^ 2 - r ^ 2 = a + 2 * b + c0).
  { unfold a, b, c0. ring. }
  rewrite E1 in He.
  assert (Ha0 : 0 <= a) by apply sum_sq_nonneg.
  assert (Ha : 0 < a).
  { destruct (Req_dec_T a 0) as [E | E]; [| lra]. exfalso.
    assert (E' : Rsqr (ex - qx) + Rsqr (ey - qy) = 0).
    { rewrite <- E. unfold a, Rsqr. ring. }
    apply Rplus_sqr_eq_0 in E'. destruct E' as [Ex Ey].
    unfold b in He. rewrite Ex, Ey in He. lra. }
  assert (HD : 0 <= b ^ 2 - a * c0) by nra.
  set (sq := sqrt (b ^ 2 - a * c0)).
  assert (Hsq : 0 <= sq) by apply sqrt_pos.
  assert (Hsq2 : sq ^ 2 = b ^ 2 - a * c0) by (apply pow2_sqrt, HD).
  assert (Hab : 0 <= a + b) by nra.
  assert (Hsb : b <= sq).
  { destruct (Rle_dec b 0); [lra |]. apply sq_le_le; nra. }
  assert (Hsab : sq <= a + b).
  { apply sq_le_le; [exact Hsq | exact Hab |]. nra. }
  exists ((- b + sq) / a).
  assert (Hs : a * ((- b + sq) / a) = - b + sq) by (field; lra).
  set (s := (- b + sq) / a) in *.
  split.
  - split.
    + unfold s. apply Rmult_le_pos; [lra |].
      left. apply Rinv_0_lt_compat, Ha.
    + apply Rmult_le_reg_l with a; [exact Ha |]. lra.
  - assert (E2 : (cx - (qx + s * (ex - qx))) ^ 2 +
                 (cy - (qy + s * (ey - qy))) ^ 2 - r ^ 2 =
                 a * s ^ 2 + 2 * b * s + c0).
    { unfold a, b, c0. ring. }
    rewrite E2.
    assert (E3 : a * (a * s ^ 2 + 2 * b * s + c0) = 0).
    { replace (a * (a * s ^ 2 + 2 * b * s + c0))
        with ((a * s) ^ 2 + 2 * b * (a * s) + a * c0) by ring.
      rewrite Hs. nra. }
    apply Rmult_integral in E3. destruct E3; [lra | assumption].
Qed.

(** A circle through a point [q'] of a disc [X]: the disc of the circle
    lies in [X], or [q'] is on the circle of [X], or the circle leaves [X]
    at a first parameter [t1]. *)
Lemma circle_in_disc_cases (cx cy U V ax ay rho : R) :
  0 <= rho ->
  pw ax ay rho (cx + U, cy + V) <= 0 ->
  nrm (ax - cx) (ay - cy) + nrm U V <= rho
  \/ ((ax <> cx \/ ay <> cy) /\ pw ax ay rho (cx + U, cy + V) = 0)
  \/ ((ax <> cx \/ ay <> cy) /\
      exists t1, pw ax ay rho (cpt cx cy U V t1) = 0 /\
                 forall t, t <= t1 -> pw ax ay rho (cpt cx cy U V t) <= 0).
Proof.
  intros Hrho Hq.
  set (r := nrm U V). set (dd := nrm (ax - cx) (ay - cy)).
  assert (Hr : 0 <= r) by apply nrm_nonneg.
  assert (Hdd : 0 <= dd) by apply nrm_nonneg.
  assert (Hr2 : r ^ 2 = U ^ 2 + V ^ 2) by apply nrm_sq.
  assert (Hdd2 : dd ^ 2 = (ax - cx) ^ 2 + (ay - cy) ^ 2) by apply nrm_sq.
  set (K := U ^ 2 + V ^ 2 + (cx - ax) ^ 2 + (cy - ay) ^ 2 - rho ^ 2).
  set (al := U * (cx - ax) + V * (cy - ay)).
  set (be := - V * (cx - ax) + U * (cy - ay)).
  assert (HA : pw ax ay rho (cx + U, cy + V) = K + 2 * al).
  { unfold pw, K, al. cbn [fst snd]. ring. }
  assert (Hab : al ^ 2 + be ^ 2 = r ^ 2 * dd ^ 2).
  { rewrite Hr2, Hdd2. unfold al, be. ring. }
  assert (Hal : - (r * dd) <= al).
  { assert (H : - al <= r * dd).
    { replace (- al) with (U * (ax - cx) + V * (ay - cy))
        by (unfold al; ring).
      apply dot_le_nrm. }
    lra. }
  assert (HK : K = r ^ 2 + dd ^ 2 - rho ^ 2).
  { rewrite Hr2, Hdd2. unfold K. ring. }
  assert (Hpoly : forall t,
             pw ax ay rho (cpt cx cy U V t) * (1 + t ^ 2) =
             (K + 2 * al) * t ^ 2 + 2 * (2 * be) * t + (K - 2 * al)).
  { intros t. apply pw_cpt. }
  rewrite HA in *.
  destruct (Req_dec_T (K + 2 * al) 0) as [E0 | E0].
  - destruct (Req_dec_T ax cx) as [Ex | Ex];
      [destruct (Req_dec_T ay cy) as [Ey | Ey] |].
    + left. fold dd r.
      assert (dd = 0).
      { assert (dd ^ 2 = 0) by (rewrite Hdd2, Ex, Ey; ring). nra. }
      assert (al = 0) by (unfold al; rewrite Ex, Ey; ring).
      assert (r ^ 2 = rho ^ 2) by nra.
      assert (r <= rho) by (apply sq_le_le; lra). lra.
    + right. left. split; [now right | exact E0].
    + right. left. split; [now left | exact E0].
  - assert (HAneg : K + 2 * al < 0) by lra.
    destruct (Rle_dec ((2 * be) ^ 2 - (K + 2 * al) * (K - 2 * al)) 0)
      as [HD | HD].
    + left. fold dd r.
      assert (HD' : 4 * (r ^ 2 * dd ^ 2) <= K ^ 2).
      { rewrite <- Hab. nra. }
      assert (HKle : K + 2 * (r * dd) <= 0).
      { apply Rnot_lt_le. intros Hlt.
        assert (H1 : K < 2 * (r * dd)) by lra.
        assert (H2 : K ^ 2 < (2 * (r * dd)) ^ 2) by nra.
        nra. }
      apply sq_le_le; [lra | exact Hrho | nra].
    + right. right.
      assert (HDpos : 0 < (2 * be) ^ 2 - (K + 2 * al) * (K - 2 * al)) by lra.
      split.
      { destruct (Req_dec_T ax cx) as [Ex | Ex]; [| now left].
        destruct (Req_dec_T ay cy) as [Ey | Ey]; [| now right].
        exfalso.
        assert (al = 0) by (unfold al; rewrite Ex, Ey; ring).
        assert (be = 0) by (unfold be; rewrite Ex, Ey; ring).
        nra. }
      destruct (quadratic_first_root (K + 2 * al) (2 * be) (K - 2 * al)
                  HAneg HDpos) as [Hroot Hbefore].
      cbv zeta in Hroot, Hbefore.
      set (t1 := (- (2 * be) +
                  sqrt ((2 * be) ^ 2 - (K + 2 * al) * (K - 2 * al)))
                 / (K + 2 * al)) in *.
      exists t1. split.
      * specialize (Hpoly t1). rewrite Hroot in Hpoly.
        apply Rmult_integral in Hpoly.
        destruct Hpoly as [H | H]; [exact H |]. nra.
      * intros t Ht. specialize (Hbefore t Ht). specialize (Hpoly t).
        rewrite <- Hpoly in Hbefore.
        assert (0 < 1 + t ^ 2) by nra. nra.
Qed.

Section Family.

Variable positions : list point.
Variable radius : list R.

(** The power of [p] with respect to the circle of the cell [c]. *)
Definition pwc (c : nat) (p : point) : R :=
  pw (px positions c) (py positions c) (rad radius c) p.

(** The disc of [m] lies in the disc of [c]. *)
Definition nested (c m : nat) : Prop :=
  cdist positions c m + rad radius m <= rad radius c.

Lemma in_cell_pwc (p : point) (c : nat) :
  in_cell positions radius p c = true <-> pwc c p <= 0.
Proof. apply in_cell_pw. Qed.

Lemma cdist_refl (c : nat) : cdist positions c c = 0.
Proof.
  unfold cdist. apply sqrt_unique; [lra | ring].
Qed.

Lemma nested_refl (c : nat) : nested c c.
Proof. unfold nested. rewrite cdist_refl. lra. Qed.

Lemma nested_in_cell (c m : nat) (p : point) :
  nested c m -> 0 <= rad radius m ->
  in_cell positions radius p m = true -> in_cell positions radius p c = true.
Proof.
  intros Hn Hm Hp. unfold nested in Hn.
  pose proof (cdist_nonneg positions c m) as Hd.
  apply in_cell_nrm; [lra |].
  eapply Rle_trans; [apply (in_cell_far positions radius p m c Hm Hp) |].
  exact Hn.
Qed.

Lemma cdist_triangle (a b c : nat) :
  cdist positions a c <= cdist positions a b + cdist positions b c.
Proof.
  rewrite !cdist_nrm.
  replace (px positions a - px positions c)
    with ((px positions a - px positions b) +
          (px positions b - px positions c)) by ring.
  replace (py positions a - py positions c)
    with ((py positions a - py positions b) +
          (py positions b - py positions c)) by ring.
  apply nrm_triangle.
Qed.

Lemma nested_trans (a b c : nat) : nested a b -> nested b c -> nested a c.
Proof.
  unfold nested. intros H1 H2. pose proof (cdist_triangle a b c). lra.
Qed.

(** A circle through a common point [q'] of the discs of [F]: its disc
    lies in all of them, or a point of the circle lies on the circle of one
    of them, of another centre, and in all of them. *)
Lemma circle_in_family (d : nat) (U V : R) (F : simplex) :
  (forall c, In c F -> 0 <= rad radius c) ->
  nrm U V = rad radius d ->
  (forall c, In c F ->
     in_cell positions radius (px positions d + U, py positions d + V) c
     = true) ->
  (forall c, In c F -> nested c d)
  \/ exists x e,
       In x F /\
       (px positions x <> px positions d \/
        py positions x <> py positions d) /\
       pwc d e = 0 /\ pwc x e = 0 /\
       forall c, In c F -> in_cell positions radius e c = true.
Proof.
  intros Hpos Hr Hq.
  set (q' := (px positions d + U, py positions d + V)) in *.
  set (pt := cpt (px positions d) (py positions d) U V).
  assert (Hon : forall t, pwc d (pt t) = 0).
  { intros t. unfold pwc, pt. rewrite <- Hr. apply cpt_on_circle. }
  assert (Hq'on : pwc d q' = 0).
  { unfold pwc, pw, q'. cbn [fst snd]. rewrite <- Hr, nrm_sq. ring. }
  assert (Hrd : 0 <= rad radius d) by (rewrite <- Hr; apply nrm_nonneg).
  assert (H : (forall c, In c F -> nested c d)
              \/ (exists x, In x F /\
                    (px positions x <> px positions d \/
                     py positions x <> py positions d) /\
                    pwc x q' = 0)
              \/ (exists x t1, In x F /\
                    (px positions x <> px positions d \/
                     py positions x <> py positions d) /\
                    pwc x (pt t1) = 0 /\
                    forall c, In c F ->
                              forall t, t <= t1 -> pwc c (pt t) <= 0)).
  { clear Hq'on. induction F as [| z F IH]; [left; intros c [] |].
    assert (Hposz : 0 <= rad radius z) by (apply Hpos; now left).
    assert (Hqz : pwc z q' <= 0) by (apply in_cell_pwc, Hq; now left).
    assert (IH' := IH (fun c Hc => Hpos c (or_intror Hc))
                      (fun c Hc => Hq c (or_intror Hc))).
    clear IH.
    destruct IH' as [Hall | [(x & Hx & Hne & Hx0) | (x & t1 & Hx & Hne & Hx0 & Hb)]].
    - destruct (circle_in_disc_cases (px positions d) (py positions d) U V
                  (px positions z) (py positions z) (rad radius z)
                  Hposz Hqz) as [Hn | [[Hne Hz0] | [Hne (t1 & Hz0 & Hb)]]].
      + left. intros c [<- | Hc]; [| now apply Hall].
        unfold nested. rewrite cdist_nrm, <- Hr. exact Hn.
      + right. left. exists z. split; [now left |]. split; assumption.
      + right. right. exists z, t1. split; [now left |].
        split; [exact Hne |]. split; [exact Hz0 |].
        intros c [<- | Hc] t Ht; [now apply Hb |].
        apply in_cell_pwc.
        apply (nested_in_cell c d (pt t) (Hall c Hc) Hrd).
        apply in_cell_pwc. rewrite Hon. lra.
    - right. left. exists x. split; [now right |]. split; assumption.
    - destruct (circle_in_disc_cases (px positions d) (py positions d) U V
                  (px positions z) (py positions z) (rad radius z)
                  Hposz Hqz) as [Hn | [[Hne' Hz0] | [Hne' (t2 & Hz0 & Hb2)]]].
      + right. right. exists x, t1. split; [now right |].
        split; [exact Hne |]. split; [exact Hx0 |].
        intros c [<- | Hc] t Ht; [| now apply (Hb c Hc)].
        apply in_cell_pwc.
        assert (Hnz : nested z d).
        { unfold nested. rewrite cdist_nrm, <- Hr. exact Hn. }
        apply (nested_in_cell z d (pt t) Hnz Hrd).
        apply in_cell_pwc. rewrite Hon. lra.
      + right. left. exists z. split; [now left |]. split; assumption.
      + right. right. destruct (Rle_dec t2 t1) as [Hle | Hgt].
        * exists z, t2. split; [now left |]. split; [exact Hne' |].
          split; [exact Hz0 |].
          intros c [<- | Hc] t Ht; [now apply Hb2 |].
          apply (Hb c Hc). lra.
        * exists x, t1. split; [now right |]. split; [exact Hne |].
          split; [exact Hx0 |].
          intros c [<- | Hc] t Ht; [apply Hb2; lra | now apply (Hb c Hc)]. }
  destruct H as [Hall | [(x & Hx & Hne & Hx0) | (x & t1 & Hx & Hne & Hx0 & Hb)]].
  - now left.
  - right. exists x, q'. repeat (split; [assumption |]). exact Hq.
  - right. exists x, (pt t1). split; [exact Hx |]. split; [exact Hne |].
    split; [apply Hon |]. split; [exact Hx0 |].
    intros c Hc. apply in_cell_pwc. apply (Hb c Hc). lra.
Qed.

End Family.

Section Vertices.

Variable positions : list point.
Variable radius : list R.

(** The cells [x] and [y] have different centres. *)
Definition centres_differ (x y : nat) : Prop :=
  px positions x <> px positions y \/ py positions x <> py positions y.

Lemma in_cell_false_pwc (p : point) (c : nat) :
  in_cell positions radius p c = false <-> 0 < pwc positions radius c p.
Proof. unfold in_cell, pwc, pw. rewrite Rleb_false_iff. lra. Qed.

(** The disc [d] holds a common point [q] of the discs of [F] but not
    their common point [e]: it lies in all of them, or its circle has a
    point on the circle of one of them, of another centre, that lies in all
    of them. *)
Lemma leave_disc (d : nat) (q e : point) (F : simplex) :
  (forall c, In c F -> 0 <= rad radius c) -> 0 <= rad radius d ->
  in_cell positions radius q d = true ->
  in_cell positions radius e d = false ->
  (forall c, In c F -> in_cell positions radius q c = true) ->
  (forall c, In c F -> in_cell positions radius e c = true) ->
  (forall c, In c F -> nested positions radius c d)
  \/ exists x e',
       In x F /\ centres_differ x d /\
       pwc positions radius d e' = 0 /\ pwc positions radius x e' = 0 /\
       forall c, In c F -> in_cell positions radius e' c = true.
Proof.
  intros Hpos Hd Hqd Hed Hq He.
  apply in_cell_pwc in Hqd. apply in_cell_false_pwc in Hed.
  destruct (segment_crossing _ _ _ q e Hqd Hed) as (s & Hs & Hq').
  set (q' := seg q e s) in *.
  set (U := fst q' - px positions d). set (V := snd q' - py positions d).
  assert (Eq' : (px positions d + U, py positions d + V) = q').
  { unfold U, V. destruct q' as [x y]. cbn [fst snd]. f_equal; ring. }
  apply (circle_in_family positions radius d U V F Hpos).
  - apply nrm_eq; [exact Hd |]. unfold U, V.
    unfold pw in Hq'.
    transitivity ((px positions d - fst q') ^ 2 +
                  (py positions d - snd q') ^ 2); [ring | lra].
  - intros c Hc. rewrite Eq'. apply in_cell_pwc. unfold pwc, q'.
    apply segment_convex; [exact Hs | |]; apply in_cell_pwc; auto.
Qed.

(** Two discs with a common point, neither of which lies in the other:
    their circles meet. *)
Lemma two_discs_vertex (a b : nat) (q : point) :
  0 <= rad radius a -> 0 <= rad radius b ->
  in_cell positions radius q a = true ->
  in_cell positions radius q b = true ->
  ~ nested positions radius a b -> ~ nested positions radius b a ->
  exists e, centres_differ a b /\
            pwc positions radius a e = 0 /\ pwc positions radius b e = 0.
Proof.
  intros Ha Hb Hqa Hqb Hab Hba.
  pose proof (common_adj positions radius q a b Ha Hb Hqa Hqb) as Hadj.
  unfold adj in Hadj. unfold nested in Hab, Hba.
  rewrite (cdist_sym positions b a) in Hba.
  pose proof (get_intersections_cases (px positions a) (py positions a)
                (rad radius a) (px positions b) (py positions b)
                (rad radius b)) as C.
  cbv zeta in C.
  replace (sqrt ((px positions b - px positions a) ^ 2 +
                 (py positions b - py positions a) ^ 2))
    with (cdist positions a b) in C by (unfold cdist; f_equal; ring).
  set (d := cdist positions a b) in *.
  destruct C as [[Hc _] | (Hd & _ & _ & H)].
  { exfalso. destruct Hc as [Hc | [Hc | [Hc1 Hc2]]]; [lra | | lra].
    unfold Rabs in Hc. destruct (Rcase_abs (rad radius a - rad radius b)); lra. }
  eexists.
  destruct (get_intersections_on_circles _ _ _ _ _ _ _ _ H
              (or_introl eq_refl)) as [H1 H2].
  split; [| split; [exact H1 | exact H2]].
  destruct (Req_dec_T (px positions a) (px positions b)) as [Ex | Ex];
    [| now left].
  destruct (Req_dec_T (py positions a) (py positions b)) as [Ey | Ey];
    [| now right].
  exfalso. assert (d = 0); [| lra].
  unfold d, cdist. rewrite Ex, Ey. apply sqrt_unique; [lra | ring].
Qed.

(** Discs with a common point: one of them lies in all the others, or two
    of their circles, of different centres, meet at a point that lies in
    all the discs. *)
Lemma vertex_or_nested (F : simplex) (q : point) :
  F <> [] ->
  (forall c, In c F -> 0 <= rad radius c) ->
  (forall c, In c F -> in_cell positions radius q c = true) ->
  (exists m, In m F /\ forall c, In c F -> nested positions radius c m)
  \/ exists x y e,
       In x F /\ In y F /\ centres_differ x y /\
       pwc positions radius x e = 0 /\ pwc positions radius y e = 0 /\
       forall c, In c F -> in_cell positions radius e c = true.
Proof.
  induction F as [| d F IH]; [contradiction |]. intros _ Hpos Hq.
  assert (Hd : 0 <= rad radius d) by (apply Hpos; now left).
  assert (Hqd : in_cell positions radius q d = true) by (apply Hq; now left).
  destruct F as [| d' F'].
  { left. exists d. split; [now left |].
    intros c [<- | []]. apply nested_refl. }
  set (F := d' :: F') in *.
  destruct IH as [(m & Hm & Hall) | (x & y & e & Hx & Hy & Hne & Hxe & Hye & He)].
  - discriminate.
  - intros c Hc. apply Hpos. now right.
  - intros c Hc. apply Hq. now right.
  - assert (Hmpos : 0 <= rad radius m) by (apply Hpos; now right).
    destruct (Rle_dec (cdist positions d m + rad radius m) (rad radius d))
      as [Hdm | Hdm].
    { left. exists m. split; [now right |].
      intros c [<- | Hc]; [exact Hdm | now apply Hall]. }
    destruct (Rle_dec (cdist positions m d + rad radius d) (rad radius m))
      as [Hmd | Hmd].
    { left. exists d. split; [now left |].
      intros c [<- | Hc]; [apply nested_refl |].
      apply (nested_trans positions radius c m d); [now apply Hall | exact Hmd]. }
    destruct (two_discs_vertex d m q Hd Hmpos Hqd) as (e & Hne & Hde & Hme);
      [apply Hq; now right | exact Hdm | exact Hmd |].
    right. exists d, m, e. split; [now left |]. split; [now right |].
    split; [exact Hne |]. split; [exact Hde |]. split; [exact Hme |].
    intros c [<- | Hc]; [apply in_cell_pwc; lra |].
    apply (nested_in_cell positions radius c m e (Hall c Hc) Hmpos).
    apply in_cell_pwc. lra.
  - destruct (in_cell positions radius e d) eqn:Eed.
    { right. exists x, y, e. split; [now right |]. split; [now right |].
      repeat (split; [assumption |]).
      intros c [<- | Hc]; [exact Eed | now apply He]. }
    destruct (leave_disc d q e F) as [Hall | (x' & e' & Hx' & Hne' & Hde' & Hxe' & He')];
      try assumption.
    + intros c Hc. apply Hpos. now right.
    + intros c Hc. apply Hq. now right.
    + left. exists d. split; [now left |].
      intros c [<- | Hc]; [apply nested_refl | now apply Hall].
    + right. exists x', d, e'. split; [now right |]. split; [now left |].
      split; [exact Hne' |]. split; [exact Hxe' |]. split; [exact Hde' |].
      intros c [<- | Hc]; [apply in_cell_pwc; lra | now apply He'].
Qed.

End Vertices.


(** ** The verifiers accept every set of discs with a common point *)

Lemma pairs_complete (l : list nat) (x y : nat) :
  In x l -> In y l -> x <> y -> In (x, y) (pairs l) \/ In (y, x) (pairs l).
Proof.
  induction l as [| z l IH]; [intros [] |]. cbn [pairs].
  intros [-> | Hx] [-> | Hy] Hne.
  - contradiction.
  - left. apply in_or_app. left. now apply in_map.
  - right. apply in_or_app. left. now apply in_map.
  - destruct (IH Hx Hy Hne); [left | right]; apply in_or_app; now right.
Qed.

Section Complete.

Variable positions : list point.
Variable radius : list R.
Hypothesis radius_long : (length positions <= length radius)%nat.

(** A point on the circles of [x] and [y], of different centres, is one of
    the points of [intersection(x, y)]. *)
Lemma ipoints_complete (x y : nat) (e : point) :
  0 <= rad radius x -> 0 <= rad radius y ->
  centres_differ positions x y ->
  pwc positions radius x e = 0 -> pwc positions radius y e = 0 ->
  In e (ipoints positions radius x y).
Proof.
  intros Hx Hy Hne Hxe Hye. unfold ipoints.
  destruct (get_intersections_complete (px positions x) (py positions x)
              (rad radius x) (px positions y) (py positions y)
              (rad radius y) e Hx Hy Hne Hxe Hye) as (l & -> & Hl).
  exact Hl.
Qed.

Lemma centres_differ_sym (x y : nat) :
  centres_differ positions x y -> centres_differ positions y x.
Proof. unfold centres_differ. intros [H | H]; [left | right]; congruence. Qed.

Lemma centres_differ_neq (x y : nat) :
  centres_differ positions x y -> x <> y.
Proof. unfold centres_differ. intros [H | H] ->; contradiction. Qed.

(** When some disc of [cells] lies in all the others, the containment test
    of [verify] succeeds for the cell [sm] of least radius. *)
Lemma nested_inside (cells : simplex) (sm m : nat) :
  In m cells ->
  (forall c, In c cells -> rad radius sm <= rad radius c) ->
  In sm cells ->
  (forall c, In c cells -> nested positions radius c m) ->
  forall c, In c cells -> c <> sm ->
            cdist positions c sm <= Rabs (rad radius c - rad radius sm).
Proof.
  intros Hm Hmin Hsm Hall c Hc _.
  pose proof (Hall sm Hsm) as Hn. unfold nested in Hn.
  pose proof (Hmin m Hm) as Hle.
  pose proof (cdist_nonneg positions sm m) as Hd.
  assert (Hd0 : cdist positions sm m = 0) by lra.
  assert (Hr : rad radius m = rad radius sm) by lra.
  apply sqrt_sum_sq_0 in Hd0. destruct Hd0 as [Ex Ey].
  assert (E : cdist positions c sm = cdist positions c m).
  { unfold cdist. f_equal.
    replace (px positions sm) with (px positions m) by lra.
    replace (py positions sm) with (py positions m) by lra.
    reflexivity. }
  rewrite E. pose proof (Hall c Hc) as Hnc. unfold nested in Hnc.
  eapply Rle_trans; [| apply Rle_abs]. lra.
Qed.

(** [CechComplexLE.verify] accepts every list of cells whose discs have a
    common point. *)
Lemma verify_LE_complete (cells : simplex) (q : point) :
  cells <> [] -> in_range positions cells ->
  (forall c, In c cells -> 0 <= rad radius c) ->
  common_point positions radius q cells ->
  LE.verify positions radius cells = Ok true.
Proof.
  intros Hne Hr Hpos Hq. unfold LE.verify.
  destruct (smallest_of_spec positions radius radius_long cells Hne Hr)
    as (sm & -> & Hsm & Hmin).
  cbn [bind].
  destruct (inside_of_spec positions radius radius_long cells sm Hr
              (Hr sm Hsm)) as (b & -> & Hb).
  cbn [bind]. destruct b; [reflexivity |].
  destruct (total_Ok _ (total_fallback_LE positions radius radius_long
                          cells Hr)) as [b Eb].
  rewrite Eb. f_equal. apply (fallback_LE_spec _ _ _ _ Eb).
  destruct (vertex_or_nested positions radius cells q Hne Hpos Hq)
    as [(m & Hm & Hall) | (x & y & e & Hx & Hy & Hxy & Hxe & Hye & He)].
  { exfalso. assert (H : false = true); [| discriminate H].
    apply Hb. now apply (nested_inside cells sm m). }
  assert (Hall : forall c, In c cells ->
                   isPointInsideCell positions radius e c = Ok true).
  { intros c Hc.
    rewrite (isPointInsideCell_eq positions radius radius_long e c (Hr c Hc)).
    f_equal. now apply He. }
  destruct (pairs_complete cells x y Hx Hy (centres_differ_neq x y Hxy))
    as [Hp | Hp].
  - exists x, y, (ipoints positions radius x y), e.
    split; [exact Hp |].
    split; [apply (intersection_eq positions radius radius_long); auto |].
    split; [| intros c Hc _ _; now apply Hall].
    apply ipoints_complete; auto.
  - exists y, x, (ipoints positions radius y x), e.
    split; [exact Hp |].
    split; [apply (intersection_eq positions radius radius_long); auto |].
    split; [| intros c Hc _ _; now apply Hall].
    apply ipoints_complete; auto. now apply centres_differ_sym.
Qed.

(** The last loop of [CechComplex.verify] finds a point as soon as the
    circle of the last cell meets the circle of an earlier cell, of another
    centre, at a common point of all the discs. *)
Lemma fallback_Opt_finds (s : simplex) (c x : nat) (e : point) :
  in_range positions (s ++ [c]) ->
  (forall y, In y (s ++ [c]) -> 0 <= rad radius y) ->
  In x s -> centres_differ positions c x ->
  pwc positions radius c e = 0 -> pwc positions radius x e = 0 ->
  common_point positions radius e (s ++ [c]) ->
  Opt.fallback positions radius (s ++ [c]) <> Ok None.
Proof.
  intros Hr Hpos Hx Hne Hce Hxe He Hf.
  unfold Opt.fallback in Hf. rewrite firstM_None in Hf.
  destruct (In_nth_error _ _ Hx) as [j Hj].
  assert (Hjlt : (j < length s)%nat).
  { apply nth_error_Some. congruence. }
  assert (Hlen : (length (s ++ [c]) - 1 = length s)%nat).
  { rewrite length_app. cbn [length]. lia. }
  rewrite Hlen in Hf.
  specialize (Hf j). rewrite in_seq in Hf.
  assert (Hci : index (s ++ [c]) (length s) = Ok c).
  { apply index_nth_error. rewrite nth_error_app2 by lia.
    now rewrite Nat.sub_diag. }
  assert (Hcj : index (s ++ [c]) j = Ok x).
  { apply index_nth_error. now rewrite nth_error_app1 by lia. }
  assert (Hcin : In c (s ++ [c])) by apply in_elt.
  assert (Hxin : In x (s ++ [c])) by (apply in_or_app; now left).
  destruct (fallback_pair_None positions radius (s ++ [c]) (length s) j c x
              (ipoints positions radius c x) e)
    as (k & y & Hk & _ & _ & Hfalse); try assumption.
  - apply Hf. lia.
  - apply (intersection_eq positions radius radius_long); auto.
  - apply ipoints_complete; auto.
  - assert (Hy : In y (s ++ [c])) by (eapply nth_error_In, Hk).
    rewrite (isPointInsideCell_eq positions radius radius_long e y (Hr y Hy))
      in Hfalse.
    rewrite (He y Hy) in Hfalse. discriminate.
Qed.

(** [CechComplex.verify] fails on no list of cells whose discs have a
    common point, when the point recorded for [pre_set] is a common point of
    [pre_set]. *)
Lemma verify_Opt_complete (inters : list (list nat * point)) (s : simplex)
    (c : nat) (q : point) :
  in_range positions (s ++ [c]) -> NoDup (s ++ [c]) ->
  (2 <= length s)%nat ->
  (forall y, In y (s ++ [c]) -> 0 <= rad radius y) ->
  ((2 < length s)%nat ->
   exists w, dict_get inters (frozenset s) = Some w /\
             common_point positions radius w s) ->
  common_point positions radius q (s ++ [c]) ->
  Opt.verify positions radius inters (s ++ [c]) <> Ok None.
Proof.
  intros Hr Hnd Hl2 Hpos Hmemo Hq Hv.
  assert (Hne : s ++ [c] <> []) by (destruct s; discriminate).
  unfold Opt.verify in Hv.
  destruct (smallest_of_spec positions radius radius_long _ Hne Hr)
    as (sm & Esm & Hsm & Hmin).
  rewrite Esm in Hv. cbn [bind] in Hv.
  destruct (inside_of_spec positions radius radius_long _ sm Hr (Hr sm Hsm))
    as (b & Eb & Hb).
  rewrite Eb in Hv. cbn [bind] in Hv. destruct b.
  { rewrite (index_positions positions sm (Hr sm Hsm)) in Hv. discriminate. }
  assert (Hnot_nested :
            forall m, In m (s ++ [c]) ->
                      ~ forall y, In y (s ++ [c]) ->
                                  nested positions radius y m).
  { intros m Hm Hall. assert (H : false = true); [| discriminate H].
    apply Hb. now apply (nested_inside (s ++ [c]) sm m). }
  assert (Hlen : (length (s ++ [c]) - 1 = length s)%nat).
  { rewrite length_app. cbn [length]. lia. }
  rewrite Hlen in Hv.
  assert (Hci : index (s ++ [c]) (length s) = Ok c).
  { apply index_nth_error. rewrite nth_error_app2 by lia.
    now rewrite Nat.sub_diag. }
  rewrite Hci in Hv. cbn [bind] in Hv.
  apply bind_Ok in Hv. destruct Hv as (sc & Hsc & Hv).
  destruct sc as [p |]; [discriminate |].
  assert (Hc : In c (s ++ [c])) by apply in_elt.
  assert (Hcpos : 0 <= rad radius c) by now apply Hpos.
  assert (Hspos : forall y, In y s -> 0 <= rad radius y).
  { intros y Hy. apply Hpos, in_or_app. now left. }
  assert (Hqs : forall y, In y s -> in_cell positions radius q y = true).
  { intros y Hy. apply Hq, in_or_app. now left. }
  unfold Opt.reuse_shortcut in Hsc. rewrite removelast_last in Hsc.
  destruct (Nat.eqb_spec (length s) 2) as [E2 | E2].
  - destruct s as [| a [| b [| ? ?]]]; try discriminate.
    cbn [app] in *.
    change (index [a; b; c] 0) with (Ok a) in Hsc.
    change (index [a; b; c] 1) with (Ok b) in Hsc.
    cbn [bind] in Hsc.
    rewrite (intersection_eq positions radius radius_long a b) in Hsc
      by (apply Hr; cbn; tauto).
    cbn [bind] in Hsc. rewrite firstM_None in Hsc.
    assert (Hab : forall e, In e (ipoints positions radius a b) ->
                            in_cell positions radius e c = false).
    { intros e He. specialize (Hsc e He).
      rewrite (isPointInsideCell_eq positions radius radius_long e c
                 (Hr c Hc)) in Hsc.
      cbn [bind] in Hsc.
      destruct (in_cell positions radius e c); [discriminate | reflexivity]. }
    destruct (vertex_or_nested positions radius [a; b; c] q Hne Hpos Hq)
      as [(m & Hm & Hall) | (x & y & e & Hx & Hy & Hxy & Hxe & Hye & He)].
    { exact (Hnot_nested m Hm Hall). }
    assert (Hvertex_c : forall z, In z [a; b] ->
                          centres_differ positions c z ->
                          pwc positions radius c e = 0 ->
                          pwc positions radius z e = 0 -> False).
    { intros z Hz Hcz Hce Hze.
      apply (fallback_Opt_finds [a; b] c z e); assumption. }
    assert (Hvertex_ab : pwc positions radius a e = 0 ->
                         pwc positions radius b e = 0 ->
                         centres_differ positions a b -> False).
    { intros Hae Hbe Hne'.
      assert (Hin : In e (ipoints positions radius a b)).
      { apply ipoints_complete; auto; apply Hpos; cbn; tauto. }
      apply Hab in Hin. rewrite (He c Hc) in Hin. discriminate. }
    pose proof (centres_differ_neq x y Hxy) as Hxy'.
    cbn [In] in Hx, Hy.
    destruct Hx as [<- | [<- | [<- | []]]];
      destruct Hy as [<- | [<- | [<- | []]]]; try contradiction.
    + now apply Hvertex_ab.
    + apply (Hvertex_c a); [now left | | assumption | assumption].
      now apply centres_differ_sym.
    + apply Hvertex_ab; try assumption. now apply centres_differ_sym.
    + apply (Hvertex_c b); [right; now left | | assumption | assumption].
      now apply centres_differ_sym.
    + apply (Hvertex_c a); [now left | assumption ..].
    + apply (Hvertex_c b); [right; now left | assumption ..].
  - assert (H3 : (2 < length s)%nat) by lia.
    destruct (Nat.ltb_spec 2 (length s)) as [_ | H]; [| lia].
    destruct (Hmemo H3) as (w & Hw & Hws).
    unfold dict_index in Hsc. rewrite Hw in Hsc. cbn [bind] in Hsc.
    rewrite (isPointInsideCell_eq positions radius radius_long w c (Hr c Hc))
      in Hsc.
    cbn [bind] in Hsc.
    destruct (in_cell positions radius w c) eqn:Ewc; [discriminate |].
    destruct (leave_disc positions radius c q w s Hspos Hcpos (Hq c Hc) Ewc
                Hqs Hws)
      as [Hall | (x & e & Hx & Hxc & Hce & Hxe & He)].
    + apply (Hnot_nested c Hc). intros y Hy. apply in_app_or in Hy.
      destruct Hy as [Hy | [<- | []]]; [now apply Hall | apply nested_refl].
    + apply (fallback_Opt_finds s c x e); try assumption.
      * now apply centres_differ_sym.
      * intros y Hy. apply in_app_or in Hy.
        destruct Hy as [Hy | [<- | []]]; [now apply He |].
        apply in_cell_pwc. lra.
Qed.

End Complete.


(** ** The levels of both constructions are the levels of the Cech complex *)

(** [t] is a simplex of dimension [j] of the Cech complex, in canonical
    form: an increasing list of [j + 1] balls whose closed discs have a
    common point. *)
Definition cech_set (positions : list point) (radius : list R) (j : nat)
    (t : list nat) : Prop :=
  StronglySorted lt t /\ length t = (j + 1)%nat /\ in_range positions t /\
  exists p, inside_all positions radius p t.

(** The canonical index-sets of a level. *)
Definition canon (lv : level) : list (list nat) := map frozenset lv.

Section Characterisation.

Variable positions : list point.
Variable radius : list R.
Hypothesis radius_long : (length positions <= length radius)%nat.
Hypothesis radius_pos : forall r, In r radius -> 0 <= r.

Lemma cech_set_common (j : nat) (t : list nat) :
  cech_set positions radius j t <->
  StronglySorted lt t /\ length t = (j + 1)%nat /\ in_range positions t /\
  exists p, common_point positions radius p t.
Proof.
  unfold cech_set. split; intros (Hs & Hl & Hr & p & Hp);
    repeat (split; [assumption |]); exists p;
    now apply (inside_all_common positions radius p t radius_long Hr).
Qed.

(** The canonical form of a simplex whose discs have a common point. *)
Lemma cech_set_of_simplex (j : nat) (s : simplex) (p : point) :
  simplex_ok positions j s -> common_point positions radius p s ->
  cech_set positions radius j (frozenset s).
Proof.
  intros (Hl & Hnd & Hr) Hp. apply cech_set_common.
  split; [apply frozenset_sorted |].
  split; [now rewrite frozenset_length |].
  split; [intros c Hc; apply Hr; now apply frozenset_In |].
  exists p. now apply common_point_frozenset.
Qed.

Lemma sorted_app_last (t : list nat) (c : nat) :
  StronglySorted lt (t ++ [c]) ->
  StronglySorted lt t /\ ~ In c t /\ forall x, In x t -> (x < c)%nat.
Proof.
  induction t as [| a t IH]; cbn [app]; intros H.
  - split; [constructor |]. split; [intros [] | intros x []].
  - inversion H as [| ? ? Hs Ha]; subst.
    destruct (IH Hs) as (Hst & Hnot & Hlt).
    rewrite Forall_forall in Ha.
    assert (Hac : (a < c)%nat) by (apply Ha, in_elt).
    split; [| split].
    + constructor; [exact Hst |]. apply Forall_forall.
      intros x Hx. apply Ha, in_or_app. now left.
    + intros [-> | Hin]; [lia | contradiction].
    + intros x [<- | Hx]; [exact Hac | now apply Hlt].
Qed.

(** The level below holds the first cells of every simplex of the Cech
    complex: the candidates of [CechComplex.getCandidates] cover the
    simplices of the next dimension. *)
Lemma candidate_of_cech_set (nb : list (list nat)) (prev : level) (j : nat)
    (t : list nat) :
  (forall a b, In b (nth a nb []) <->
               (a < N positions)%nat /\ (b < N positions)%nat /\
               a <> b /\ adj positions radius a b) ->
  (1 <= j)%nat ->
  (forall t', cech_set positions radius (j - 1) t' ->
              exists s', In s' prev /\ frozenset s' = t') ->
  cech_set positions radius j t ->
  exists cand, In cand (cands_Opt nb prev) /\ frozenset cand = t.
Proof.
  intros Hnb Hj Hprev Ht. apply cech_set_common in Ht.
  destruct Ht as (Hs & Hl & Hr & p & Hp).
  assert (Hne : t <> []) by (intros ->; cbn in Hl; lia).
  pose proof (removelast_nth t 0%nat Hne) as Et.
  set (t' := removelast t) in *. set (c := nth (length t - 1) t 0%nat) in *.
  rewrite Et in Hs. destruct (sorted_app_last t' c Hs) as (Hs' & Hnot & Hlt).
  assert (Hin' : forall x, In x t' -> In x t).
  { intros x Hx. rewrite Et. apply in_or_app. now left. }
  assert (Hc : In c t) by (rewrite Et; apply in_elt).
  assert (Hl' : length t' = (j - 1 + 1)%nat).
  { rewrite Et, length_app in Hl. cbn [length] in Hl. lia. }
  destruct (Hprev t') as (s' & Hs'in & Es').
  { apply cech_set_common. split; [exact Hs' |]. split; [exact Hl' |].
    split; [intros x Hx; apply Hr; auto |].
    exists p. intros x Hx. apply Hp; auto. }
  assert (Hmem : forall x, In x s' <-> In x t').
  { intros x. rewrite <- Es'. symmetry. apply frozenset_In. }
  assert (Hs'ne : s' <> []).
  { intros ->. rewrite <- Es' in Hl'. cbn in Hl'. lia. }
  exists (s' ++ [c]). split.
  - apply cands_Opt_spec. exists s', c. split; [reflexivity |].
    split; [exact Hs'in |]. apply (ext_spec nb s' c Hs'ne).
    split; [intros Hin; apply Hnot; now apply Hmem |].
    intros i Hi. apply Hmem in Hi. apply Hnb.
    split; [apply Hr; auto |]. split; [apply Hr; auto |].
    split; [intros ->; contradiction |].
    apply (common_adj positions radius p i c);
      try apply rad_nonneg; try assumption; apply Hp; auto.
  - rewrite Et. rewrite <- (frozenset_sorted_id (t' ++ [c]) Hs).
    apply frozenset_ext. intros x. rewrite !in_app_iff, Hmem. tauto.
Qed.

(** What [CechComplex.verify] returns and rejects, in terms of common
    points. *)
Definition G_common (key : list nat) (p : point) : Prop :=
  common_point positions radius p key.

Definition Rej_common (key : list nat) : Prop :=
  ~ exists q, common_point positions radius q key.

Lemma verify_G_common :
  forall inters s c p,
    in_range positions (s ++ [c]) -> NoDup (s ++ [c]) ->
    (2 <= length s)%nat ->
    ((2 < length s)%nat -> memo_has G_common inters s) ->
    Opt.verify positions radius inters (s ++ [c]) = Ok (Some p) ->
    G_common (frozenset (s ++ [c])) p.
Proof.
  intros inters s c p Hr Hnd Hl2 Hmemo Hv.
  apply common_point_frozenset.
  apply (verify_Opt_sound positions radius radius_long inters (s ++ [c]) p
           Hr); [intros; now apply rad_nonneg | | exact Hv].
  rewrite removelast_last. intros w H3 Hw.
  destruct (Hmemo H3) as (w' & Hw' & HG).
  assert (w' = w) by congruence. subst w'.
  now apply common_point_frozenset.
Qed.

Lemma verify_Rej_common :
  forall inters s c,
    in_range positions (s ++ [c]) -> NoDup (s ++ [c]) ->
    (2 <= length s)%nat ->
    ((2 < length s)%nat -> memo_has G_common inters s) ->
    Opt.verify positions radius inters (s ++ [c]) = Ok None ->
    Rej_common (frozenset (s ++ [c])).
Proof.
  intros inters s c Hr Hnd Hl2 Hmemo Hv [q Hq].
  apply (proj1 (common_point_frozenset positions radius q (s ++ [c]))) in Hq.
  apply (verify_Opt_complete positions radius radius_long inters s c q);
    try assumption.
  - intros; now apply rad_nonneg.
  - intros H3. destruct (Hmemo H3) as (w & Hw & HG).
    exists w. split; [exact Hw | now apply common_point_frozenset].
Qed.

Variable maxK : option Z.
Variable nb : list (list nat).
Variable S1 : level.
Hypothesis nb_spec :
  forall a b, In b (nth a nb []) <->
              (a < N positions)%nat /\ (b < N positions)%nat /\
              a <> b /\ adj positions radius a b.
Hypothesis S1_spec :
  forall s, In s S1 <->
            exists i j, s = [i; j] /\ (i < j < N positions)%nat /\
                        adj positions radius i j.

Lemma cech_set_0 (t : list nat) :
  cech_set positions radius 0 t <-> In t (canon (sim0 positions)).
Proof.
  unfold canon, sim0. rewrite map_map, in_map_iff. split.
  - intros (Hs & Hl & Hr & _).
    destruct t as [| i [| ? ?]]; try discriminate.
    exists i. split; [reflexivity |]. apply in_seq.
    specialize (Hr i (or_introl eq_refl)). lia.
  - intros (i & <- & Hi). apply in_seq in Hi.
    change (frozenset [i]) with [i]. apply cech_set_common.
    split; [repeat constructor |]. split; [reflexivity |].
    split; [intros c [<- | []]; lia |].
    exists (px positions i, py positions i).
    intros c [<- | []]. unfold in_cell. cbn [fst snd].
    apply Rleb_true_iff. pose proof (pow2_ge_0 (rad radius i)). nra.
Qed.

Lemma frozenset_pair (i j : nat) : (i < j)%nat -> frozenset [i; j] = [i; j].
Proof.
  intros H. apply frozenset_sorted_id. repeat constructor. exact H.
Qed.

Lemma cech_set_1 (t : list nat) :
  cech_set positions radius 1 t <-> In t (canon S1).
Proof.
  unfold canon. rewrite in_map_iff. split.
  - intros Ht. apply cech_set_common in Ht.
    destruct Ht as (Hs & Hl & Hr & p & Hp).
    destruct t as [| i [| j [| ? ?]]]; try discriminate.
    assert (Hij : (i < j)%nat).
    { inversion Hs as [| ? ? _ H]; subst. now inversion H. }
    exists [i; j]. split; [now apply frozenset_pair |].
    apply S1_spec. exists i, j. split; [reflexivity |].
    split; [split; [exact Hij | apply Hr; cbn; tauto] |].
    apply (adj_iff_common positions radius i j radius_pos). now exists p.
  - intros (s & <- & Hs). apply S1_spec in Hs.
    destruct Hs as (i & j & -> & Hij & Hadj).
    rewrite frozenset_pair by lia. apply cech_set_common.
    split; [repeat constructor; lia |]. split; [reflexivity |].
    split; [intros c [<- | [<- | []]]; lia |].
    now apply (adj_iff_common positions radius i j radius_pos).
Qed.

(** The state in which a run of [CechComplex] ends: its levels are those of
    the Cech complex, up to the first that is over the bound or empty. *)
Lemma run_fin_levels (k : nat) (st : Opt.state) :
  run_fin positions maxK nb S1 G_common Rej_common k st ->
  length (Opt.levels st) = k /\ (2 <= k)%nat /\
  (forall j t, (j < k)%nat ->
               (In t (canon (nth j (Opt.levels st) [])) <->
                cech_set positions radius j t)) /\
  (forall j, (2 <= j < k)%nat ->
             over_maxK maxK j = false /\
             exists t, cech_set positions radius j t) /\
  (over_maxK maxK k = true \/ ~ exists t, cech_set positions radius k t).
Proof.
  intros [(Hnb & Hlen & Hk & H1 & Hlv & Hint & H00 & H01 & Hov) Hend].
  assert (Hfrom : forall j s, (j < k)%nat ->
                    In s (nth j (Opt.levels st) []) ->
                    cech_set positions radius j (frozenset s)).
  { intros j s Hj Hs. destruct j as [| [| j]].
    - apply cech_set_0. rewrite H00 in Hs. now apply in_map.
    - apply cech_set_1. rewrite H01 in Hs. now apply in_map.
    - destruct (Hlv (S (S j))) as (_ & _ & H & _); [lia |].
      destruct (H s Hs) as (Hok & _ & (w & _ & HG)).
      apply (cech_set_of_simplex _ s w Hok).
      now apply common_point_frozenset. }
  assert (Hto : forall j, (j < k)%nat ->
                  forall t, cech_set positions radius j t ->
                            exists s, In s (nth j (Opt.levels st) []) /\
                                      frozenset s = t).
  { induction j as [| j IH]; intros Hj t Ht.
    - apply cech_set_0 in Ht. rewrite H00. apply in_map_iff in Ht.
      destruct Ht as (s & Es & Hs). eauto.
    - destruct j as [| j].
      + apply cech_set_1 in Ht. rewrite H01. apply in_map_iff in Ht.
        destruct Ht as (s & Es & Hs). eauto.
      + destruct (candidate_of_cech_set nb
                    (nth (S j) (Opt.levels st) []) (S (S j)) t nb_spec)
          as (cand & Hcand & Ecand); [lia | | exact Ht |].
        { replace (S (S j) - 1)%nat with (S j) by lia. apply IH. lia. }
        destruct (Hlv (S (S j))) as (_ & _ & _ & H); [lia |].
        replace (S (S j) - 1)%nat with (S j) in H by lia.
        destruct (H cand Hcand) as [(s & Hs & Es) | Hrej].
        * exists s. split; [exact Hs | congruence].
        * exfalso. apply Hrej. rewrite Ecand.
          apply cech_set_common in Ht.
          destruct Ht as (_ & _ & _ & Hp). exact Hp. }
  split; [exact Hlen |]. split; [exact Hk |]. split; [| split].
  - intros j t Hj. unfold canon. rewrite in_map_iff. split.
    + intros (s & <- & Hs). now apply Hfrom.
    + intros Ht. destruct (Hto j Hj t Ht) as (s & Hs & Es). eauto.
  - intros j Hj. split; [now apply Hov |].
    destruct (Hlv j Hj) as (Hne & _).
    destruct (nth j (Opt.levels st) []) as [| s0 l] eqn:E;
      [contradiction |].
    exists (frozenset s0). apply Hfrom; [lia |]. rewrite E. now left.
  - destruct Hend as [Ho | Hrej]; [now left | right].
    intros [t Ht].
    destruct (candidate_of_cech_set nb
                (nth (k - 1) (Opt.levels st) []) k t nb_spec)
      as (cand & Hcand & Ecand); [lia | | exact Ht |].
    { apply Hto. lia. }
    apply (Hrej cand Hcand). rewrite Ecand.
    apply cech_set_common in Ht. destruct Ht as (_ & _ & _ & Hp). exact Hp.
Qed.

End Characterisation.


(** [S] is the Cech complex of the balls, cut at [maxK]: its levels hold,
    in some order and up to the order of the vertices, the simplices of the
    Cech complex of their dimension, and they stop at the first dimension
    that is over the bound or has no simplex. *)
Definition is_cech_complex (positions : list point) (radius : list R)
    (maxK : option Z) (S : list level) : Prop :=
  (2 <= length S)%nat /\
  (forall j t, (j < length S)%nat ->
               (In t (canon (nth j S [])) <-> cech_set positions radius j t)) /\
  (forall j, (2 <= j < length S)%nat ->
             over_maxK maxK j = false /\
             exists t, cech_set positions radius j t) /\
  (over_maxK maxK (length S) = true \/
   ~ exists t, cech_set positions radius (length S) t).

(** Two lists of levels that are the Cech complex have the same number of
    levels and the same simplices. *)
Lemma is_cech_complex_unique (positions : list point) (radius : list R)
    (maxK : option Z) (S S' : list level) :
  is_cech_complex positions radius maxK S ->
  is_cech_complex positions radius maxK S' ->
  length S = length S' /\
  forall j t, In t (canon (nth j S [])) <-> In t (canon (nth j S' [])).
Proof.
  intros (H2 & Hlv & Hbuilt & Hend) (H2' & Hlv' & Hbuilt' & Hend').
  assert (Hlen : length S = length S').
  { destruct (Nat.lt_trichotomy (length S) (length S')) as [H | [H | H]];
      [exfalso | exact H | exfalso].
    - destruct (Hbuilt' (length S)) as [Ho Ht]; [lia |].
      destruct Hend as [Hend | Hend]; [congruence | contradiction].
    - destruct (Hbuilt (length S')) as [Ho Ht]; [lia |].
      destruct Hend' as [Hend' | Hend']; [congruence | contradiction]. }
  split; [exact Hlen |]. intros j t.
  destruct (Nat.lt_ge_cases j (length S)) as [Hj | Hj].
  - rewrite (Hlv j t Hj), (Hlv' j t) by lia. tauto.
  - rewrite !nth_overflow by lia. tauto.
Qed.

Section LevelsLE.

Variable positions : list point.
Variable radius : list R.
Hypothesis radius_long : (length positions <= length radius)%nat.
Hypothesis radius_pos : forall r, In r radius -> 0 <= r.

Variable nb : list (list nat).
Hypothesis nb_length : length nb = N positions.
Hypothesis nb_sorted : forall a, StronglySorted lt (nth a nb []).
Hypothesis nb_spec :
  forall a b, In b (nth a nb []) <->
              (a < N positions)%nat /\ (b < N positions)%nat /\
              a <> b /\ adj positions radius a b.

(** The level of dimension [j] of [CechComplexLE] holds the simplices of
    dimension [j] of the Cech complex. *)
Lemma level_LE_cech (j : nat) (t : list nat) :
  In t (canon (level_LE positions radius nb j)) <->
  cech_set positions radius j t.
Proof.
  unfold canon. rewrite in_map_iff. split.
  - intros (s & <- & Hs).
    pose proof (level_LE_ok positions radius radius_long nb nb_length
                  nb_sorted nb_spec j s Hs) as Hok.
    unfold level_LE in Hs. apply filter_In in Hs. destruct Hs as [_ Hacc].
    unfold accepts_LE in Hacc.
    destruct (LE.verify positions radius s) as [[|] | e] eqn:Ev;
      try discriminate.
    destruct Hok as (Hl & Hnd & Hr).
    destruct (verify_LE_sound positions radius radius_long s Hr) as [p Hp];
      [intros; now apply rad_nonneg | exact Ev |].
    apply (cech_set_of_simplex positions radius radius_long j s p);
      [repeat split; assumption | exact Hp].
  - intros Ht. exists t.
    pose proof Ht as Ht'. apply cech_set_common in Ht'; [| assumption].
    destruct Ht' as (Hs & Hl & Hr & p & Hp).
    split; [now apply frozenset_sorted_id |].
    unfold level_LE. apply filter_In. split.
    + destruct t as [| i rest]; [cbn in Hl; lia |].
      apply (cands_LE_spec positions radius radius_long nb nb_length).
      exists i, rest. split; [reflexivity |].
      split; [apply Hr; now left |].
      split; [| cbn [length] in Hl; lia].
      inversion Hs as [| ? ? Hs' Hi]; subst.
      rewrite Forall_forall in Hi.
      apply sorted_incl_subseq; [exact Hs' | apply nb_sorted |].
      intros x Hx. apply nb_spec.
      split; [apply Hr; now left |]. split; [apply Hr; now right |].
      split; [specialize (Hi x Hx); lia |].
      apply (common_adj positions radius p i x);
        try apply rad_nonneg; try assumption; apply Hp; cbn; tauto.
    + unfold accepts_LE.
      rewrite (verify_LE_complete positions radius radius_long t p);
        try assumption; [reflexivity | | intros; now apply rad_nonneg].
      intros ->. cbn in Hl. lia.
Qed.

End LevelsLE.

(** The complex returned by [CechComplexLE.cech] is the Cech complex. *)
Lemma cechLE_is_cech_complex (positions : list point) (radius : list R)
    (maxK : option Z) (fuel : nat) (S : list level) :
  (length positions <= length radius)%nat ->
  (forall r, In r radius -> 0 <= r) ->
  LE.cech positions radius maxK fuel = Some (Ok S) ->
  is_cech_complex positions radius maxK S.
Proof.
  intros Hlen Hpos Hcech.
  destruct (cech_LE_returned positions radius maxK fuel S Hlen Hcech)
    as (nb & S1 & m & Hsim & Hnbl & Hsorted & Hnb & HS1 & -> & Hall & Hend).
  assert (HL : length ([sim0 positions; S1] ++
                       map (level_LE positions radius nb) (seq 2 m))
               = (2 + m)%nat).
  { rewrite length_app, length_map, length_seq. reflexivity. }
  pose proof (level_LE_cech positions radius Hlen Hpos nb Hnbl Hsorted Hnb)
    as Hlv.
  unfold is_cech_complex. rewrite HL.
  split; [lia |]. split; [| split].
  - intros j t Hj. rewrite nth_levels_LE. destruct j as [| [| j]].
    + symmetry. apply (cech_set_0 positions radius Hlen).
    + symmetry. apply (cech_set_1 positions radius Hlen Hpos S1 HS1).
    + destruct (Nat.ltb_spec (S (S j)) (2 + m)); [apply Hlv | lia].
  - intros j Hj. destruct (Hall j Hj) as [Ho Hne]. split; [exact Ho |].
    destruct (level_LE positions radius nb j) as [| s0 l] eqn:E;
      [contradiction |].
    exists (frozenset s0). apply Hlv. unfold canon. rewrite E.
    now left.
  - destruct Hend as [Ho | He]; [now left | right].
    intros [t Ht]. apply Hlv in Ht. unfold canon in Ht.
    rewrite He in Ht. destruct Ht.
Qed.

(** The complex returned by [CechComplex.cech] is the Cech complex. *)
Lemma cech_is_cech_complex (positions : list point) (radius : list R)
    (maxK : option Z) (fuel : nat) (S : list level) :
  (length positions <= length radius)%nat ->
  (forall r, In r radius -> 0 <= r) ->
  Opt.cech positions radius maxK fuel = Some (Ok S) ->
  is_cech_complex positions radius maxK S.
Proof.
  intros Hlen Hpos Hcech. unfold Opt.cech in Hcech.
  destruct (Opt.run positions radius maxK fuel) as [[st | e] |] eqn:Hrun;
    try discriminate.
  injection Hcech as <-.
  destruct (run_Opt_returned positions radius maxK
              (G_common positions radius) (Rej_common positions radius)
              fuel st Hlen
              (verify_G_common positions radius Hlen Hpos)
              (verify_Rej_common positions radius Hlen Hpos) Hrun)
    as (nb & S1 & k & Hsim & Hnb & HS1 & Hfin).
  destruct (run_fin_levels positions radius Hlen Hpos maxK nb S1 Hnb HS1
              k st Hfin) as (Hk & Hk2 & Hlv & Hbuilt & Hend).
  unfold is_cech_complex. rewrite Hk. auto.
Qed.


Lemma cech_Opt_returns (positions : list point) (radius : list R)
    (maxK : option Z) (fuel : nat) :
  (length positions <= length radius)%nat -> (N positions < fuel)%nat ->
  exists S, Opt.cech positions radius maxK fuel = Some (Ok S).
Proof.
  intros Hlen Hfuel.
  destruct (run_Opt_spec positions radius maxK (fun _ _ => True)
              (fun _ => True) fuel Hlen)
    as (nb & S1 & st & k & _ & _ & _ & Hrun & _); [auto | auto | exact Hfuel |].
  exists (Opt.levels st). unfold Opt.cech. now rewrite Hrun.
Qed.

Lemma cech_LE_returns (positions : list point) (radius : list R)
    (maxK : option Z) (fuel : nat) :
  (length positions <= length radius)%nat -> (N positions < fuel)%nat ->
  exists S, LE.cech positions radius maxK fuel = Some (Ok S).
Proof.
  intros Hlen Hfuel.
  destruct (sim1_spec positions radius Hlen)
    as (nb & S1 & Hsim & Hnbl & Hsorted & Hnb & HS1).
  destruct (simk_loop_LE_spec positions radius maxK Hlen nb Hnbl Hsorted Hnb
              fuel 2 [sim0 positions; S1])
    as (m & Hrun & _); [lia | lia |].
  eexists. unfold LE.cech. rewrite Hsim. exact Hrun.
Qed.

(** In exact arithmetic.  With radii that are not negative, [CechComplex.cech] computes the
    Cech complex of the balls: the level [j] holds, up to the order of the
    vertices, exactly the sets of [j + 1] balls whose closed discs have a
    common point; every level built from dimension 2 on is within the bound
    [maxK] and not empty, and the construction stops at the first dimension
    that is over the bound or has no simplex. *)
Theorem cech_computes_the_cech_complex :
  forall (positions : list point) (radius : list R) (maxK : option Z)
         (fuel : nat) (S : list level),
    (length positions <= length radius)%nat ->
    (forall r, In r radius -> 0 <= r) ->
    Opt.cech positions radius maxK fuel = Some (Ok S) ->
    (2 <= length S)%nat /\
    (forall j t, (j < length S)%nat ->
       (In t (map frozenset (nth j S [])) <->
        StronglySorted lt t /\ length t = (j + 1)%nat /\
        (forall c, In c t -> (c < N positions)%nat) /\
        exists p, forall c, In c t ->
                    isPointInsideCell positions radius p c = Ok true)) /\
    (forall j, (2 <= j < length S)%nat ->
               over_maxK maxK j = false /\ nth j S [] <> []) /\
    (over_maxK maxK (length S) = true \/
     ~ exists t, cech_set positions radius (length S) t).
Proof.
  intros positions radius maxK fuel S Hlen Hpos Hcech.
  destruct (cech_is_cech_complex positions radius maxK fuel S Hlen Hpos Hcech)
    as (H2 & Hlv & Hbuilt & Hend).
  split; [exact H2 |]. split; [exact Hlv |]. split; [| exact Hend].
  intros j Hj. destruct (Hbuilt j Hj) as [Ho [t Ht]]. split; [exact Ho |].
  apply Hlv in Ht; [| lia]. unfold canon in Ht.
  destruct (nth j S []); [destruct Ht | discriminate].
Qed.

Lemma cech_computes_the_cech_complex_witness :
  In [0; 1; 2]%nat
    (map frozenset
       (nth 2 [[[0]; [1]; [2]]; [[0; 1]; [0; 2]; [1; 2]]; [[0; 1; 2]]] []))%nat
  <->
  StronglySorted lt [0; 1; 2]%nat /\ length [0; 1; 2]%nat = (2 + 1)%nat /\
  (forall c, In c [0; 1; 2]%nat -> (c < N positions_B)%nat) /\
  exists p, forall c, In c [0; 1; 2]%nat ->
              isPointInsideCell positions_B radius_B p c = Ok true.
Proof.
  refine (proj1 (proj2 (cech_computes_the_cech_complex positions_B radius_B
                          None 4 _ _ _ _)) 2%nat [0; 1; 2]%nat _).
  - cbn. lia.
  - unfold radius_B. intros r [<- | [<- | [<- | []]]]; lra.
  - unfold Opt.cech. change 4%nat with (2 + 2)%nat.
    rewrite (run_B None 2 eq_refl eq_refl). reflexivity.
  - cbn. lia.
Defined.

(** In exact arithmetic.  With radii that are not negative, [CechComplexLE.cech] computes
    the Cech complex of the balls as well: the level [j] holds, up to the
    order of the vertices and to repetitions, exactly the sets of [j + 1]
    balls whose closed discs have a common point, and the construction
    stops at the first dimension that is over the bound or has no
    simplex. *)
Theorem cechLE_computes_the_cech_complex :
  forall (positions : list point) (radius : list R) (maxK : option Z)
         (fuel : nat) (S : list level),
    (length positions <= length radius)%nat ->
    (forall r, In r radius -> 0 <= r) ->
    LE.cech positions radius maxK fuel = Some (Ok S) ->
    (2 <= length S)%nat /\
    (forall j t, (j < length S)%nat ->
       (In t (map frozenset (nth j S [])) <->
        StronglySorted lt t /\ length t = (j + 1)%nat /\
        (forall c, In c t -> (c < N positions)%nat) /\
        exists p, forall c, In c t ->
                    isPointInsideCell positions radius p c = Ok true)) /\
    (forall j, (2 <= j < length S)%nat ->
               over_maxK maxK j = false /\ nth j S [] <> []) /\
    (over_maxK maxK (length S) = true \/
     ~ exists t, cech_set positions radius (length S) t).
Proof.
  intros positions radius maxK fuel S Hlen Hpos Hcech.
  destruct (cechLE_is_cech_complex positions radius maxK fuel S Hlen Hpos
              Hcech) as (H2 & Hlv & Hbuilt & Hend).
  split; [exact H2 |]. split; [exact Hlv |]. split; [| exact Hend].
  intros j Hj. destruct (Hbuilt j Hj) as [Ho [t Ht]]. split; [exact Ho |].
  apply Hlv in Ht; [| lia]. unfold canon in Ht.
  destruct (nth j S []); [destruct Ht | discriminate].
Qed.

Lemma cechLE_computes_the_cech_complex_witness :
  In [0; 1; 2]%nat
    (map frozenset
       (nth 2 [[[0]; [1]; [2]]; [[0; 1]; [0; 2]; [1; 2]];
               [[0; 1; 2]; [1; 0; 2]; [2; 0; 1]]] []))%nat
  <->
  StronglySorted lt [0; 1; 2]%nat /\ length [0; 1; 2]%nat = (2 + 1)%nat /\
  (forall c, In c [0; 1; 2]%nat -> (c < N positions_B)%nat) /\
  exists p, forall c, In c [0; 1; 2]%nat ->
              isPointInsideCell positions_B radius_B p c = Ok true.
Proof.
  refine (proj1 (proj2 (cechLE_computes_the_cech_complex positions_B radius_B
                          None 4 _ _ _
                          (cech_LE_B None 2 eq_refl eq_refl)))
            2%nat [0; 1; 2]%nat _).
  - cbn. lia.
  - unfold radius_B. intros r [<- | [<- | [<- | []]]]; lra.
  - cbn. lia.
Defined.

(** In exact arithmetic.  With radii that are not negative, the two constructions agree:
    given enough fuel both return, the two complexes have the same number
    of levels, and in every dimension the two levels hold the same sets of
    vertices. *)
Theorem both_constructions_agree :
  forall (positions : list point) (radius : list R) (maxK : option Z)
         (fuel : nat),
    (length positions <= length radius)%nat ->
    (forall r, In r radius -> 0 <= r) ->
    (N positions < fuel)%nat ->
    exists S S',
      LE.cech positions radius maxK fuel = Some (Ok S) /\
      Opt.cech positions radius maxK fuel = Some (Ok S') /\
      length S = length S' /\
      forall j t, In t (map frozenset (nth j S [])) <->
                  In t (map frozenset (nth j S' [])).
Proof.
  intros positions radius maxK fuel Hlen Hpos Hfuel.
  destruct (cech_LE_returns positions radius maxK fuel Hlen Hfuel) as [S HS].
  destruct (cech_Opt_returns positions radius maxK fuel Hlen Hfuel)
    as [S' HS'].
  exists S, S'. split; [exact HS |]. split; [exact HS' |].
  apply (is_cech_complex_unique positions radius maxK).
  - apply (cechLE_is_cech_complex positions radius maxK fuel S Hlen Hpos HS).
  - apply (cech_is_cech_complex positions radius maxK fuel S' Hlen Hpos HS').
Qed.

Lemma both_constructions_agree_witness :
  exists S S',
    LE.cech positions_B radius_B None 4 = Some (Ok S) /\
    Opt.cech positions_B radius_B None 4 = Some (Ok S') /\
    length S = length S' /\
    forall j t, In t (map frozenset (nth j S [])) <->
                In t (map frozenset (nth j S' [])).
Proof.
  apply (both_constructions_agree positions_B radius_B None 4).
  - cbn. lia.
  - unfold radius_B. intros r [<- | [<- | [<- | []]]]; lra.
  - cbn. lia.
Defined.


(** ** Faces, and what the two verifiers decide *)

(** A non-empty increasing list of cells of a simplex of the Cech complex is
    a simplex of the Cech complex, of the dimension of its length. *)
Lemma cech_set_face (positions : list point) (radius : list R) (j : nat)
    (u t : list nat) :
  cech_set positions radius j u ->
  t <> [] -> StronglySorted lt t -> (forall c, In c t -> In c u) ->
  cech_set positions radius (length t - 1) t /\ (length t - 1 <= j)%nat.
Proof.
  intros (Hs & Hl & Hr & p & Hp) Hne Hst Hsub.
  assert (Hlt : (length t <= length u)%nat).
  { apply NoDup_incl_length; [now apply sorted_NoDup | exact Hsub]. }
  assert (Hpos : (0 < length t)%nat).
  { destruct t; [contradiction | cbn; lia]. }
  split; [| lia].
  split; [exact Hst |]. split; [lia |].
  split; [intros c Hc; apply Hr; auto |].
  exists p. intros c Hc. apply Hp; auto.
Qed.

(** The levels of a Cech complex are closed under faces. *)
Lemma is_cech_complex_faces (positions : list point) (radius : list R)
    (maxK : option Z) (S : list level) (j : nat) (s : simplex)
    (t : list nat) :
  is_cech_complex positions radius maxK S ->
  In s (nth j S []) ->
  t <> [] -> StronglySorted lt t -> (forall c, In c t -> In c s) ->
  In t (canon (nth (length t - 1) S [])).
Proof.
  intros (H2 & Hlv & _ & _) Hs Hne Hst Hsub.
  assert (Hj : (j < length S)%nat).
  { destruct (Nat.lt_ge_cases j (length S)) as [H | H]; [exact H |].
    rewrite nth_overflow in Hs by exact H. destruct Hs. }
  assert (Hu : cech_set positions radius j (frozenset s)).
  { apply Hlv; [exact Hj |]. unfold canon. now apply in_map. }
  destruct (cech_set_face positions radius j (frozenset s) t Hu Hne Hst)
    as [Ht Hle].
  { intros c Hc. apply frozenset_In. auto. }
  apply Hlv; [lia | exact Ht].
Qed.

(** In exact arithmetic.  With radii that are not negative, the complex returned by either
    construction is closed under faces: for every simplex [s] of a level,
    every non-empty set [t] of vertices of [s], written as an increasing
    list, is (as a frozenset) a simplex of the level of dimension
    [len(t) - 1] of the same complex. *)
Theorem complexes_are_closed_under_faces :
  forall (positions : list point) (radius : list R) (maxK : option Z)
         (fuel : nat) (S : list level) (j : nat) (s : simplex)
         (t : list nat),
    (length positions <= length radius)%nat ->
    (forall r, In r radius -> 0 <= r) ->
    Opt.cech positions radius maxK fuel = Some (Ok S) \/
    LE.cech positions radius maxK fuel = Some (Ok S) ->
    In s (nth j S []) ->
    t <> [] -> StronglySorted lt t -> (forall c, In c t -> In c s) ->
    In t (map frozenset (nth (length t - 1) S [])).
Proof.
  intros positions radius maxK fuel S j s t Hlen Hpos Hcech Hs Hne Hst Hsub.
  apply (is_cech_complex_faces positions radius maxK S j s t); auto.
  destruct Hcech as [Hc | Hc].
  - now apply (cech_is_cech_complex positions radius maxK fuel).
  - now apply (cechLE_is_cech_complex positions radius maxK fuel).
Qed.

Lemma complexes_are_closed_under_faces_witness :
  In [0; 2]%nat
    (map frozenset
       (nth (length [0; 2]%nat - 1)
          [[[0]; [1]; [2]]; [[0; 1]; [0; 2]; [1; 2]]; [[0; 1; 2]]] []))%nat.
Proof.
  refine (complexes_are_closed_under_faces positions_B radius_B None 4 _
            2%nat [0; 1; 2]%nat [0; 2]%nat _ _ (or_introl _) _ _ _ _).
  - cbn. lia.
  - unfold radius_B. intros r [<- | [<- | [<- | []]]]; lra.
  - unfold Opt.cech. change 4%nat with (2 + 2)%nat.
    rewrite (run_B None 2 eq_refl eq_refl). reflexivity.
  - cbn. auto.
  - discriminate.
  - repeat constructor; lia.
  - cbn. tauto.
Defined.

(** In exact arithmetic.  With radii that are not negative, [CechComplexLE.verify] decides
    whether the closed discs of the cells have a common point: on a
    non-empty list of ball indices it returns without an exception, and it
    returns [True] exactly when some point is accepted by
    [isPointInsideCell] for every cell of the list. *)
Theorem verifyLE_decides_common_point :
  forall (positions : list point) (radius : list R) (cells : simplex),
    (length positions <= length radius)%nat ->
    (forall r, In r radius -> 0 <= r) ->
    cells <> [] ->
    (forall c, In c cells -> (c < N positions)%nat) ->
    exists b,
      LE.verify positions radius cells = Ok b /\
      (b = true <->
       exists p, forall c, In c cells ->
                   isPointInsideCell positions radius p c = Ok true).
Proof.
  intros positions radius cells Hlen Hpos Hne Hr.
  destruct (total_Ok _ (total_verify_LE positions radius Hlen cells Hne Hr))
    as [b Hb].
  exists b. split; [exact Hb |]. split.
  - intros ->.
    destruct (verify_LE_sound positions radius Hlen cells Hr) as [p Hp];
      [intros; now apply rad_nonneg | exact Hb |].
    exists p. now apply (inside_all_common positions radius p cells Hlen Hr).
  - intros [p Hp].
    apply (inside_all_common positions radius p cells Hlen Hr) in Hp.
    rewrite (verify_LE_complete positions radius Hlen cells p Hne Hr) in Hb;
      [congruence | intros; now apply rad_nonneg | exact Hp].
Qed.

Lemma verifyLE_decides_common_point_witness :
  exists b,
    LE.verify positions_B radius_B [0; 1; 2]%nat = Ok b /\
    (b = true <->
     exists p, forall c, In c [0; 1; 2]%nat ->
                 isPointInsideCell positions_B radius_B p c = Ok true).
Proof.
  apply (verifyLE_decides_common_point positions_B radius_B [0; 1; 2]%nat).
  - cbn. lia.
  - unfold radius_B. intros r [<- | [<- | [<- | []]]]; lra.
  - discriminate.
  - cbn. intros c [<- | [<- | [<- | []]]]; lia.
Defined.

(** In exact arithmetic.  With radii that are not negative, [CechComplex.verify] decides
    whether the closed discs of a candidate have a common point, provided
    that the point recorded in [self.intersections] for [pre_set] lies in
    the discs of [pre_set] (candidates of more than three cells).  On a
    candidate [s + [c]] of at least three distinct ball indices it returns
    [(True, p)] with a point [p] that [isPointInsideCell] accepts for every
    cell, or it returns [(False, [])] and no such point exists. *)
Theorem verify_decides_common_point :
  forall (positions : list point) (radius : list R)
         (inters : list (list nat * point)) (s : simplex) (c : nat),
    (length positions <= length radius)%nat ->
    (forall r, In r radius -> 0 <= r) ->
    (forall x, In x (s ++ [c]) -> (x < N positions)%nat) ->
    NoDup (s ++ [c]) ->
    (2 <= length s)%nat ->
    ((2 < length s)%nat ->
     exists w, dict_get inters (frozenset s) = Some w /\
               forall x, In x s ->
                 isPointInsideCell positions radius w x = Ok true) ->
    (exists p,
       Opt.verify positions radius inters (s ++ [c]) = Ok (Some p) /\
       forall x, In x (s ++ [c]) ->
         isPointInsideCell positions radius p x = Ok true)
    \/
    (Opt.verify positions radius inters (s ++ [c]) = Ok None /\
     ~ exists p, forall x, In x (s ++ [c]) ->
                   isPointInsideCell positions radius p x = Ok true).
Proof.
  intros positions radius inters s c Hlen Hpos Hr Hnd Hl2 Hmemo.
  assert (Hne : s ++ [c] <> []) by (destruct s; discriminate).
  assert (Hrs : in_range positions s).
  { intros x Hx. apply Hr, in_or_app. now left. }
  assert (Hmemo' : (2 < length s)%nat ->
            exists w, dict_get inters (frozenset s) = Some w /\
                      common_point positions radius w s).
  { intros H3. destruct (Hmemo H3) as (w & Hw & Hin). exists w.
    split; [exact Hw |].
    now apply (inside_all_common positions radius w s Hlen Hrs). }
  assert (Hmem : (2 < length (removelast (s ++ [c])))%nat ->
            dict_mem inters (frozenset (removelast (s ++ [c]))) = true).
  { rewrite removelast_last. intros H3.
    destruct (Hmemo H3) as (w & Hw & _). unfold dict_mem. now rewrite Hw. }
  destruct (total_Ok _ (total_verify_Opt positions radius Hlen inters
                          (s ++ [c]) Hne Hr Hmem)) as [[p |] Hv].
  - left. exists p. split; [exact Hv |].
    apply (inside_all_common positions radius p (s ++ [c]) Hlen Hr).
    apply (verify_Opt_sound positions radius Hlen inters (s ++ [c]) p Hr);
      [intros; now apply rad_nonneg | | exact Hv].
    rewrite removelast_last. intros w H3 Hw.
    destruct (Hmemo' H3) as (w' & Hw' & Hcp).
    assert (w' = w) by congruence. subst w'. exact Hcp.
  - right. split; [exact Hv |]. intros [q Hq].
    apply (inside_all_common positions radius q (s ++ [c]) Hlen Hr) in Hq.
    apply (verify_Opt_complete positions radius Hlen inters s c q Hr Hnd Hl2);
      [intros; now apply rad_nonneg | exact Hmemo' | exact Hq | exact Hv].
Qed.

Lemma verify_decides_common_point_witness :
  (exists p,
     Opt.verify positions_B radius_B [] ([0; 1] ++ [2])%nat = Ok (Some p) /\
     forall x, In x ([0; 1] ++ [2])%nat ->
       isPointInsideCell positions_B radius_B p x = Ok true)
  \/
  (Opt.verify positions_B radius_B [] ([0; 1] ++ [2])%nat = Ok None /\
   ~ exists p, forall x, In x ([0; 1] ++ [2])%nat ->
                 isPointInsideCell positions_B radius_B p x = Ok true).
Proof.
  apply (verify_decides_common_point positions_B radius_B [] [0; 1]%nat
           2%nat).
  - cbn. lia.
  - unfold radius_B. intros r [<- | [<- | [<- | []]]]; lra.
  - cbn. intros x [<- | [<- | [<- | []]]]; lia.
  - cbn. repeat constructor; cbn; intuition lia.
  - cbn. lia.
  - cbn. lia.
Defined.


(** ** Relabelling the balls *)

Lemma NoDup_map_on (f : nat -> nat) (l : list nat) :
  (forall x y, In x l -> In y l -> f x = f y -> x = y) ->
  NoDup l -> NoDup (map f l).
Proof.
  induction l as [| a l IH]; intros Hinj Hnd; cbn [map]; [constructor |].
  inversion Hnd as [| ? ? Ha Hl]; subst. constructor.
  - rewrite in_map_iff. intros (x & Hx & Hin).
    assert (x = a) by (apply Hinj; cbn; auto). subst x. contradiction.
  - apply IH; [| exact Hl]. intros x y Hx Hy. apply Hinj; cbn; auto.
Qed.

Section Relabel.

(** The balls of [positions], [radius] are those of [positions'],
    [radius'], the ball [i] of the former being the ball [pi i] of the
    latter. *)
Variable positions positions' : list point.
Variable radius radius' : list R.
Variable pi : nat -> nat.
Hypothesis radius_long : (length positions <= length radius)%nat.
Hypothesis radius_long' : (length positions' <= length radius')%nat.
Hypothesis same_N : length positions' = length positions.
Hypothesis pi_range :
  forall i, (i < N positions)%nat -> (pi i < N positions)%nat.
Hypothesis pi_inj :
  forall i k, (i < N positions)%nat -> (k < N positions)%nat ->
              pi i = pi k -> i = k.
Hypothesis moved :
  forall i, (i < N positions)%nat ->
            nth (pi i) positions' (0, 0) = nth i positions (0, 0) /\
            nth (pi i) radius' 0 = nth i radius 0.

Lemma in_cell_relabel (p : point) (i : nat) :
  (i < N positions)%nat ->
  in_cell positions' radius' p (pi i) = in_cell positions radius p i.
Proof.
  intros Hi. destruct (moved i Hi) as [Ep Er].
  unfold in_cell, px, py, rad. now rewrite Ep, Er.
Qed.

Lemma cech_set_relabel (j : nat) (t : list nat) :
  cech_set positions radius j t ->
  cech_set positions' radius' j (frozenset (map pi t)).
Proof.
  intros Ht. apply (cech_set_common positions radius radius_long) in Ht.
  destruct Ht as (Hs & Hl & Hr & p & Hp).
  apply (cech_set_common positions' radius' radius_long').
  split; [apply frozenset_sorted |]. split; [| split].
  - rewrite frozenset_length, length_map; [exact Hl |].
    apply NoDup_map_on; [| now apply sorted_NoDup].
    intros x y Hx Hy. apply pi_inj; now apply Hr.
  - intros c Hc. apply frozenset_In, in_map_iff in Hc.
    destruct Hc as (x & <- & Hx). unfold N. rewrite same_N.
    apply pi_range. now apply Hr.
  - exists p. intros c Hc. apply frozenset_In, in_map_iff in Hc.
    destruct Hc as (x & <- & Hx).
    rewrite in_cell_relabel by now apply Hr. now apply Hp.
Qed.

End Relabel.

(** The simplices of the Cech complex of the relabelled balls are the
    images of the simplices of the Cech complex. *)
Lemma cech_set_relabel_iff (positions positions' : list point)
    (radius radius' : list R) (pi pi' : nat -> nat) (j : nat)
    (t' : list nat) :
  (length positions <= length radius)%nat ->
  (length positions' <= length radius')%nat ->
  length positions' = length positions ->
  (forall i, (i < N positions)%nat ->
             (pi i < N positions)%nat /\ (pi' i < N positions)%nat /\
             pi' (pi i) = i /\ pi (pi' i) = i) ->
  (forall i, (i < N positions)%nat ->
             nth (pi i) positions' (0, 0) = nth i positions (0, 0) /\
             nth (pi i) radius' 0 = nth i radius 0) ->
  (cech_set positions' radius' j t' <->
   exists t, cech_set positions radius j t /\ t' = frozenset (map pi t)).
Proof.
  intros Hlen Hlen' HN Hperm Hmoved.
  assert (HN' : N positions' = N positions) by exact HN.
  split.
  - intros Ht'. exists (frozenset (map pi' t')). split.
    + apply (cech_set_relabel positions' positions radius' radius pi');
        auto.
      * intros i Hi. rewrite HN' in *. now apply Hperm.
      * intros i k Hi Hk E. rewrite HN' in *.
        destruct (Hperm i Hi) as (_ & _ & _ & <-).
        destruct (Hperm k Hk) as (_ & _ & _ & <-). now rewrite E.
      * intros i Hi. rewrite HN' in Hi.
        destruct (Hperm i Hi) as (_ & Hi' & _ & E).
        destruct (Hmoved (pi' i) Hi') as [Ep Er]. rewrite E in Ep, Er.
        now split.
    + destruct Ht' as (Hs & _ & Hr & _).
      rewrite <- (frozenset_sorted_id t' Hs) at 1.
      apply frozenset_ext. intros x. rewrite in_map_iff. split.
      * intros Hx. exists (pi' x).
        assert (Hxr : (x < N positions)%nat) by (rewrite <- HN'; auto).
        split; [now apply Hperm |].
        apply frozenset_In, in_map. exact Hx.
      * intros (y & <- & Hy). apply frozenset_In, in_map_iff in Hy.
        destruct Hy as (x & <- & Hx).
        assert (Hxr : (x < N positions)%nat) by (rewrite <- HN'; auto).
        destruct (Hperm x Hxr) as (_ & _ & _ & ->). exact Hx.
  - intros (t & Ht & ->).
    apply (cech_set_relabel positions positions' radius radius' pi); auto.
    + intros i Hi. now apply Hperm.
    + intros i k Hi Hk E.
      destruct (Hperm i Hi) as (_ & _ & <- & _).
      destruct (Hperm k Hk) as (_ & _ & <- & _). now rewrite E.
Qed.

(** Two Cech complexes, of the balls and of the relabelled balls. *)
Lemma is_cech_complex_relabel (positions positions' : list point)
    (radius radius' : list R) (pi : nat -> nat) (maxK : option Z)
    (S S' : list level) :
  (forall j t', cech_set positions' radius' j t' <->
                exists t, cech_set positions radius j t /\
                          t' = frozenset (map pi t)) ->
  is_cech_complex positions radius maxK S ->
  is_cech_complex positions' radius' maxK S' ->
  length S' = length S /\
  forall j t', In t' (canon (nth j S' [])) <->
               exists t, In t (canon (nth j S [])) /\
                         t' = frozenset (map pi t).
Proof.
  intros Hrel (H2 & Hlv & Hbuilt & Hend) (H2' & Hlv' & Hbuilt' & Hend').
  assert (Hex : forall j, (exists t', cech_set positions' radius' j t') <->
                          (exists t, cech_set positions radius j t)).
  { intros j. split.
    - intros [t' Ht']. apply Hrel in Ht'. destruct Ht' as (t & Ht & _).
      now exists t.
    - intros [t Ht]. exists (frozenset (map pi t)). apply Hrel. now exists t. }
  assert (Hlen : length S' = length S).
  { destruct (Nat.lt_trichotomy (length S) (length S')) as [H | [H | H]];
      [exfalso | now symmetry | exfalso].
    - destruct (Hbuilt' (length S)) as [Ho Ht]; [lia |].
      destruct Hend as [Hend | Hend]; [congruence |].
      apply Hend, Hex, Ht.
    - destruct (Hbuilt (length S')) as [Ho Ht]; [lia |].
      destruct Hend' as [Hend' | Hend']; [congruence |].
      apply Hend', Hex, Ht. }
  split; [exact Hlen |]. intros j t'.
  destruct (Nat.lt_ge_cases j (length S)) as [Hj | Hj].
  - rewrite (Hlv' j t') by lia. rewrite Hrel. split.
    + intros (t & Ht & E). exists t. split; [now apply Hlv | exact E].
    + intros (t & Ht & E). exists t. split; [now apply Hlv | exact E].
  - rewrite !nth_overflow by lia. split; [intros [] | intros (t & [] & _)].
Qed.

(** In exact arithmetic.  Relabelling the balls relabels the complex.  Let the ball [i] of
    [positions], [radius] be the ball [pi i] of [positions'], [radius'],
    for a permutation [pi] of [range(N)] of inverse [pi'], all radii being
    non-negative.  Then both constructions return on both inputs, with the
    same number of levels, and in every dimension the sets of vertices of
    the level of the relabelled input are the images under [pi] of the sets
    of vertices of the level of the original input. *)
Theorem relabelling_the_balls_relabels_the_complex :
  forall (positions positions' : list point) (radius radius' : list R)
         (pi pi' : nat -> nat) (maxK : option Z) (fuel : nat),
    (length positions <= length radius)%nat ->
    (length positions' <= length radius')%nat ->
    (forall r, In r radius -> 0 <= r) ->
    (forall r, In r radius' -> 0 <= r) ->
    length positions' = length positions ->
    (forall i, (i < N positions)%nat ->
               (pi i < N positions)%nat /\ (pi' i < N positions)%nat /\
               pi' (pi i) = i /\ pi (pi' i) = i) ->
    (forall i, (i < N positions)%nat ->
               nth (pi i) positions' (0, 0) = nth i positions (0, 0) /\
               nth (pi i) radius' 0 = nth i radius 0) ->
    (N positions < fuel)%nat ->
    (exists S S',
       Opt.cech positions radius maxK fuel = Some (Ok S) /\
       Opt.cech positions' radius' maxK fuel = Some (Ok S') /\
       length S' = length S /\
       forall j t', In t' (map frozenset (nth j S' [])) <->
                    exists t, In t (map frozenset (nth j S [])) /\
                              t' = frozenset (map pi t)) /\
    (exists S S',
       LE.cech positions radius maxK fuel = Some (Ok S) /\
       LE.cech positions' radius' maxK fuel = Some (Ok S') /\
       length S' = length S /\
       forall j t', In t' (map frozenset (nth j S' [])) <->
                    exists t, In t (map frozenset (nth j S [])) /\
                              t' = frozenset (map pi t)).
Proof.
  intros positions positions' radius radius' pi pi' maxK fuel Hlen Hlen'
    Hpos Hpos' HN Hperm Hmoved Hfuel.
  assert (Hfuel' : (N positions' < fuel)%nat) by (unfold N in *; lia).
  pose proof (fun j t' =>
                cech_set_relabel_iff positions positions' radius radius'
                  pi pi' j t' Hlen Hlen' HN Hperm Hmoved) as Hrel.
  split.
  - destruct (cech_Opt_returns positions radius maxK fuel Hlen Hfuel)
      as [S HS].
    destruct (cech_Opt_returns positions' radius' maxK fuel Hlen' Hfuel')
      as [S' HS'].
    exists S, S'. split; [exact HS |]. split; [exact HS' |].
    apply (is_cech_complex_relabel positions positions' radius radius' pi
             maxK S S' Hrel).
    + apply (cech_is_cech_complex positions radius maxK fuel S Hlen Hpos HS).
    + apply (cech_is_cech_complex positions' radius' maxK fuel S' Hlen'
               Hpos' HS').
  - destruct (cech_LE_returns positions radius maxK fuel Hlen Hfuel)
      as [S HS].
    destruct (cech_LE_returns positions' radius' maxK fuel Hlen' Hfuel')
      as [S' HS'].
    exists S, S'. split; [exact HS |]. split; [exact HS' |].
    apply (is_cech_complex_relabel positions positions' radius radius' pi
             maxK S S' Hrel).
    + apply (cechLE_is_cech_complex positions radius maxK fuel S Hlen Hpos
               HS).
    + apply (cechLE_is_cech_complex positions' radius' maxK fuel S' Hlen'
               Hpos' HS').
Qed.

(** The transposition of the balls 0 and 1. *)
Definition swap01 (i : nat) : nat :=
  match i with
  | 0%nat => 1%nat
  | 1%nat => 0%nat
  | _ => i
  end.

Lemma relabelling_the_balls_relabels_the_complex_witness :
  (exists S S',
     Opt.cech positions_B radius_B None 4 = Some (Ok S) /\
     Opt.cech positions_B [2; 1; 3] None 4 = Some (Ok S') /\
     length S' = length S /\
     forall j t', In t' (map frozenset (nth j S' [])) <->
                  exists t, In t (map frozenset (nth j S [])) /\
                            t' = frozenset (map swap01 t)) /\
  (exists S S',
     LE.cech positions_B radius_B None 4 = Some (Ok S) /\
     LE.cech positions_B [2; 1; 3] None 4 = Some (Ok S') /\
     length S' = length S /\
     forall j t', In t' (map frozenset (nth j S' [])) <->
                  exists t, In t (map frozenset (nth j S [])) /\
                            t' = frozenset (map swap01 t)).
Proof.
  apply (relabelling_the_balls_relabels_the_complex positions_B positions_B
           radius_B [2; 1; 3] swap01 swap01 None 4).
  - cbn. lia.
  - cbn. lia.
  - unfold radius_B. intros r [<- | [<- | [<- | []]]]; lra.
  - intros r [<- | [<- | [<- | []]]]; lra.
  - reflexivity.
  - cbn. intros [| [| [| i]]] Hi; cbn; try lia; repeat split; lia.
  - cbn. intros [| [| [| i]]] Hi; cbn; try lia; split; reflexivity.
  - cbn. lia.
Defined.


(** ** Inputs on which [sim1] stops, or has nothing to do *)









(** X20. With fewer than two balls there is no pair to test: the radii are
    not read, whatever their number, and both constructions return the
    level 0 and an empty level 1, and no other level. *)
Theorem fewer_than_two_balls :
  forall (positions : list point) (radius : list R) (maxK : option Z)
         (fuel : nat),
    (length positions <= 1)%nat -> (1 <= fuel)%nat ->
    Opt.cech positions radius maxK fuel = Some (Ok [sim0 positions; []]) /\
    LE.cech positions radius maxK fuel = Some (Ok [sim0 positions; []]).
Proof.
  intros positions radius maxK fuel HN Hfuel.
  destruct fuel as [| fuel]; [lia |].
  destruct positions as [| p [| q l]]; [| | cbn in HN; lia].
  - unfold Opt.cech, Opt.run, LE.cech.
    change (sim1 [] radius) with (@Ok (list (list nat) * level) ([], [])).
    cbn [Opt.simk_loop LE.simk_loop].
    destruct (over_maxK maxK 2); split; reflexivity.
  - unfold Opt.cech, Opt.run, LE.cech.
    change (sim1 [p] radius) with (@Ok (list (list nat) * level) ([[]], [])).
    cbn [Opt.simk_loop LE.simk_loop].
    destruct (over_maxK maxK 2); split; reflexivity.
Qed.

Lemma fewer_than_two_balls_witness :
  Opt.cech [(3, 4)] [] None 1 = Some (Ok [sim0 [(3, 4)]; []]) /\
  LE.cech [(3, 4)] [] None 1 = Some (Ok [sim0 [(3, 4)]; []]).
Proof.
  apply (fewer_than_two_balls [(3, 4)] [] None 1); cbn; lia.
Defined.

(** ** The lists that stand for a simplex *)

(** The lists of a level of [CechComplexLE], of dimension [j >= 2]: a ball
    [i] followed by [j] other balls, in the order of [neighbor[i]], the
    discs of which have a common point. *)
Lemma cechLE_level_lists :
  forall (positions : list point) (radius : list R) (maxK : option Z)
         (fuel : nat) (S : list level) (j : nat) (s : simplex),
    (length positions <= length radius)%nat ->
    (forall r, In r radius -> 0 <= r) ->
    LE.cech positions radius maxK fuel = Some (Ok S) ->
    (2 <= j < length S)%nat ->
    (In s (nth j S []) <->
     exists i rest,
       s = i :: rest /\ length rest = j /\ StronglySorted lt rest /\
       ~ In i rest /\
       (forall c, In c s -> (c < N positions)%nat) /\
       exists p, forall c, In c s ->
                   isPointInsideCell positions radius p c = Ok true).
Proof.
  intros positions radius maxK fuel S j s Hlen Hpos Hcech Hj.
  destruct (cech_LE_returned positions radius maxK fuel S Hlen Hcech)
    as (nb & S1 & m & Hsim & Hnbl & Hsorted & Hnb & HS1 & -> & Hall & Hend).
  assert (HL : length ([sim0 positions; S1] ++
                       map (level_LE positions radius nb) (seq 2 m))
               = (2 + m)%nat).
  { rewrite length_app, length_map, length_seq. reflexivity. }
  rewrite HL in Hj. rewrite nth_levels_LE.
  destruct j as [| [| j]]; [lia | lia |].
  destruct (Nat.ltb_spec (S (S j)) (2 + m)) as [_ | H]; [| lia].
  unfold level_LE. rewrite filter_In.
  rewrite (cands_LE_spec positions radius Hlen nb Hnbl). split.
  - intros [(i & c & -> & Hi & Hsub & Hc) Hacc].
    assert (Hr : in_range positions (i :: c)).
    { intros x [<- | Hx]; [exact Hi |].
      apply (subseq_In _ _ x Hsub) in Hx. apply Hnb in Hx. tauto. }
    exists i, c. split; [reflexivity |]. split; [exact Hc |].
    split; [now apply (subseq_sorted c (nth i nb [])) |].
    split.
    { intros Hin. apply (subseq_In _ _ i Hsub) in Hin. apply Hnb in Hin.
      tauto. }
    split; [exact Hr |].
    unfold accepts_LE in Hacc.
    destruct (LE.verify positions radius (i :: c)) as [[|] | e] eqn:Ev;
      try discriminate.
    destruct (verify_LE_sound positions radius Hlen (i :: c) Hr) as [p Hp];
      [intros; now apply rad_nonneg | exact Ev |].
    exists p.
    now apply (inside_all_common positions radius p (i :: c) Hlen Hr).
  - intros (i & rest & -> & Hl & Hst & Hni & Hr & p & Hp).
    apply (inside_all_common positions radius p (i :: rest) Hlen Hr) in Hp.
    split.
    + exists i, rest. split; [reflexivity |].
      split; [apply Hr; now left |]. split; [| exact Hl].
      apply sorted_incl_subseq; [exact Hst | apply Hsorted |].
      intros x Hx. apply Hnb.
      split; [apply Hr; now left |]. split; [apply Hr; now right |].
      split; [intros ->; contradiction |].
      apply (common_adj positions radius p i x);
        try apply rad_nonneg; try assumption; apply Hp; cbn; tauto.
    + unfold accepts_LE.
      rewrite (verify_LE_complete positions radius Hlen (i :: rest) p);
        try assumption; [reflexivity | discriminate |].
      intros; now apply rad_nonneg.
Qed.

Lemma sorted_without (l1 l2 : list nat) (i : nat) :
  StronglySorted lt (l1 ++ i :: l2) -> StronglySorted lt (l1 ++ l2).
Proof.
  induction l1 as [| a l1 IH]; cbn [app]; intros H.
  - now inversion H.
  - inversion H as [| ? ? Hs Ha]; subst. constructor; [now apply IH |].
    rewrite Forall_forall in *. intros x Hx. apply Ha.
    apply in_app_or in Hx. apply in_or_app. cbn. tauto.
Qed.

(** In exact arithmetic.  [CechComplexLE] lists a simplex once for each of its vertices.
    With radii that are not negative, for every set [t] of vertices of a
    level of dimension [j >= 2] of the complex returned by
    [CechComplexLE.cech] and every vertex [i] of [t], the level holds a list
    that starts with [i] and whose set of vertices is [t]. *)
Theorem cechLE_lists_a_simplex_for_each_first_vertex :
  forall (positions : list point) (radius : list R) (maxK : option Z)
         (fuel : nat) (S : list level) (j : nat) (t : list nat) (i : nat),
    (length positions <= length radius)%nat ->
    (forall r, In r radius -> 0 <= r) ->
    LE.cech positions radius maxK fuel = Some (Ok S) ->
    (2 <= j < length S)%nat ->
    In t (map frozenset (nth j S [])) -> In i t ->
    exists rest, In (i :: rest) (nth j S []) /\ frozenset (i :: rest) = t.
Proof.
  intros positions radius maxK fuel S j t i Hlen Hpos Hcech Hj Ht Hi.
  pose proof (cechLE_is_cech_complex positions radius maxK fuel S Hlen Hpos
                Hcech) as (_ & Hlv & _ & _).
  apply (Hlv j t) in Ht; [| lia].
  destruct Ht as (Hs & Hl & Hr & p & Hp).
  destruct (in_split i t Hi) as (l1 & l2 & ->).
  exists (l1 ++ l2).
  assert (Hmem : forall x, In x (i :: l1 ++ l2) <-> In x (l1 ++ i :: l2)).
  { intros x. cbn. rewrite !in_app_iff. cbn. tauto. }
  split.
  - apply (cechLE_level_lists positions radius maxK fuel S j
             (i :: l1 ++ l2) Hlen Hpos Hcech Hj).
    exists i, (l1 ++ l2). split; [reflexivity |].
    split; [rewrite length_app in *; cbn [length] in Hl; lia |].
    split; [now apply (sorted_without l1 l2 i) |].
    split; [apply NoDup_remove_2; now apply sorted_NoDup |].
    split; [intros c Hc; apply Hr; now apply Hmem |].
    exists p. intros c Hc. apply Hp. now apply Hmem.
  - rewrite <- (frozenset_sorted_id (l1 ++ i :: l2) Hs).
    now apply frozenset_ext.
Qed.

Lemma cechLE_lists_a_simplex_for_each_first_vertex_witness :
  exists rest,
    In (1 :: rest)%nat
      (nth 2 [[[0]; [1]; [2]]; [[0; 1]; [0; 2]; [1; 2]];
              [[0; 1; 2]; [1; 0; 2]; [2; 0; 1]]] [])%nat /\
    frozenset (1 :: rest)%nat = [0; 1; 2]%nat.
Proof.
  refine (cechLE_lists_a_simplex_for_each_first_vertex positions_B radius_B
            None 4 _ 2%nat [0; 1; 2]%nat 1%nat _ _
            (cech_LE_B None 2 eq_refl eq_refl) _ _ _).
  - cbn. lia.
  - unfold radius_B. intros r [<- | [<- | [<- | []]]]; lra.
  - cbn. lia.
  - cbn. auto.
  - cbn. auto.
Defined.

(** X22. The lists of [CechComplex].  Every simplex of a level of
    dimension [j >= 2] of the complex returned by [CechComplex.cech] is a
    simplex [s'] of the level below, as the same list, followed by one more
    ball [c], which is not in [s'] and which [intersects] pairs with every
    ball of [s']. *)
Theorem cech_simplices_extend_the_level_below :
  forall (positions : list point) (radius : list R) (maxK : option Z)
         (fuel : nat) (S : list level) (j : nat) (s : simplex),
    (length positions <= length radius)%nat ->
    Opt.cech positions radius maxK fuel = Some (Ok S) ->
    (2 <= j)%nat -> In s (nth j S []) ->
    exists s' c,
      s = s' ++ [c] /\ In s' (nth (j - 1) S []) /\ ~ In c s' /\
      forall i, In i s' -> intersects positions radius i c = Ok true.
Proof.
  intros positions radius maxK fuel S j s Hlen Hcech Hj Hs.
  unfold Opt.cech in Hcech.
  destruct (Opt.run positions radius maxK fuel) as [[st | e] |] eqn:Hrun;
    try discriminate.
  injection Hcech as <-.
  destruct (run_Opt_returned positions radius maxK (fun _ _ => True)
              (fun _ => True) fuel st Hlen) as
    (nb & S1 & k & Hsim & Hnb & HS1 & Hcore & _); [auto | auto | exact Hrun |].
  pose proof (run_core_simplex_ok positions maxK nb S1 _ _ k st Hcore) as Hok.
  destruct Hcore as (_ & Hk & Hk2 & _ & Hlv & _).
  assert (Hjk : (j < k)%nat).
  { destruct (Nat.lt_ge_cases j k) as [H | H]; [exact H |].
    rewrite nth_overflow in Hs by lia. destruct Hs. }
  destruct (Hlv j) as (_ & _ & Hin & _); [lia |]. cbv zeta in Hin.
  destruct (Hin s Hs) as (_ & Hcand & _).
  apply cands_Opt_spec in Hcand. destruct Hcand as (s' & c & -> & Hs' & Hc).
  destruct (Hok (j - 1)%nat s' Hs') as (Hl' & _ & Hr').
  assert (Hne : s' <> []) by (intros ->; cbn in Hl'; lia).
  apply (ext_spec nb s' c Hne) in Hc. destruct Hc as [Hni Hall].
  exists s', c. split; [reflexivity |]. split; [exact Hs' |].
  split; [exact Hni |].
  intros i Hi. specialize (Hall i Hi). apply Hnb in Hall.
  destruct Hall as (Hi' & Hc' & _ & Hadj).
  rewrite (intersects_eq positions radius Hlen i c Hi' Hc'). f_equal.
  now apply Rleb_true_iff.
Qed.

Lemma cech_simplices_extend_the_level_below_witness :
  exists s' c,
    [0; 1; 2]%nat = s' ++ [c] /\
    In s' (nth (2 - 1)
             [[[0]; [1]; [2]]; [[0; 1]; [0; 2]; [1; 2]]; [[0; 1; 2]]] [])%nat
    /\ ~ In c s' /\
    forall i, In i s' -> intersects positions_B radius_B i c = Ok true.
Proof.
  refine (cech_simplices_extend_the_level_below positions_B radius_B None 4
            _ 2%nat [0; 1; 2]%nat _ _ _ _).
  - cbn. lia.
  - unfold Opt.cech. change 4%nat with (2 + 2)%nat.
    rewrite (run_B None 2 eq_refl eq_refl). reflexivity.
  - lia.
  - cbn. auto.
Defined.


(** * Properties that rest on the tests of the code alone

    The statements of this part speak of the lists the construction builds
    and of the outcome of the tests the code itself makes ([intersects],
    the membership tests of the sets); none of them depends on what is
    geometrically true of the discs, nor on the exactness of the
    arithmetic. *)

(** The test of [intersects] on two balls, against the inequality it
    stands for. *)
Lemma adj_intersects (positions : list point) (radius : list R) (a b : nat) :
  (length positions <= length radius)%nat ->
  (a < N positions)%nat -> (b < N positions)%nat ->
  (adj positions radius a b <-> intersects positions radius a b = Ok true).
Proof.
  intros Hlen Ha Hb.
  rewrite (intersects_eq positions radius Hlen a b Ha Hb). unfold adj.
  rewrite <- Rleb_true_iff. split; [intros -> | intros H]; congruence.
Qed.



(** X6. The complex returned by [CechComplex.cech] is well formed: it has
    at least two and at most [max 2 N] levels, and every simplex of the
    level [j] lists [j + 1] distinct cells, all of them indices of balls. *)
Theorem cech_returned_levels_are_well_formed :
  forall (positions : list point) (radius : list R) (maxK : option Z)
         (fuel : nat) (S : list level),
    (length positions <= length radius)%nat ->
    Opt.cech positions radius maxK fuel = Some (Ok S) ->
    (2 <= length S <= Nat.max 2 (N positions))%nat /\
    forall j s, In s (nth j S []) ->
                length s = (j + 1)%nat /\ NoDup s /\
                forall c, In c s -> (c < N positions)%nat.
Proof.
  intros positions radius maxK fuel S Hlen Hcech.
  unfold Opt.cech in Hcech.
  destruct (Opt.run positions radius maxK fuel) as [[st | e] |] eqn:Hrun;
    try discriminate.
  injection Hcech as <-.
  destruct (run_Opt_returned positions radius maxK (fun _ _ => True)
              (fun _ => True) fuel st Hlen) as
    (nb & S1 & k & Hsim & Hnb & HS1 & Hcore & _); [auto | auto | exact Hrun |].
  pose proof (run_core_simplex_ok positions maxK nb S1 _ _ k st Hcore) as Hok.
  split; [| exact Hok].
  destruct Hcore as (_ & Hk & Hk2 & _ & Hlv & _).
  split; [lia |].
  destruct (Nat.eq_dec k 2) as [E | E]; [lia |].
  destruct (Hlv (k - 1)%nat) as (Hne & _ & Hs & _); [lia |].
  destruct (nth (k - 1) (Opt.levels st) []) as [| s0 l] eqn:E0;
    [contradiction |].
  destruct (Hs s0 (or_introl eq_refl)) as ((Hl & Hnd & Hr) & _).
  pose proof (NoDup_below_length s0 (N positions) Hnd Hr). lia.
Qed.

Lemma cech_returned_levels_are_well_formed_witness :
  (2 <= length [[[0]; [1]; [2]]; [[0; 1]; [0; 2]; [1; 2]]; [[0; 1; 2]]]%nat
   <= Nat.max 2 (N positions_B))%nat /\
  forall j s,
    In s (nth j [[[0]; [1]; [2]]; [[0; 1]; [0; 2]; [1; 2]]; [[0; 1; 2]]]%nat
            []) ->
    length s = (j + 1)%nat /\ NoDup s /\
    forall c, In c s -> (c < N positions_B)%nat.
Proof.
  refine (cech_returned_levels_are_well_formed positions_B radius_B None 4
            _ _ _).
  - cbn. lia.
  - unfold Opt.cech. change 4%nat with (2 + 2)%nat.
    rewrite (run_B None 2 eq_refl eq_refl). reflexivity.
Defined.

(** X11. The complex returned by [CechComplexLE.cech] is well formed: it
    has at least two and at most [max 2 N] levels, and every simplex of the
    level [j] lists [j + 1] distinct cells, all of them indices of balls. *)
Theorem cechLE_returned_levels_are_well_formed :
  forall (positions : list point) (radius : list R) (maxK : option Z)
         (fuel : nat) (S : list level),
    (length positions <= length radius)%nat ->
    LE.cech positions radius maxK fuel = Some (Ok S) ->
    (2 <= length S <= Nat.max 2 (N positions))%nat /\
    forall j s, In s (nth j S []) ->
                length s = (j + 1)%nat /\ NoDup s /\
                forall c, In c s -> (c < N positions)%nat.
Proof.
  intros positions radius maxK fuel S Hlen Hcech.
  destruct (cech_LE_returned positions radius maxK fuel S Hlen Hcech)
    as (nb & S1 & m & Hsim & Hnbl & Hsorted & Hnb & HS1 & -> & Hall & _).
  split.
  - rewrite length_app, length_map, length_seq. cbn [length].
    split; [lia |].
    destruct m as [| m]; [lia |].
    destruct (Hall (2 + m)%nat) as [_ Hne]; [lia |].
    destruct (level_LE positions radius nb (2 + m)) as [| s0 l] eqn:E;
      [contradiction |].
    assert (Hin : In s0 (level_LE positions radius nb (2 + m))).
    { rewrite E. now left. }
    apply (level_LE_ok positions radius Hlen nb Hnbl Hsorted Hnb) in Hin.
    apply (simplex_ok_dim positions radius Hlen nb Hnbl) in Hin. lia.
  - intros j s Hs. rewrite nth_levels_LE in Hs.
    change (simplex_ok positions j s).
    destruct j as [| [| j]].
    + now apply sim0_ok.
    + apply (sim0_ok_1 positions radius S1 s HS1 Hs).
    + destruct (S (S j) <? 2 + m)%nat; [| destruct Hs].
      apply (level_LE_ok positions radius Hlen nb Hnbl Hsorted Hnb _ s Hs).
Qed.

Lemma cechLE_returned_levels_are_well_formed_witness :
  (2 <= length [[[0]; [1]; [2]]; [[0; 1]; [0; 2]; [1; 2]];
                [[0; 1; 2]; [1; 0; 2]; [2; 0; 1]]]%nat
   <= Nat.max 2 (N positions_B))%nat /\
  forall j s,
    In s (nth j [[[0]; [1]; [2]]; [[0; 1]; [0; 2]; [1; 2]];
                 [[0; 1; 2]; [1; 0; 2]; [2; 0; 1]]]%nat []) ->
    length s = (j + 1)%nat /\ NoDup s /\
    forall c, In c s -> (c < N positions_B)%nat.
Proof.
  refine (cechLE_returned_levels_are_well_formed positions_B radius_B None 4
            _ _ (cech_LE_B None 2 eq_refl eq_refl)).
  cbn. lia.
Defined.

(** ** The simplices and the neighbor graph *)

(** Two balls that pass the test of [intersects] are an edge of level 1. *)
Lemma edge_of_level_1 (positions : list point) (radius : list R) (S1 : level)
    (a b : nat) :
  (forall s, In s S1 <->
             exists i j, s = [i; j] /\ (i < j < N positions)%nat /\
                         adj positions radius i j) ->
  (a < N positions)%nat -> (b < N positions)%nat -> a <> b ->
  adj positions radius a b ->
  In [Nat.min a b; Nat.max a b] S1.
Proof.
  intros HS1 Ha Hb Hab Hadj. apply HS1.
  exists (Nat.min a b), (Nat.max a b). split; [reflexivity |].
  split; [lia |].
  destruct (Nat.lt_ge_cases a b) as [H | H].
  - rewrite Nat.min_l, Nat.max_r by lia. exact Hadj.
  - rewrite Nat.min_r, Nat.max_l by lia. now apply adj_sym.
Qed.

(** In a state of which [run_core] holds, any two cells of a simplex are
    neighbours. *)
Lemma run_core_clique (positions : list point) (radius : list R)
    (maxK : option Z) (nb : list (list nat)) (S1 : level)
    (G : list nat -> point -> Prop) (Rej : list nat -> Prop) (k : nat)
    (st : Opt.state) :
  (forall a b, In b (nth a nb []) <->
               (a < N positions)%nat /\ (b < N positions)%nat /\
               a <> b /\ adj positions radius a b) ->
  (forall s, In s S1 <->
             exists i j, s = [i; j] /\ (i < j < N positions)%nat /\
                         adj positions radius i j) ->
  run_core positions maxK nb S1 G Rej k st ->
  forall j s, In s (nth j (Opt.levels st) []) ->
  forall a b, In a s -> In b s -> a <> b -> adj positions radius a b.
Proof.
  intros Hnb HS1 Hcore.
  pose proof (run_core_simplex_ok positions maxK nb S1 G Rej k st Hcore)
    as Hok.
  destruct Hcore as (_ & Hk & Hk2 & _ & Hlv & _ & H00 & H11 & _).
  induction j as [j IH] using lt_wf_ind. intros s Hs a b Ha Hb Hab.
  assert (Hjk : (j < k)%nat).
  { destruct (Nat.lt_ge_cases j k) as [H | H]; [exact H |].
    rewrite nth_overflow in Hs by lia. destruct Hs. }
  destruct j as [| [| j]].
  - rewrite H00 in Hs. unfold sim0 in Hs. apply in_map_iff in Hs.
    destruct Hs as (i & <- & _).
    destruct Ha as [<- | []]. destruct Hb as [<- | []]. contradiction.
  - rewrite H11 in Hs. apply HS1 in Hs.
    destruct Hs as (i & i' & -> & _ & Hadj).
    destruct Ha as [<- | [<- | []]]; destruct Hb as [<- | [<- | []]];
      try contradiction; [exact Hadj | now apply adj_sym].
  - destruct (Hlv (S (S j))) as (_ & _ & Hin & _); [lia |].
    cbv zeta in Hin. destruct (Hin s Hs) as (_ & Hcand & _).
    apply cands_Opt_spec in Hcand.
    destruct Hcand as (s' & c & -> & Hs' & Hc).
    destruct (Hok (S (S j) - 1)%nat s' Hs') as (Hl' & _ & _).
    assert (Hne : s' <> []) by (intros ->; cbn in Hl'; lia).
    apply (ext_spec nb s' c Hne) in Hc. destruct Hc as [_ Hall].
    assert (Hadj : forall x, In x s' -> adj positions radius x c).
    { intros x Hx. specialize (Hall x Hx). apply Hnb in Hall. tauto. }
    apply in_app_or in Ha. apply in_app_or in Hb.
    destruct Ha as [Ha | [<- | []]]; destruct Hb as [Hb | [<- | []]].
    + apply (IH (S (S j) - 1)%nat ltac:(lia) s' Hs' a b Ha Hb Hab).
    + now apply Hadj.
    + apply adj_sym. now apply Hadj.
    + contradiction.
Qed.

(** X15. The simplices of [CechComplex] are cliques of the neighbor graph.
    In the complex returned by [CechComplex.cech], any two distinct vertices
    of a simplex, of whatever level, pass the test of [intersects], and
    their pair is an edge of level 1: no simplex is kept whose edges are not
    all in the complex. *)
Theorem cech_simplices_are_cliques :
  forall (positions : list point) (radius : list R) (maxK : option Z)
         (fuel : nat) (S : list level) (j : nat) (s : simplex) (a b : nat),
    (length positions <= length radius)%nat ->
    Opt.cech positions radius maxK fuel = Some (Ok S) ->
    In s (nth j S []) -> In a s -> In b s -> a <> b ->
    intersects positions radius a b = Ok true /\
    In [Nat.min a b; Nat.max a b] (nth 1 S []).
Proof.
  intros positions radius maxK fuel S j s a b Hlen Hcech Hs Ha Hb Hab.
  unfold Opt.cech in Hcech.
  destruct (Opt.run positions radius maxK fuel) as [[st | e] |] eqn:Hrun;
    try discriminate.
  injection Hcech as <-.
  destruct (run_Opt_returned positions radius maxK (fun _ _ => True)
              (fun _ => True) fuel st Hlen) as
    (nb & S1 & k & Hsim & Hnb & HS1 & Hcore & _); [auto | auto | exact Hrun |].
  pose proof (run_core_simplex_ok positions maxK nb S1 _ _ k st Hcore j s Hs)
    as (_ & _ & Hr).
  pose proof (run_core_clique positions radius maxK nb S1 _ _ k st Hnb HS1
                Hcore j s Hs a b Ha Hb Hab) as Hadj.
  destruct Hcore as (_ & _ & _ & _ & _ & _ & _ & H11 & _).
  split.
  - apply (adj_intersects positions radius a b Hlen); auto.
  - rewrite H11. apply (edge_of_level_1 positions radius S1 a b HS1); auto.
Qed.

Lemma cech_simplices_are_cliques_witness :
  intersects positions_B radius_B 2 0 = Ok true /\
  In [Nat.min 2 0; Nat.max 2 0]
    (nth 1 [[[0]; [1]; [2]]; [[0; 1]; [0; 2]; [1; 2]]; [[0; 1; 2]]]%nat []).
Proof.
  refine (cech_simplices_are_cliques positions_B radius_B None 4 _ 2%nat
            [0; 1; 2]%nat 2%nat 0%nat _ _ _ _ _ _).
  - cbn. lia.
  - unfold Opt.cech. change 4%nat with (2 + 2)%nat.
    rewrite (run_B None 2 eq_refl eq_refl). reflexivity.
  - cbn. auto.
  - cbn. auto.
  - cbn. auto.
  - discriminate.
Defined.

(** X21. The lists of [CechComplexLE].  Every list of a level of dimension
    [j >= 2] of the complex returned by [CechComplexLE.cech] is a ball [i]
    followed by [j] distinct other balls, each of which passes the test of
    [intersects] with [i] and makes with [i] an edge of level 1. *)
Theorem cechLE_lists_a_ball_and_its_neighbours :
  forall (positions : list point) (radius : list R) (maxK : option Z)
         (fuel : nat) (S : list level) (j : nat) (s : simplex),
    (length positions <= length radius)%nat ->
    LE.cech positions radius maxK fuel = Some (Ok S) ->
    (2 <= j)%nat -> In s (nth j S []) ->
    exists i rest,
      s = i :: rest /\ length rest = j /\ NoDup rest /\ ~ In i rest /\
      forall x, In x rest ->
        intersects positions radius i x = Ok true /\
        In [Nat.min i x; Nat.max i x] (nth 1 S []).
Proof.
  intros positions radius maxK fuel S j s Hlen Hcech Hj Hs.
  destruct (cech_LE_returned positions radius maxK fuel S Hlen Hcech)
    as (nb & S1 & m & Hsim & Hnbl & Hsorted & Hnb & HS1 & -> & Hall & Hend).
  rewrite !nth_levels_LE in *.
  destruct j as [| [| j]]; [lia | lia |].
  destruct (S (S j) <? 2 + m)%nat; [| destruct Hs].
  unfold level_LE in Hs. apply filter_In in Hs. destruct Hs as [Hs _].
  apply (cands_LE_spec positions radius Hlen nb Hnbl) in Hs.
  destruct Hs as (i & c & -> & Hi & Hsub & Hc).
  exists i, c. split; [reflexivity |]. split; [exact Hc |].
  split.
  { apply sorted_NoDup. now apply (subseq_sorted c (nth i nb [])). }
  split.
  { intros Hin. apply (subseq_In _ _ i Hsub) in Hin. apply Hnb in Hin.
    tauto. }
  intros x Hx. apply (subseq_In _ _ x Hsub) in Hx. apply Hnb in Hx.
  destruct Hx as (_ & Hxr & Hne & Hadj). split.
  - now apply (adj_intersects positions radius i x Hlen).
  - now apply (edge_of_level_1 positions radius S1 i x HS1).
Qed.

Lemma cechLE_lists_a_ball_and_its_neighbours_witness :
  exists i rest,
    [1; 0; 2]%nat = i :: rest /\ length rest = 2%nat /\ NoDup rest /\
    ~ In i rest /\
    forall x, In x rest ->
      intersects positions_B radius_B i x = Ok true /\
      In [Nat.min i x; Nat.max i x]
        (nth 1 [[[0]; [1]; [2]]; [[0; 1]; [0; 2]; [1; 2]];
                [[0; 1; 2]; [1; 0; 2]; [2; 0; 1]]]%nat []).
Proof.
  refine (cechLE_lists_a_ball_and_its_neighbours positions_B radius_B None 4
            _ 2%nat [1; 0; 2]%nat _
            (cech_LE_B None 2 eq_refl eq_refl) _ _).
  - cbn. lia.
  - lia.
  - cbn. auto.
Defined.


(** ** Input that is not checked *)



